(** * xeofs: rotation, reordering, sign normalisation and analytic signal

    A shallow embedding of the rotated-EOF model ([xeofs/models/eof_rotator.py]),
    of the complex MCA model ([xeofs/models/mca.py]) and of the padded Hilbert
    transform ([xeofs/utils/xarray_utils.py]), with the properties of the
    natural-language specification stated against it.  The embedding also
    covers the helpers of [xarray_utils.py] (dimension names, total variance,
    latitude weights), the entry points of the rotator and the real MCA model;
    Part III states further properties of this code.

    Conventions of the embedding.
    - A finite float64 value is a rational number, so arrays hold [Q]; the
      arithmetic is exact (no rounding, no NaN, no infinities).  A quotient by
      zero, which NumPy answers with an infinity or NaN and a warning, is 0 in
      [Q]; statements about entries exclude zero divisors.
    - A Python exception is a value of [exn]; fallible code lives in the
      [result] monad and raises in the order of the source.
    - An array with a [mode] dimension is stored mode-major: one inner list per
      mode, holding the entries along the other dimension.  xarray addresses
      dimensions by name, so the storage order is immaterial to the source.
      Mode coordinates are the labels 1..n, as the models assign them.
    - NumPy/SciPy kernels that need irrational numbers or LAPACK, and the
      rotation engine [promax] that lives outside the files at hand, are the
      fields of a [NumericBackend]. *)

From Stdlib Require Import ZArith QArith Qabs Lia Lqa Permutation Sorted.
From stdpp Require Import base option list gmap strings sorting.

(* ===================================================================== *)
(** * Part I. The embedding *)
(* ===================================================================== *)

(** ** Python exceptions and the error monad *)

Inductive exn : Set :=
| ValueError | TypeError | KeyError | IndexError
| AttributeError | NotImplementedError | LinAlgError.

Inductive result (A : Type) : Type :=
| Ok (a : A)
| Raise (e : exn).
Arguments Ok {A} a.
Arguments Raise {A} e.

Definition bind {A B} (m : result A) (f : A -> result B) : result B :=
  match m with Ok a => f a | Raise e => Raise e end.

Notation "'let*' x := m 'in' k" := (bind m (fun x => k))
  (at level 10, x pattern, m at level 100, k at level 200).

(** Run [f] over a list from left to right; the first exception wins. *)
Fixpoint traverse {A B} (f : A -> result B) (l : list A) : result (list B) :=
  match l with
  | [] => Ok []
  | x :: l' => let* y := f x in let* ys := traverse f l' in Ok (y :: ys)
  end.

Definition is_ok {A} (r : result A) : bool :=
  match r with Ok _ => true | Raise _ => false end.

(** [xs[i]] for a non-negative index. *)
Definition getitem {A} (xs : list A) (i : nat) : result A :=
  match xs !! i with Some x => Ok x | None => Raise IndexError end.

(** ** NumPy on rational arrays *)

Module Np.

(** [np.sign] on a real: -1, 0 or +1. *)
Definition sign (x : Q) : Q :=
  match (x ?= 0)%Q with Lt => (-1)%Q | Eq => 0%Q | Gt => 1%Q end.

(** [ndarray.sum] along one axis. *)
Definition sum (l : list Q) : Q := foldr Qplus 0%Q l.

(** [ndarray.argmax] along one axis: the running maximum is replaced only by
    a strictly greater entry, so the first maximal index wins; an empty axis
    raises [ValueError]. *)
Fixpoint argmax_from (best : Q) (besti i : nat) (l : list Q) : nat :=
  match l with
  | [] => besti
  | x :: l' =>
      match (best ?= x)%Q with
      | Lt => argmax_from x i (S i) l'
      | _ => argmax_from best besti (S i) l'
      end
  end.

Definition argmax (l : list Q) : result nat :=
  match l with
  | [] => Raise ValueError
  | x :: l' => Ok (argmax_from x 0 1 l')
  end.

(** [ndarray.argsort()], ascending, by insertion: index [i] is moved left
    while its key is strictly smaller than the key before it.  The source asks
    for NumPy's default kind, which is not a stable sort: among equal keys
    NumPy may return another order than this one, and does so on arrays of
    more than 16 entries.  The model agrees with NumPy wherever the keys are
    distinct; what is stated of the program below rests only on the result
    being a permutation in ascending order, never on the order of equal keys. *)
Definition key (v : list Q) (i : nat) : Q := default 0%Q (v !! i).

Fixpoint insert_index (v : list Q) (i : nat) (sorted : list nat) : list nat :=
  match sorted with
  | [] => [i]
  | j :: rest =>
      match (key v i ?= key v j)%Q with
      | Lt => i :: j :: rest
      | _ => j :: insert_index v i rest
      end
  end.

Definition argsort (v : list Q) : list nat :=
  fold_left (fun acc i => insert_index v i acc) (seq 0 (length v)) [].

(** [np.arange(lo, hi)], as floats. *)
Definition arange (lo hi : Z) : list Q :=
  (fun i => inject_Z (lo + Z.of_nat i)) <$> seq 0 (Z.to_nat (hi - lo)).

(** [ndarray.T] of a two-dimensional array, stored as a list of rows.  An
    array without rows keeps no record of its width. *)
Definition transpose {K} (rows : list (list K)) : list (list K) :=
  (fun j => omap (fun r => r !! j) rows) <$> seq 0 (length (default [] (head rows))).

(** [np.take(a, 0, axis=0)] and [np.take(a, -1, axis=0)]. *)
Definition take_first {K} (a : list K) : result K := getitem a 0.
Definition take_last {K} (a : list K) : result K := getitem a (length a - 1).

(** [a[lo:hi]] along the first axis; out-of-range bounds are clipped. *)
Definition slice {K} (lo hi : nat) (a : list K) : list K := take (hi - lo) (drop lo a).

(** [np.polynomial.polynomial.polyfit(x, y, deg=1)] for [y] of shape
    [(len(x), F)]: one least-squares line per column, returned as the row of
    intercepts and the row of slopes.  An empty [x], or a [y] of another
    length, is a [TypeError].  With a single sample the normal equations are
    singular; NumPy warns and returns the minimum-norm line (slope 0), and
    so does the closed form below, where [_ / 0] is [0]. *)
Definition line_fit (x y : list Q) : Q * Q :=
  let n := inject_Z (Z.of_nat (length x)) in
  let sx := sum x in
  let sxx := sum (zip_with Qmult x x) in
  let sy := sum y in
  let sxy := sum (zip_with Qmult x y) in
  let c1 := ((n * sxy - sx * sy) / (n * sxx - sx * sx))%Q in
  (((sy - c1 * sx) / n)%Q, c1).

Definition polyfit (x : list Q) (y : list (list Q)) : result (list Q * list Q) :=
  match x with
  | [] => Raise TypeError
  | _ =>
      if decide (length x = length y)
      then let fits := line_fit x <$> transpose y in Ok (fst <$> fits, snd <$> fits)
      else Raise TypeError
  end.

(** [np.polynomial.polynomial.polyval(x, coefs).T] for two rows of
    coefficients: one row of values per entry of [x] (Horner's scheme). *)
Definition polyval (x : list Q) (coefs : list Q * list Q) : list (list Q) :=
  (fun xi => zip_with (fun c0 c1 => c0 + (c1 + xi * 0) * xi)%Q coefs.1 coefs.2) <$> x.

End Np.

(** ** xarray operations along the [mode] dimension *)

Module Xr.

(** [a * v] and [a / v] where [v] has the single dimension [mode]: the
    factor of a mode is broadcast along the other dimension.  Arithmetic
    aligns coordinates by inner join; on labels 1..n that is truncation to
    the shorter operand. *)
Definition mul_mode (a : list (list Q)) (v : list Q) : list (list Q) :=
  zip_with (fun col s => (fun x => x * s)%Q <$> col) a v.

Definition div_mode (a : list (list Q)) (v : list Q) : list (list Q) :=
  zip_with (fun col s => (fun x => x / s)%Q <$> col) a v.

(** [a.isel(mode=idx)]: positional selection, [IndexError] out of range. *)
Definition isel {A} (idx : list nat) (a : list A) : result (list A) :=
  traverse (getitem a) idx.

(** [a.sel(mode=slice(lo, hi))]: label-based, both ends included; labels
    outside the coordinate are no error, the slice is just shorter. *)
Definition mode_coords {A} (a : list A) : list Z :=
  Z.of_nat <$> seq 1 (length a).

Definition sel_mode_slice {A} (lo hi : Z) (a : list A) : list A :=
  snd <$> filter (fun p => (lo <= p.1)%Z /\ (p.1 <= hi)%Z) (zip (mode_coords a) a).

(** [a.isel(feature=idx)] with an indexer that itself has the dimension
    [mode]: pointwise selection, entry [idx[m]] of mode [m]. *)
Definition isel_pointwise (a : list (list Q)) (idx : list nat) : result (list Q) :=
  traverse (fun p => getitem p.1 p.2) (zip a idx).

(** [xr.dot(data, components)]: [data] is sample x feature, [components] has
    the dimensions feature and mode; the common dimension is summed over. *)
Definition dot_feature (data components : list (list Q)) : list (list Q) :=
  (fun comp => (fun row => Np.sum (zip_with Qmult row comp)) <$> data) <$> components.

(** *** Arrays whose two dimensions are addressed by name

    Used where the source renames, transposes or declares core dimensions:
    the rotation matrix ([mode_m], [mode_n]) and the input of the Hilbert
    transform ([sample], [feature]). *)
Record DataArray2 (K : Type) : Type := {
  dims : string * string;
  values : list (list K);        (* one inner list per index of [dims.1] *)
}.
Arguments dims {K} _.
Arguments values {K} _.

(** The entries laid out in the order [d] of dimensions. *)
Definition as_dims {K} (d : string * string) (a : DataArray2 K)
  : result (list (list K)) :=
  if decide (dims a = d) then Ok (values a)
  else if decide (dims a = (d.2, d.1)) then Ok (Np.transpose (values a))
  else Raise ValueError.

(** [a.transpose(d1, d2)] *)
Definition transpose_dims {K} (d : string * string) (a : DataArray2 K)
  : result (DataArray2 K) :=
  let* v := as_dims d a in Ok {| dims := d; values := v |}.

(** [a.rename({old: new})] *)
Definition rename {K} (old new : string) (a : DataArray2 K) : result (DataArray2 K) :=
  if decide ((dims a).1 = old) then Ok {| dims := (new, (dims a).2); values := values a |}
  else if decide ((dims a).2 = old) then Ok {| dims := ((dims a).1, new); values := values a |}
  else Raise ValueError.

(** [xr.apply_ufunc(f, a, input_core_dims=[d_in], output_core_dims=[d_out])]
    when both dimensions are core dimensions: [f] sees the entries in the
    order [d_in] and its result is labelled [d_out]. *)
Definition apply_ufunc_core2 {K K'} (f : list (list K) -> result (list (list K')))
    (a : DataArray2 K) (d_in d_out : string * string) : result (DataArray2 K') :=
  let* m := as_dims d_in a in
  let* m' := f m in
  Ok {| dims := d_out; values := m' |}.

(** [xr.apply_ufunc(f, a, input_core_dims=[[d]], output_core_dims=[[d]])]
    for one core dimension: the core dimension is moved to the last axis, so
    [f] sees the other dimension along axis 0, and the result keeps that
    layout. *)
Definition apply_ufunc_core1 {K K'} (f : list (list K) -> result (list (list K')))
    (a : DataArray2 K) (d : string) : result (DataArray2 K') :=
  let other := if decide ((dims a).1 = d) then (dims a).2 else (dims a).1 in
  let* m := as_dims (other, d) a in
  let* m' := f m in
  Ok {| dims := (other, d); values := m' |}.

(** [a.conj()] and the like: a function applied to every entry. *)
Definition map_values {K K'} (f : K -> K') (a : DataArray2 K) : DataArray2 K' :=
  {| dims := dims a; values := (fun row : list K => f <$> row) <$> values a |}.

(** [xr.dot(scores, r, dims="mode_m")]: [scores] carries its modes under the
    name [mode_m], [r] has the dimensions [mode_m] and [mode]. *)
Definition dot_mode_m (scores : list (list Q)) (r : DataArray2 Q)
  : result (list (list Q)) :=
  let* m := as_dims ("mode_m", "mode") r in
  let by_sample := Np.transpose scores in
  Ok ((fun coefs => (fun row => Np.sum (zip_with Qmult row coefs)) <$> by_sample)
        <$> Np.transpose m).

End Xr.

(** ** The numeric kernels behind the source

    [np.sqrt], [** 0.5] and [np.exp] round to a float; [np.linalg.inv] raises
    [LinAlgError] on a singular matrix; [scipy.signal.hilbert(y, axis=0)]
    yields the analytic signal (real and imaginary part of each entry);
    [promax] is the rotation engine of [xeofs.utils.rotation], which returns
    the rotated loadings, the rotation matrix and the factor correlations and
    never signals non-convergence. *)
Class NumericBackend : Type := {
  np_sqrt : Q -> Q;
  np_power_half : Q -> Q;
  np_exp : Q -> Q;
  linalg_inv : list (list Q) -> result (list (list Q));
  signal_hilbert : list (list Q) -> result (list (list (Q * Q)));
  promax : list (list Q) -> Z -> Z -> Q ->
           list (list Q) * Xr.DataArray2 Q * Xr.DataArray2 Q;
}.

(** ** Reordering and sign of rotated loadings ([EOFRotator._fit_algorithm]) *)

Module Loadings.

(** [(abs(rot_loadings) ** 2).sum(feature)] *)
Definition explained_variance (rot_loadings : list (list Q)) : list Q :=
  (fun col => Np.sum ((fun x => Qabs x ^ 2)%Q <$> col)) <$> rot_loadings.

(** [expvar.compute().argsort()[::-1]] *)
Definition idx_sort (expvar : list Q) : list nat := reverse (Np.argsort expvar).

(** [abs(rot_loadings).argmax(feature)] *)
Definition idx_max_value (rot_loadings : list (list Q)) : result (list nat) :=
  traverse (fun col => Np.argmax (Qabs <$> col)) rot_loadings.

(** [np.sign(rot_loadings.isel(feature=idx_max_value))] *)
Definition modes_sign (rot_loadings : list (list Q)) : result (list Q) :=
  let* idx := idx_max_value rot_loadings in
  let* at_max := Xr.isel_pointwise rot_loadings idx in
  Ok (Np.sign <$> at_max).

End Loadings.

(** ** The rotated EOF model ([xeofs/models/eof_rotator.py]) *)

Module Rotator.

(** [self._params] *)
Record Params : Type := {
  n_modes : Z;
  power : Z;
  max_iter : Z;
  rtol : Q;
}.

Definition default_params : Params :=
  {| n_modes := 10; power := 1; max_iter := 1000; rtol := 1 # 100000000 |}.

(** The fitted [xe.models.EOF] handed to [fit]; the class itself is outside
    the files at hand, the fields are the entries of [model.data] that the
    rotator reads. *)
Record EOFModel : Type := {
  m_input_data : list (list Q);          (* sample x feature *)
  m_components : list (list Q);          (* mode-major, along feature *)
  m_scores : list (list Q);              (* mode-major, along sample *)
  m_norms : list Q;
  m_explained_variance : list Q;
  m_total_variance : Q;
}.

(** Modelled from the spec: [EOF.explained_variance()] is not among the
    files at hand; it returns the explained variance per mode of the fitted
    decomposition, from which the loadings are scaled. *)
Definition explained_variance (m : EOFModel) : list Q := m_explained_variance m.

(** Modelled from the spec: [EOF.singular_values()] is not among the files
    at hand; it returns the singular values of the original decomposition,
    which the model keeps as its norms. *)
Definition singular_values (m : EOFModel) : list Q := m_norms m.

(** What a [DataContainer] may hold. *)
Inductive DataValue : Type :=
| Input (x : list (list Q))
| ByMode2 (a : list (list Q))
| ByMode1 (v : list Q)
| Index (p : list nat)
| Matrix (r : Xr.DataArray2 Q)
| Scalar (q : Q).

(** The rotator object: [_params], [model] (set by [fit]) and [data]. *)
Record Rotator : Type := {
  params : Params;
  model : option EOFModel;
  data : gmap string DataValue;
}.

(** [__init__] *)
Definition init (p : Params) : Rotator :=
  {| params := p; model := None; data := ∅ |}.

(** [self.data[key]] *)
Definition data_get (d : gmap string DataValue) (key : string) : result DataValue :=
  match d !! key with Some v => Ok v | None => Raise KeyError end.

Definition by_mode1 (v : DataValue) : result (list Q) :=
  match v with ByMode1 x => Ok x | _ => Raise TypeError end.
Definition index_values (v : DataValue) : result (list nat) :=
  match v with Index x => Ok x | _ => Raise TypeError end.
Definition matrix (v : DataValue) : result (Xr.DataArray2 Q) :=
  match v with Matrix x => Ok x | _ => Raise TypeError end.

(** [_compute_rot_mat_inv_trans], for real or complex entries: [conj] is
    [ndarray.conj] on one entry and [inv] is [np.linalg.inv]. *)
Section RotMatInvTrans.
Context {K : Type} (conj : K -> K) (inv : list (list K) -> result (list (list K))).

Definition compute_rot_mat_inv_trans (power : Z)
    (rotation_matrix : Xr.DataArray2 K) (input_dims : string * string)
  : result (Xr.DataArray2 K) :=
  if decide (power > 1)%Z then
    (* inverse matrix *)
    let* rotation_matrix :=
      Xr.apply_ufunc_core2 inv rotation_matrix input_dims (input_dims.2, input_dims.1) in
    (* transpose matrix *)
    Xr.transpose_dims input_dims (Xr.map_values conj rotation_matrix)
  else Ok rotation_matrix.
End RotMatInvTrans.

Section WithBackend.
Context `{NumericBackend}.

(** The projection into rotated space shared by [_fit_algorithm] (lines
    153-178) and [_transform_algorithm] (lines 208-224) is spelled out in
    each of them, as in the source. *)

Definition fit_algorithm (self : Rotator) (model : EOFModel) : result Rotator :=
  let n_modes := n_modes (params self) in
  let power := power (params self) in
  let max_iter := max_iter (params self) in
  let rtol := rtol (params self) in
  (* Select modes to rotate *)
  let components := Xr.sel_mode_slice 1 n_modes (m_components model) in
  let expvar := Xr.sel_mode_slice 1 n_modes (explained_variance model) in
  (* Rotate loadings *)
  let loadings := Xr.mul_mode components (np_sqrt <$> expvar) in
  let '(rot_loadings, rot_matrix, phi_matrix) := promax loadings power max_iter rtol in
  (* Reorder according to variance *)
  let expvar := Loadings.explained_variance rot_loadings in
  let idx_sort := Loadings.idx_sort expvar in
  let* expvar := Xr.isel idx_sort expvar in
  let* rot_loadings := Xr.isel idx_sort rot_loadings in
  (* Normalize loadings *)
  let rot_components := Xr.div_mode rot_loadings (np_sqrt <$> expvar) in
  (* Compute "pseudo" norms *)
  let n_samples := Z.of_nat (length (m_input_data model)) in
  let norms := (fun e => np_power_half (e * inject_Z (n_samples - 1))) <$> expvar in
  (* Get unrotated, normalized scores *)
  let svals := Xr.sel_mode_slice 1 n_modes (m_norms model) in
  let scores := Xr.sel_mode_slice 1 n_modes (m_scores model) in
  let scores := Xr.div_mode scores svals in
  (* Rotate scores *)
  let* RinvT :=
    compute_rot_mat_inv_trans (fun x => x) linalg_inv power rot_matrix
      ("mode_m", "mode_n") in
  let* RinvT := Xr.rename "mode_n" "mode" RinvT in
  let* scores := Xr.dot_mode_m scores RinvT in
  (* Reorder according to variance *)
  let* scores := Xr.isel idx_sort scores in
  (* Scale scores by "pseudo" norms *)
  let scores := Xr.mul_mode scores norms in
  (* Ensure consistent signs for deterministic output *)
  let* modes_sign := Loadings.modes_sign rot_loadings in
  let rot_components := Xr.mul_mode rot_components modes_sign in
  let scores := Xr.mul_mode scores modes_sign in
  (* Store the results *)
  Ok {| params := params self;
        model := Some model;
        data :=
          <["modes_sign" := ByMode1 modes_sign]>
          (<["phi_matrix" := Matrix phi_matrix]>
          (<["rotation_matrix" := Matrix rot_matrix]>
          (<["idx_modes_sorted" := Index idx_sort]>
          (<["total_variance" := Scalar (m_total_variance model)]>
          (<["explained_variance" := ByMode1 expvar]>
          (<["norms" := ByMode1 norms]>
          (<["scores" := ByMode2 scores]>
          (<["components" := ByMode2 rot_components]>
          (<["input_data" := Input (m_input_data model)]> (data self)))))))))) |}.

Definition transform_algorithm (self : Rotator) (data_in : list (list Q))
  : result (list (list Q)) :=
  let n_modes := n_modes (params self) in
  let* model := match model self with Some m => Ok m | None => Raise AttributeError end in
  let svals := Xr.sel_mode_slice 1 n_modes (singular_values model) in
  let* pseudo_norms := let* v := data_get (data self) "norms" in by_mode1 v in
  (* Select the (non-rotated) singular vectors of the first dataset *)
  let components := Xr.sel_mode_slice 1 n_modes (m_components model) in
  (* Compute non-rotated scores by projecting the data onto non-rotated components *)
  let projections := Xr.div_mode (Xr.dot_feature data_in components) svals in
  (* Rotate the scores *)
  let* R := let* v := data_get (data self) "rotation_matrix" in matrix v in
  let* RinvT :=
    compute_rot_mat_inv_trans (fun x => x) linalg_inv (power (params self)) R
      ("mode_m", "mode_n") in
  let* RinvT := Xr.rename "mode_n" "mode" RinvT in
  let* projections := Xr.dot_mode_m projections RinvT in
  (* Reorder according to variance *)
  let* idx := let* v := data_get (data self) "idx_modes_sorted" in index_values v in
  let* projections := Xr.isel idx projections in
  (* Scale scores by "pseudo" norms *)
  let projections := Xr.mul_mode projections pseudo_norms in
  (* Adapt the sign of the scores *)
  let* modes_sign := let* v := data_get (data self) "modes_sign" in by_mode1 v in
  Ok (Xr.mul_mode projections modes_sign).

End WithBackend.

End Rotator.

(** ** Classes and method resolution of the rotated EOF family *)

Module Classes.
Import Rotator.

Inductive Class : Set := EOF | ComplexEOF | EOFRotator | ComplexEOFRotator.

#[export] Instance Class_eq_dec : EqDecision Class.
Proof. solve_decision. Defined.

(** The class statements: [EOFRotator(EOF)], [ComplexEOF(EOF)],
    [ComplexEOFRotator(EOFRotator, ComplexEOF)]. *)
Definition bases (c : Class) : list Class :=
  match c with
  | EOF => []
  | ComplexEOF => [EOF]
  | EOFRotator => [EOF]
  | ComplexEOFRotator => [EOFRotator; ComplexEOF]
  end.

(** Python's method resolution order of those statements. *)
Definition mro (c : Class) : list Class :=
  match c with
  | EOF => [EOF]
  | ComplexEOF => [ComplexEOF; EOF]
  | EOFRotator => [EOFRotator; EOF]
  | ComplexEOFRotator => [ComplexEOFRotator; EOFRotator; ComplexEOF; EOF]
  end.

(** The C3 linearisation by which Python computes it: the class, then the
    merge of the linearisations of its bases and of the list of bases, where
    the merge takes, again and again, the first head that is in no tail. *)
Definition c3_candidate (seqs : list (list Class)) : option Class :=
  head (filter (fun c => Forall (fun s => c ∉ tail s) seqs) (omap head seqs)).

Definition c3_remove (c : Class) (seqs : list (list Class)) : list (list Class) :=
  (fun s => match s with
            | h :: t => if decide (h = c) then t else s
            | [] => []
            end) <$> seqs.

Fixpoint c3_merge (fuel : nat) (seqs : list (list Class)) : option (list Class) :=
  match fuel with
  | O => None
  | S fuel' =>
      match filter (fun s => s <> []) seqs with
      | [] => Some []
      | seqs' =>
          match c3_candidate seqs' with
          | Some c => cons c <$> c3_merge fuel' (c3_remove c seqs')
          | None => None
          end
      end
  end.

Fixpoint c3_linearize (depth : nat) (c : Class) : option (list Class) :=
  match depth with
  | O => None
  | S depth' =>
      match mapM (c3_linearize depth') (bases c) with
      | Some ls => cons c <$> c3_merge 8 (ls ++ [bases c])
      | None => None
      end
  end.

(** [super(after, self)]: the classes behind [after] in the MRO of the class
    of [self]. *)
Fixpoint behind (after : Class) (classes : list Class) : list Class :=
  match classes with
  | [] => []
  | c :: rest => if decide (c = after) then rest else behind after rest
  end.

Definition super (after self_class : Class) : list Class :=
  behind after (mro self_class).

Section WithBackend.
Context `{NumericBackend}.

Definition method : Type := Rotator -> list (list Q) -> result (list (list Q)).

(** Modelled from the spec: [EOF._transform_algorithm] is not among the files
    at hand; it projects the data onto the components and normalises by the
    singular values. *)
Definition EOF_transform_algorithm : method :=
  fun self data_in =>
    let* components :=
      let* v := data_get (data self) "components" in
      match v with ByMode2 a => Ok a | _ => Raise TypeError end in
    let* norms := let* v := data_get (data self) "norms" in by_mode1 v in
    Ok (Xr.div_mode (Xr.dot_feature data_in components) norms).

(** Modelled from the spec: [ComplexEOF._transform_algorithm] is not among
    the files at hand; the forward transform is not defined for the complex
    model and the call raises the "not implemented" error, as the comment in
    [ComplexEOFRotator._transform_algorithm] says it will. *)
Definition ComplexEOF_transform_algorithm : method :=
  fun _ _ => Raise NotImplementedError.

(** The definitions of [_transform_algorithm] in the classes below
    [ComplexEOFRotator]. *)
Definition defines_transform_algorithm (c : Class) : option method :=
  match c with
  | EOF => Some EOF_transform_algorithm
  | ComplexEOF => Some ComplexEOF_transform_algorithm
  | EOFRotator => Some transform_algorithm
  | ComplexEOFRotator => None
  end.

(** Attribute lookup along a list of classes: the first definition wins. *)
Definition lookup_method (classes : list Class) : option method :=
  head (omap defines_transform_algorithm classes).

(** [ComplexEOFRotator._transform_algorithm]:
    [super(EOFRotator, self)._transform_algorithm(data)] *)
Definition ComplexEOFRotator_transform_algorithm : method :=
  fun self data_in =>
    match lookup_method (super EOFRotator ComplexEOFRotator) with
    | Some f => f self data_in
    | None => Raise AttributeError
    end.

End WithBackend.
End Classes.

(** ** The padded Hilbert transform ([xeofs/utils/xarray_utils.py]) *)

Module Hilbert.
Section WithBackend.
Context `{NumericBackend}.

(** [a - b] and [a + b] on arrays of the same shape. *)
Definition sub2 (a b : list (list Q)) : list (list Q) := zip_with (zip_with Qminus) a b.
Definition add2 (a b : list (list Q)) : list (list Q) := zip_with (zip_with Qplus) a b.

(** [(amp[:, None] * kernel).T]: row [i] is the row of amplitudes scaled by
    [kernel[i]]. *)
Definition outer_T (amp kernel : list Q) : list (list Q) :=
  (fun e => (fun a => a * e)%Q <$> amp) <$> kernel.

(** [np.exp(-x / x.size / decay_factor)] *)
Definition decay_kernel (n : Z) (decay_factor : Q) (x : list Q) : list Q :=
  (fun xi => np_exp (- xi / inject_Z n / decay_factor)%Q) <$> x.

(** [_pad_exp]; [y] has one row per sample (axis 0) and one column per
    series. *)
Definition pad_exp (y : list (list Q)) (decay_factor : Q) : result (list (list Q)) :=
  let n := Z.of_nat (length y) in
  let x := Np.arange 0 n in
  let x_ext := Np.arange (- n) (2 * n) in
  let* coefs := Np.polyfit x y in
  let yfit := Np.polyval x coefs in
  let yfit_ext := Np.polyval x_ext coefs in
  let y_ano := sub2 y yfit in
  let* amp_pre := Np.take_first y_ano in
  let* amp_pos := Np.take_last y_ano in
  let exp_ext := decay_kernel n decay_factor x in
  let exp_ext_reverse := reverse exp_ext in
  let pad_pre := outer_T amp_pre exp_ext_reverse in
  let pad_pos := outer_T amp_pos exp_ext in
  let y_ext := pad_pre ++ y_ano ++ pad_pos in
  Ok (add2 y_ext yfit_ext).

(** [_hilbert_transform_with_padding]; [padding] is a string or [None]. *)
Definition hilbert_transform_with_padding (y : list (list Q))
    (padding : option string) (decay_factor : Q) : result (list (list (Q * Q))) :=
  let n_samples := length y in
  let* y := if decide (padding = Some "exp") then pad_exp y decay_factor else Ok y in
  let* y := signal_hilbert y in
  Ok (if decide (padding = Some "exp") then Np.slice n_samples (2 * n_samples) y else y).

(** [hilbert_transform]: the argument [dim] is not used; the core dimension
    is [sample] whatever it says. *)
Definition hilbert_transform (data : Xr.DataArray2 Q) (dim : string)
    (padding : option string) (decay_factor : Q) : result (Xr.DataArray2 (Q * Q)) :=
  Xr.apply_ufunc_core1
    (fun y => hilbert_transform_with_padding y padding decay_factor) data "sample".

End WithBackend.
End Hilbert.

(** ** Complex maximum covariance analysis ([xeofs/models/mca.py]) *)

Module Mca.

(** Complex entries: real and imaginary part. *)
Definition C : Type := Q * Q.
Definition cadd (a b : C) : C := (a.1 + b.1, a.2 + b.2)%Q.
Definition cmul (a b : C) : C := (a.1 * b.1 - a.2 * b.2, a.1 * b.2 + a.2 * b.1)%Q.
Definition cdiv_real (a : C) (r : Q) : C := (a.1 / r, a.2 / r)%Q.
Definition csum (l : list C) : C := foldr cadd (0, 0)%Q l.

(** What [CrossDecomposer.fit] leaves on the decomposer. *)
Record CrossDecomposition : Type := {
  singular_values_ : list Q;
  total_squared_covariance_ : Q;
  singular_vectors1_ : list (list C);      (* mode-major, along feature *)
  singular_vectors2_ : list (list C);
}.

(** The collaborators of the model: the preprocessors (objects of type
    [Preprocessor], whose [fit_transform] fits the object and returns the
    sample x feature array) and the cross decomposer. *)
Class Collaborators (AnyDataObject Dims Weights Preprocessor : Type) : Type := {
  fit_transform :
    Preprocessor -> AnyDataObject -> Dims -> option Weights ->
    result (Preprocessor * Xr.DataArray2 Q);
  cross_decomposer_fit :
    Z -> Xr.DataArray2 C -> Xr.DataArray2 C -> result CrossDecomposition;
}.

Record Params : Type := {
  n_modes : Z;
  padding : option string;
  decay_factor : Q;
}.

(** The keyword arguments of [ComplexMCADataContainer(...)]. *)
Record DataContainer : Type := {
  input_data1 : Xr.DataArray2 C;
  input_data2 : Xr.DataArray2 C;
  components1 : list (list C);
  components2 : list (list C);
  scores1 : list (list C);
  scores2 : list (list C);
  squared_covariance : list Q;
  total_squared_covariance : Q;
  idx_modes_sorted : list nat;
  norm1 : list Q;
  norm2 : list Q;
}.

Section WithCollaborators.
Context `{NumericBackend}.
Context {AnyDataObject Dims Weights Preprocessor : Type}.
Context `{!Collaborators AnyDataObject Dims Weights Preprocessor}.

(** The model object. *)
Record ComplexMCA : Type := {
  params : Params;
  preprocessor1 : Preprocessor;
  preprocessor2 : Preprocessor;
  data : option DataContainer;
}.

(** [xr.dot(data, vectors) / norm]: the feature dimension is summed over. *)
Definition project (data_processed : Xr.DataArray2 C) (vectors : list (list C))
    (norm : list Q) : result (list (list C)) :=
  let* rows := Xr.as_dims ("sample", "feature") data_processed in
  Ok (zip_with (fun col s => (fun z => cdiv_real z s) <$> col)
        ((fun vec => (fun row => csum (zip_with cmul row vec)) <$> rows) <$> vectors)
        norm).

(** [ComplexMCA.fit] *)
Definition fit (self : ComplexMCA) (data1 data2 : AnyDataObject) (dim : Dims)
    (weights1 weights2 : option Weights) : result ComplexMCA :=
  let* (preprocessor1, data1_processed) :=
    fit_transform (preprocessor1 self) data1 dim weights2 in
  let* (preprocessor2, data2_processed) :=
    fit_transform (preprocessor2 self) data2 dim weights2 in
  (* apply hilbert transform: *)
  let padding := padding (params self) in
  let decay_factor := decay_factor (params self) in
  let* data1_processed :=
    Hilbert.hilbert_transform data1_processed "sample" padding decay_factor in
  let* data2_processed :=
    Hilbert.hilbert_transform data2_processed "sample" padding decay_factor in
  let* decomposer :=
    cross_decomposer_fit (n_modes (params self)) data1_processed data2_processed in
  let singular_values := singular_values_ decomposer in
  let squared_covariance := (fun s => s ^ 2)%Q <$> singular_values in
  let total_squared_covariance := total_squared_covariance_ decomposer in
  let singular_vectors1 := singular_vectors1_ decomposer in
  let singular_vectors2 := singular_vectors2_ decomposer in
  let norm1 := np_sqrt <$> singular_values in
  let norm2 := np_sqrt <$> singular_values in
  (* Index of the sorted squared covariance *)
  let idx_sorted_modes := reverse (Np.argsort squared_covariance) in
  (* Project the data onto the singular vectors *)
  let* scores1 := project data1_processed singular_vectors1 norm1 in
  let* scores2 := project data2_processed singular_vectors2 norm2 in
  Ok {| params := params self;
        preprocessor1 := preprocessor1;
        preprocessor2 := preprocessor2;
        data := Some {|
          input_data1 := data1_processed;
          input_data2 := data2_processed;
          components1 := singular_vectors1;
          components2 := singular_vectors2;
          scores1 := scores1;
          scores2 := scores2;
          squared_covariance := squared_covariance;
          total_squared_covariance := total_squared_covariance;
          idx_modes_sorted := idx_sorted_modes;
          norm1 := norm1;
          norm2 := norm2 |} |}.

(** [ComplexMCA.transform], [homogeneous_patterns], [heterogeneous_patterns] *)
Definition transform (self : ComplexMCA) (data1 data2 : AnyDataObject)
  : result (list (list (list Q))) :=
  Raise NotImplementedError.

Definition patterns : Type :=
  (list (list Q) * list (list Q)) * (list (list Q) * list (list Q)).

Definition homogeneous_patterns (self : ComplexMCA) (correction : option string)
    (alpha : Q) : result patterns :=
  Raise NotImplementedError.

Definition heterogeneous_patterns (self : ComplexMCA) (correction : option string)
    (alpha : Q) : result patterns :=
  Raise NotImplementedError.

End WithCollaborators.
End Mca.

(** ** Sample and feature dimensions ([get_dims], [_get_feature_dims]) *)

Module Dimensions.

(** A Python object as [get_dims] sees it: a [DataArray] or a [Dataset] with
    the dimension names it reports in [.dims], or an object of another type,
    one without an attribute [dims] (a number, a string, an [ndarray]). *)
Inductive Object : Type :=
| DataArray (dims : list string)
| Dataset (dims : list string)
| Other.

(** The argument [data]: one object, or a Python list of objects. *)
Inductive Data : Type :=
| Single (x : Object)
| DataList (items : list Object).

(** [data.dims]; reading the attribute where there is none raises. *)
Definition dims_of (x : Object) : result (list string) :=
  match x with
  | DataArray dims | Dataset dims => Ok dims
  | Other => Raise AttributeError
  end.

(** [_get_feature_dims]:
    [tuple(dim for dim in data.dims if dim not in sample_dims)] *)
Definition get_feature_dims (data : Object) (sample_dims : list string)
  : result (list string) :=
  let* dims := dims_of data in
  Ok (filter (fun dim => dim ∉ sample_dims) dims).

(** The second component of what [get_dims] returns: one tuple for an xarray
    object, a list of tuples for a list. *)
Inductive FeatureDims : Type :=
| One (feature_dims : list string)
| Many (feature_dims : list (list string)).

Section GetDims.
(** [ensure_tuple] of [xeofs.utils.sanity_checks] is outside the files at
    hand: it turns what the caller gave into a tuple of names, or raises. *)
Context {SampleDims : Type} (ensure_tuple : SampleDims -> result (list string)).

(** [get_dims] *)
Definition get_dims (data : Data) (sample_dims : SampleDims)
  : result (list string * FeatureDims) :=
  match data with
  | Single (DataArray _ as x) | Single (Dataset _ as x) =>
      let* sample_dims := ensure_tuple sample_dims in
      let* feature_dims := get_feature_dims x sample_dims in
      Ok (sample_dims, One feature_dims)
  | DataList items =>
      let* sample_dims := ensure_tuple sample_dims in
      let* feature_dims := traverse (fun da => get_feature_dims da sample_dims) items in
      Ok (sample_dims, Many feature_dims)
  | Single Other => Raise TypeError
  end.
End GetDims.

End Dimensions.

(** ** Total variance and latitude weights ([xeofs/utils/xarray_utils.py]) *)

(** [np.cos] and [np.deg2rad], rounded to a float. *)
Class Trigonometry : Type := {
  np_cos : Q -> Q;
  np_deg2rad : Q -> Q;
}.

Module Stats.

(** [a.sum(axis=0)] of a two-dimensional array given by its rows. *)
Definition sum_axis0 (a : list (list Q)) : list Q := Np.sum <$> Np.transpose a.

(** [_np_total_variance] on a real array of shape (sample, feature), where
    [conj] and [.real] change nothing:
    [C = (arr * arr.conj()).sum(axis=0) / (arr.shape[0] - 1)], then
    [C.sum().real]. *)
Definition np_total_variance (arr : list (list Q)) : Q :=
  let C := (fun s => s / inject_Z (Z.of_nat (length arr) - 1))%Q
             <$> sum_axis0 ((fun row : list Q => (fun x => x * x)%Q <$> row) <$> arr) in
  Np.sum C.

(** [total_variance]: [apply_ufunc] with the core dimensions
    [['sample', 'feature']] hands the kernel the entries in that order,
    however the array stores them; an array without them is a [ValueError]. *)
Definition total_variance (data : Xr.DataArray2 Q) : result Q :=
  let* arr := Xr.as_dims ("sample", "feature") data in
  Ok (np_total_variance arr).

(** [ndarray.clip(lo, hi)]: [minimum(maximum(x, lo), hi)] *)
Definition clip (lo hi x : Q) : Q :=
  let raised := if Qle_bool lo x then x else lo in
  if Qle_bool raised hi then raised else hi.

Section WithBackend.
Context `{NumericBackend} `{Trigonometry}.

(** [_np_sqrt_cos_lat_weights]:
    [np.sqrt(np.cos(np.deg2rad(data))).clip(0, 1)] *)
Definition np_sqrt_cos_lat_weights (data : list (list Q)) : list (list Q) :=
  (fun row : list Q => (fun lat => clip 0 1 (np_sqrt (np_cos (np_deg2rad lat)))) <$> row)
    <$> data.

(** [sqrt_cos_lat_weights]: [apply_ufunc] without core dimensions, the kernel
    runs entry by entry and the labels stay. *)
Definition sqrt_cos_lat_weights (data : Xr.DataArray2 Q) : Xr.DataArray2 Q :=
  {| Xr.dims := Xr.dims data; Xr.values := np_sqrt_cos_lat_weights (Xr.values data) |}.

End WithBackend.
End Stats.

(** ** Methods of the rotated EOF family found through the MRO *)

Module Methods.
Import Rotator Classes.
Section WithBackend.
Context `{NumericBackend}.

(** [EOFRotator.fit]: [return self._fit_algorithm(model)]; neither rotator
    class defines another [_fit_algorithm]. *)
Definition fit (self : Rotator) (model : EOFModel) : result Rotator :=
  fit_algorithm self model.

Definition fit_transform_method : Type := Rotator -> EOFModel -> result (list (list Q)).

(** [EOFRotator.fit_transform] *)
Definition fit_transform : fit_transform_method :=
  fun _ _ => Raise NotImplementedError.

(** The definitions of [fit_transform] in the four classes.  [EOF] and
    [ComplexEOF] are outside the files at hand: what they define, if
    anything, is an argument. *)
Definition defines_fit_transform (in_EOF in_ComplexEOF : option fit_transform_method)
    (c : Class) : option fit_transform_method :=
  match c with
  | EOF => in_EOF
  | ComplexEOF => in_ComplexEOF
  | EOFRotator => Some fit_transform
  | ComplexEOFRotator => None
  end.

(** [obj.fit_transform(model)] for an object of class [c]: the first
    definition along the MRO of [c]. *)
Definition call_fit_transform (in_EOF in_ComplexEOF : option fit_transform_method)
    (c : Class) : fit_transform_method :=
  fun self model =>
    match head (omap (defines_fit_transform in_EOF in_ComplexEOF) (mro c)) with
    | Some f => f self model
    | None => Raise AttributeError
    end.

End WithBackend.
End Methods.

(** ** Maximum covariance analysis of real fields ([MCA] in [xeofs/models/mca.py]) *)

Module RealMca.

(** What [CrossDecomposer.fit] leaves on the decomposer. *)
Record CrossDecomposition : Type := {
  singular_values_ : list Q;
  total_squared_covariance_ : Q;
  singular_vectors1_ : list (list Q);      (* mode-major, along feature *)
  singular_vectors2_ : list (list Q);
}.

(** The collaborators of the model, all outside the files at hand: the
    preprocessors, whose [fit_transform] fits the object and returns the sample
    x feature array and whose other methods read the fitted object, and the
    cross decomposer. *)
Class Collaborators (AnyDataObject Dims Weights Preprocessor ScoresObject : Type)
  : Type := {
  fit_transform :
    Preprocessor -> AnyDataObject -> Dims -> option Weights ->
    result (Preprocessor * Xr.DataArray2 Q);
  preprocessor_transform : Preprocessor -> AnyDataObject -> result (Xr.DataArray2 Q);
  inverse_transform_scores : Preprocessor -> list (list Q) -> result ScoresObject;
  inverse_transform_data : Preprocessor -> list (list Q) -> result AnyDataObject;
  cross_decomposer_fit :
    Z -> Xr.DataArray2 Q -> Xr.DataArray2 Q -> result CrossDecomposition;
}.

(** The keyword arguments of [MCADataContainer(...)]. *)
Record DataContainer : Type := {
  input_data1 : Xr.DataArray2 Q;
  input_data2 : Xr.DataArray2 Q;
  components1 : list (list Q);             (* mode-major, along feature *)
  components2 : list (list Q);
  scores1 : list (list Q);                 (* mode-major, along sample *)
  scores2 : list (list Q);
  squared_covariance : list Q;
  total_squared_covariance : Q;
  idx_modes_sorted : list nat;
  norm1 : list Q;
  norm2 : list Q;
}.

(** The argument [mode] of [inverse_transform]: a label, a slice of labels or
    an array of labels. *)
Inductive ModeSelection : Type :=
| Label (k : Z)
| Slice (lo hi : Z)
| Labels (ks : list Z).

(** [a.sel(mode=k)] for one label of the coordinate 1..n; a label that is not
    there is a [KeyError]. *)
Definition sel_label {A} (k : Z) (a : list A) : result A :=
  if decide (1 <= k)%Z then
    match a !! (Z.to_nat k - 1) with Some x => Ok x | None => Raise KeyError end
  else Raise KeyError.

(** [a.sel(mode=mode)]: the selected modes in the order asked for.  A single
    label drops the dimension, which the sum over modes below does not see. *)
Definition sel_mode {A} (mode : ModeSelection) (a : list A) : result (list A) :=
  match mode with
  | Label k => let* x := sel_label k a in Ok [x]
  | Slice lo hi => Ok (Xr.sel_mode_slice lo hi a)
  | Labels ks => traverse (fun k => sel_label k a) ks
  end.

(** [xr.dot(scores, weighted, dims='mode')] of scores (sample, mode) and
    weighted components (feature, mode): entry (s, f) is the sum over the
    selected modes.  A selection keeps the coordinates of the other dimension,
    so the result has [n_samples] rows of [n_features] entries also when no
    mode is selected. *)
Definition dot_mode (n_samples n_features : nat) (scores weighted : list (list Q))
  : list (list Q) :=
  (fun s =>
     (fun f => Np.sum (zip_with Qmult ((fun m => Np.key m s) <$> scores)
                                      ((fun m => Np.key m f) <$> weighted)))
       <$> seq 0 n_features)
    <$> seq 0 n_samples.

Section WithCollaborators.
Context `{NumericBackend}.
Context {AnyDataObject Dims Weights Preprocessor ScoresObject : Type}.
Context `{!Collaborators AnyDataObject Dims Weights Preprocessor ScoresObject}.

(** The model object; [data] is empty until [fit] has run. *)
Record MCA : Type := {
  n_modes : Z;
  preprocessor1 : Preprocessor;
  preprocessor2 : Preprocessor;
  data : option DataContainer;
}.

(** [self.data] of a fitted model.  What an unfitted model holds is for the
    base class, outside the files at hand, to say; reading a field of the
    container then is taken to raise [AttributeError]. *)
Definition container (self : MCA) : result DataContainer :=
  match data self with Some c => Ok c | None => Raise AttributeError end.

(** [xr.dot(data, vectors, dims='feature') / norm] in [fit] and
    [xr.dot(data, comps) / norm] in [transform]: the arrays share the feature
    dimension only, which is summed over. *)
Definition project (data_processed : Xr.DataArray2 Q) (vectors : list (list Q))
    (norm : list Q) : result (list (list Q)) :=
  let* rows := Xr.as_dims ("sample", "feature") data_processed in
  Ok (Xr.div_mode (Xr.dot_feature rows vectors) norm).

(** [MCA.fit] *)
Definition fit (self : MCA) (data1 data2 : AnyDataObject) (dim : Dims)
    (weights1 weights2 : option Weights) : result MCA :=
  let* (preprocessor1, data1_processed) :=
    fit_transform (preprocessor1 self) data1 dim weights1 in
  let* (preprocessor2, data2_processed) :=
    fit_transform (preprocessor2 self) data2 dim weights2 in
  let* decomposer := cross_decomposer_fit (n_modes self) data1_processed data2_processed in
  let singular_values := singular_values_ decomposer in
  let squared_covariance := (fun s => s ^ 2)%Q <$> singular_values in
  let total_squared_covariance := total_squared_covariance_ decomposer in
  let singular_vectors1 := singular_vectors1_ decomposer in
  let singular_vectors2 := singular_vectors2_ decomposer in
  let norm1 := np_sqrt <$> singular_values in
  let norm2 := np_sqrt <$> singular_values in
  (* Index of the sorted squared covariance *)
  let idx_sorted_modes := reverse (Np.argsort squared_covariance) in
  (* Project the data onto the singular vectors *)
  let* scores1 := project data1_processed singular_vectors1 norm1 in
  let* scores2 := project data2_processed singular_vectors2 norm2 in
  Ok {| n_modes := n_modes self;
        preprocessor1 := preprocessor1;
        preprocessor2 := preprocessor2;
        data := Some {|
          input_data1 := data1_processed;
          input_data2 := data2_processed;
          components1 := singular_vectors1;
          components2 := singular_vectors2;
          scores1 := scores1;
          scores2 := scores2;
          squared_covariance := squared_covariance;
          total_squared_covariance := total_squared_covariance;
          idx_modes_sorted := idx_sorted_modes;
          norm1 := norm1;
          norm2 := norm2 |} |}.

(** [MCA.transform]: its keyword arguments, the dictionary [kwargs]. *)
Definition transform (self : MCA) (kwargs : gmap string AnyDataObject)
  : result (list ScoresObject) :=
  let results := [] in
  let* results :=
    match kwargs !! "data1" with
    | Some data1 =>
        (* Preprocess input data *)
        let* data1 := preprocessor_transform (preprocessor1 self) data1 in
        (* Project data onto singular vectors *)
        let* c := container self in
        let* scores1 := project data1 (components1 c) (norm1 c) in
        (* Inverse transform scores *)
        let* scores1 := inverse_transform_scores (preprocessor1 self) scores1 in
        Ok (results ++ [scores1])
    | None => Ok results
    end in
  let* results :=
    match kwargs !! "data2" with
    | Some data2 =>
        let* data2 := preprocessor_transform (preprocessor2 self) data2 in
        let* c := container self in
        let* scores2 := project data2 (components2 c) (norm2 c) in
        let* scores2 := inverse_transform_scores (preprocessor2 self) scores2 in
        Ok (results ++ [scores2])
    | None => Ok results
    end in
  Ok results.

(** The arrays that [inverse_transform] hands to the preprocessors (its lines
    up to "Enforce real output"; [conj] and [.real] change nothing on real
    arrays). *)
Definition reconstruct (c : DataContainer) (mode : ModeSelection)
  : result (list (list Q) * list (list Q)) :=
  (* Singular vectors *)
  let* comps1 := sel_mode mode (components1 c) in
  let* comps2 := sel_mode mode (components2 c) in
  (* Scores = projections *)
  let* s1 := sel_mode mode (scores1 c) in
  let* s2 := sel_mode mode (scores2 c) in
  (* Norms *)
  let* n1 := sel_mode mode (norm1 c) in
  let* n2 := sel_mode mode (norm2 c) in
  (* Reconstruct the data *)
  let data1 :=
    dot_mode (length (Np.transpose (scores1 c))) (length (Np.transpose (components1 c)))
      s1 (Xr.mul_mode comps1 n1) in
  let data2 :=
    dot_mode (length (Np.transpose (scores2 c))) (length (Np.transpose (components2 c)))
      s2 (Xr.mul_mode comps2 n2) in
  Ok (data1, data2).

(** [MCA.inverse_transform] *)
Definition inverse_transform (self : MCA) (mode : ModeSelection)
  : result (AnyDataObject * AnyDataObject) :=
  let* c := container self in
  let* (data1, data2) := reconstruct c mode in
  (* Unstack and rescale the data *)
  let* data1 := inverse_transform_data (preprocessor1 self) data1 in
  let* data2 := inverse_transform_data (preprocessor2 self) data2 in
  Ok (data1, data2).

(** [MCA.squared_covariance] *)
Definition get_squared_covariance (self : MCA) : result (list Q) :=
  let* c := container self in Ok (squared_covariance c).

(** [MCA.scores] *)
Definition scores (self : MCA) : result (ScoresObject * ScoresObject) :=
  let* c := container self in
  let* scores1 := inverse_transform_scores (preprocessor1 self) (scores1 c) in
  let* scores2 := inverse_transform_scores (preprocessor2 self) (scores2 c) in
  Ok (scores1, scores2).

End WithCollaborators.
End RealMca.

(** ** A backend that computes

    Rational stand-ins for the kernels, to run the model on concrete inputs:
    the square root is exact on ratios of perfect squares and rounded down
    otherwise, the exponential is its cubic Taylor polynomial, the inverse is
    exact (adjugate over determinant), the analytic signal keeps the input as
    real part with no quadrature part (exact up to two samples), and the
    rotation engine stops before its first iteration: the identity rotation. *)

Module Reference.

Definition sqrt_floor (q : Q) : Q := Z.sqrt (Qnum q) # Pos.sqrt (Qden q).

Definition exp_cubic (x : Q) : Q := (1 + x + x * x / 2 + x * x * x / 6)%Q.

Definition minor (i j : nat) (m : list (list Q)) : list (list Q) :=
  (fun row => delete j row) <$> delete i m.

Definition alternate (k : nat) (x : Q) : Q := if Nat.even k then x else (- x)%Q.

Fixpoint det (size : nat) (m : list (list Q)) : Q :=
  match size with
  | O => 1%Q
  | S size' =>
      Np.sum (imap (fun j x => alternate j (x * det size' (minor 0 j m))%Q)
                   (default [] (head m)))
  end.

Definition is_square (m : list (list Q)) : bool :=
  forallb (fun row => Nat.eqb (length row) (length m)) m.

Definition inv_adjugate (m : list (list Q)) : result (list (list Q)) :=
  let n := length m in
  let d := det n m in
  if negb (is_square m) || Qeq_bool d 0 then Raise LinAlgError
  else Ok ((fun i => (fun j => (alternate (i + j) (det (n - 1) (minor j i m)) / d)%Q)
                       <$> seq 0 n) <$> seq 0 n).

Definition hilbert_real (y : list (list Q)) : result (list (list (Q * Q))) :=
  Ok ((fun row : list Q => (fun x => (x, 0%Q)) <$> row) <$> y).

Definition identity (n : nat) : Xr.DataArray2 Q :=
  {| Xr.dims := ("mode_m", "mode_n");
     Xr.values := (fun i => (fun j => if Nat.eqb i j then 1%Q else 0%Q) <$> seq 0 n)
                    <$> seq 0 n |}.

Definition promax_start (loadings : list (list Q)) (power max_iter : Z) (rtol : Q)
  : list (list Q) * Xr.DataArray2 Q * Xr.DataArray2 Q :=
  (loadings, identity (length loadings), identity (length loadings)).

#[export] Instance backend : NumericBackend := {|
  np_sqrt := sqrt_floor;
  np_power_half := sqrt_floor;
  np_exp := exp_cubic;
  linalg_inv := inv_adjugate;
  signal_hilbert := hilbert_real;
  promax := promax_start;
|}.

(** Collaborators of the MCA model: a preprocessor that remembers the weight
    it was fitted with and scales the data by it (no weight: 1), and a
    decomposer that hands back the first coordinate axis of each field with a
    unit singular value. *)
Definition scale_by_weight (pp : option Q) (x : Xr.DataArray2 Q) (dim : string)
    (weights : option Q) : result (option Q * Xr.DataArray2 Q) :=
  let w := default 1%Q weights in
  Ok (Some w, Xr.map_values (fun v => v * w)%Q x).

Definition first_axis (x : Xr.DataArray2 Mca.C) : list Mca.C :=
  (1, 0)%Q :: replicate (length (Xr.values x) - 1) (0, 0)%Q.

Definition decompose_axes (n : Z) (x1 x2 : Xr.DataArray2 Mca.C)
  : result Mca.CrossDecomposition :=
  Ok {| Mca.singular_values_ := [1%Q];
        Mca.total_squared_covariance_ := 1%Q;
        Mca.singular_vectors1_ := [first_axis x1];
        Mca.singular_vectors2_ := [first_axis x2] |}.

#[export] Instance collaborators
  : Mca.Collaborators (Xr.DataArray2 Q) string Q (option Q) := {|
  Mca.fit_transform := scale_by_weight;
  Mca.cross_decomposer_fit := decompose_axes;
|}.

End Reference.

(** ** Concrete inputs *)

Module Examples.
Import Rotator.

(** Three samples of two features, decomposed on the coordinate axes. *)
Definition model2 : EOFModel :=
  let x := [[1; 2]; [3; -4]; [0; 1]]%Q in
  let c := [[1; 0]; [0; 1]]%Q in
  {| m_input_data := x; m_components := c; m_scores := Xr.dot_feature x c;
     m_norms := [2; 1]%Q; m_explained_variance := [4; 1]%Q; m_total_variance := 5 |}.

Definition oblique2 : Rotator :=
  init {| n_modes := 2; power := 2; max_iter := 10; rtol := 1 # 100 |}.

(** The same rotator asked for three modes, one more than [model2] has. *)
Definition oblique3 : Rotator :=
  init {| n_modes := 3; power := 2; max_iter := 10; rtol := 1 # 100 |}.

Definition fitted2 : Rotator :=
  match fit_algorithm (H := Reference.backend) oblique2 model2 with
  | Ok fitted => fitted
  | Raise _ => oblique2
  end.

Definition rot2 : Xr.DataArray2 Q :=
  {| Xr.dims := ("mode_m", "mode_n"); Xr.values := [[2; 1]; [1; 1]]%Q |}.

(** Two fields of two samples and two features, and an unfitted complex MCA. *)
Definition field1 : Xr.DataArray2 Q :=
  {| Xr.dims := ("sample", "feature"); Xr.values := [[1; 2]; [3; 5]]%Q |}.
Definition field2 : Xr.DataArray2 Q :=
  {| Xr.dims := ("sample", "feature"); Xr.values := [[2; 0]; [1; 1]]%Q |}.

(** One series of three samples. *)
Definition series3 : list (list Q) := [[1]; [2]; [4]]%Q.

Definition cmca : Mca.ComplexMCA (Preprocessor := option Q) :=
  {| Mca.params := {| Mca.n_modes := 1; Mca.padding := Some "exp";
                      Mca.decay_factor := 1 # 5 |};
     Mca.preprocessor1 := None; Mca.preprocessor2 := None; Mca.data := None |}.

Definition cmca_fitted : Mca.ComplexMCA (Preprocessor := option Q) :=
  match Mca.fit (H := Reference.backend) (Collaborators0 := Reference.collaborators)
          cmca field1 field2 "time" (Some 3%Q) (Some 2%Q) with
  | Ok fitted => fitted
  | Raise _ => cmca
  end.

End Examples.

(** ** Vocabulary of the statements *)

(** Index [i] holds the maximum of [l], and no earlier index does. *)
Definition first_max (l : list Q) (i : nat) : Prop :=
  exists x, l !! i = Some x /\
    (forall y, y ∈ l -> (y <= x)%Q) /\
    (forall j y, j < i -> l !! j = Some y -> (y < x)%Q).

(** The sign of one mode, read off [Loadings.modes_sign]. *)
Definition sign_of_mode (col : list Q) : result Q :=
  let* i := Np.argmax (Qabs <$> col) in
  let* x := getitem col i in
  Ok (Np.sign x).

(** Every loading of the mode is zero. *)
Definition all_zero (col : list Q) : bool := forallb (fun y => Qeq_bool y 0) col.

(** The sign found on a mode that already carries its sign. *)
Definition resign (col : list Q) : Q := if all_zero col then 0%Q else 1%Q.

(** Orderings of mode indices by the keys [v]. *)
Definition stable_lt (v : list Q) (i j : nat) : Prop :=
  (Np.key v i < Np.key v j)%Q \/ ((Np.key v i == Np.key v j)%Q /\ i < j).

Definition sorted_descending (v : list Q) (p : list nat) : Prop :=
  forall a b i j, a < b -> p !! a = Some i -> p !! b = Some j ->
    (Np.key v j <= Np.key v i)%Q.

Definition ties_smaller_index_first (v : list Q) (p : list nat) : Prop :=
  forall a b i j, a < b -> p !! a = Some i -> p !! b = Some j ->
    (Np.key v i == Np.key v j)%Q -> i < j.

(** Entry [(i, j)] of a list of rows, and an [n] x [n] shape. *)
Definition entry {K} (m : list (list K)) (i j : nat) : option K :=
  match m !! i with Some row => row !! j | None => None end.

Definition square {K} (n : nat) (m : list (list K)) : Prop :=
  length m = n /\ Forall (fun row => length row = n) m.

(** [np.allclose]-style agreement within a relative tolerance. *)
Definition close (tol x y : Q) : Prop := (Qabs (x - y) <= tol * Qabs y)%Q.
Definition allclose (tol : Q) (a b : list (list Q)) : Prop :=
  Forall2 (Forall2 (close tol)) a b.

(** What the rotation engine returns for [loadings] is usable by the rest of
    [fit]: as many modes as it was given, each with at least one feature, and
    a rotation matrix over ([mode_m], [mode_n]) with one row and one column per
    mode, invertible when the rotation is oblique. *)
Definition well_shaped_rotation `{NumericBackend} (p : Rotator.Params)
    (loadings : list (list Q)) : Prop :=
  let '(rot_loadings, rot_matrix, _) :=
    promax loadings (Rotator.power p) (Rotator.max_iter p) (Rotator.rtol p) in
  length rot_loadings = length loadings /\
  Forall (fun col => col <> []) rot_loadings /\
  Xr.dims rot_matrix = ("mode_m", "mode_n") /\
  square (length rot_loadings) (Xr.values rot_matrix) /\
  ((Rotator.power p <= 1)%Z \/
   exists inverse, linalg_inv (Xr.values rot_matrix) = Ok inverse /\
                   square (length rot_loadings) inverse).

(** What [scipy.signal.hilbert] promises along axis 0: a non-empty real input
    gets an analytic signal of the same length. *)
Definition hilbert_contract `{NumericBackend} : Prop :=
  forall y : list (list Q), y <> [] ->
    exists h, signal_hilbert y = Ok h /\ length h = length y.

(** The projection into rotated space in the words of the specification:
    project the data onto the original components and normalise by the original
    singular values, multiply by the inverse transpose of the rotation matrix,
    apply the mode permutation, rescale by the per-mode norms, apply the sign
    vector. *)
Definition projection_chain `{NumericBackend} (p : Rotator.Params) (m : Rotator.EOFModel)
    (R : Xr.DataArray2 Q) (permutation : list nat) (norms signs : list Q)
    (x : list (list Q)) : result (list (list Q)) :=
  let n := Rotator.n_modes p in
  let unrotated :=
    Xr.div_mode (Xr.dot_feature x (Xr.sel_mode_slice 1 n (Rotator.m_components m)))
                (Xr.sel_mode_slice 1 n (Rotator.m_norms m)) in
  let* invT :=
    Rotator.compute_rot_mat_inv_trans (fun v => v) linalg_inv (Rotator.power p) R
      ("mode_m", "mode_n") in
  let* invT := Xr.rename "mode_n" "mode" invT in
  let* rotated := Xr.dot_mode_m unrotated invT in
  let* reordered := Xr.isel permutation rotated in
  Ok (Xr.mul_mode (Xr.mul_mode reordered norms) signs).

(** ** Further stand-ins and inputs

    A rotation engine that returns a matrix of zeros, which has no inverse; a
    cosine by its quadratic Taylor polynomial; and collaborators of the real
    MCA model: the preprocessor that scales by its weight, scores handed back
    as they are, and a decomposer that returns the two coordinate axes of a
    field of two features, with the singular values 4 and 1. *)

Module Standins.

Definition zeros (n : nat) : Xr.DataArray2 Q :=
  {| Xr.dims := ("mode_m", "mode_n"); Xr.values := replicate n (replicate n 0%Q) |}.

Definition promax_zeros (loadings : list (list Q)) (power max_iter : Z) (rtol : Q)
  : list (list Q) * Xr.DataArray2 Q * Xr.DataArray2 Q :=
  (loadings, zeros (length loadings), zeros (length loadings)).

Definition singular_backend : NumericBackend := {|
  np_sqrt := Reference.sqrt_floor;
  np_power_half := Reference.sqrt_floor;
  np_exp := Reference.exp_cubic;
  linalg_inv := Reference.inv_adjugate;
  signal_hilbert := Reference.hilbert_real;
  promax := promax_zeros;
|}.

(** An analytic signal that refuses an array of no sample, as
    [scipy.signal.hilbert] does ("N must be positive"). *)
Definition hilbert_checked (y : list (list Q)) : result (list (list (Q * Q))) :=
  match y with
  | [] => Raise ValueError
  | _ => Reference.hilbert_real y
  end.

Definition checking_backend : NumericBackend := {|
  np_sqrt := Reference.sqrt_floor;
  np_power_half := Reference.sqrt_floor;
  np_exp := Reference.exp_cubic;
  linalg_inv := Reference.inv_adjugate;
  signal_hilbert := hilbert_checked;
  promax := Reference.promax_start;
|}.

Definition trigonometry : Trigonometry := {|
  np_cos := fun x => (1 - x * x / 2)%Q;
  np_deg2rad := fun x => (x * (355 # 113) / 180)%Q;
|}.

Definition apply_weight (pp : option Q) (x : Xr.DataArray2 Q)
  : result (Xr.DataArray2 Q) :=
  Ok (Xr.map_values (fun v => v * default 1 pp)%Q x).

Definition keep_scores (pp : option Q) (s : list (list Q)) : result (list (list Q)) :=
  Ok s.

Definition remove_weight (pp : option Q) (d : list (list Q))
  : result (Xr.DataArray2 Q) :=
  Ok {| Xr.dims := ("sample", "feature");
        Xr.values := (fun row : list Q => (fun v => v / default 1 pp)%Q <$> row) <$> d |}.

Definition two_axes (n : Z) (x1 x2 : Xr.DataArray2 Q)
  : result RealMca.CrossDecomposition :=
  Ok {| RealMca.singular_values_ := [4; 1]%Q;
        RealMca.total_squared_covariance_ := 17%Q;
        RealMca.singular_vectors1_ := [[1; 0]; [0; 1]]%Q;
        RealMca.singular_vectors2_ := [[1; 0]; [0; 1]]%Q |}.

Definition collaborators
  : RealMca.Collaborators (Xr.DataArray2 Q) string Q (option Q) (list (list Q)) := {|
  RealMca.fit_transform := Reference.scale_by_weight;
  RealMca.preprocessor_transform := apply_weight;
  RealMca.inverse_transform_scores := keep_scores;
  RealMca.inverse_transform_data := remove_weight;
  RealMca.cross_decomposer_fit := two_axes;
|}.

(** An unfitted MCA of two modes, and the model fitted on the two fields of
    [Examples] with the weights 3 and 2. *)
Definition mca : RealMca.MCA (Preprocessor := option Q) :=
  {| RealMca.n_modes := 2; RealMca.preprocessor1 := None;
     RealMca.preprocessor2 := None; RealMca.data := None |}.

Definition mca_fitted : RealMca.MCA (Preprocessor := option Q) :=
  match RealMca.fit (H := Reference.backend) (Collaborators0 := collaborators)
          mca Examples.field1 Examples.field2 "time" (Some 3%Q) (Some 2%Q) with
  | Ok fitted => fitted
  | Raise _ => mca
  end.

(** A decomposer of complex fields of two features that returns the two
    coordinate axes, with the singular values 4 and 1, and a complex MCA of
    two modes fitted with it on the two fields of [Examples]. *)
Definition two_axes_complex (n : Z) (x1 x2 : Xr.DataArray2 Mca.C)
  : result Mca.CrossDecomposition :=
  Ok {| Mca.singular_values_ := [4; 1]%Q;
        Mca.total_squared_covariance_ := 17%Q;
        Mca.singular_vectors1_ := [[(1, 0); (0, 0)]; [(0, 0); (1, 0)]]%Q;
        Mca.singular_vectors2_ := [[(1, 0); (0, 0)]; [(0, 0); (1, 0)]]%Q |}.

Definition complex_collaborators
  : Mca.Collaborators (Xr.DataArray2 Q) string Q (option Q) := {|
  Mca.fit_transform := Reference.scale_by_weight;
  Mca.cross_decomposer_fit := two_axes_complex;
|}.

Definition cmca2 : Mca.ComplexMCA (Preprocessor := option Q) :=
  {| Mca.params := {| Mca.n_modes := 2; Mca.padding := Some "exp";
                      Mca.decay_factor := 1 # 5 |};
     Mca.preprocessor1 := None; Mca.preprocessor2 := None; Mca.data := None |}.

Definition cmca2_fitted : Mca.ComplexMCA (Preprocessor := option Q) :=
  match Mca.fit (H := Reference.backend) (Collaborators0 := complex_collaborators)
          cmca2 Examples.field1 Examples.field2 "time" (Some 3%Q) (Some 2%Q) with
  | Ok fitted => fitted
  | Raise _ => cmca2
  end.

(** Three samples of three features, decomposed on the coordinate axes: one
    mode more than the rotator [Examples.oblique2] asks for. *)
Definition model3 : Rotator.EOFModel :=
  let x := [[1; 2; 0]; [3; -4; 1]; [0; 1; 2]]%Q in
  let c := [[1; 0; 0]; [0; 1; 0]; [0; 0; 1]]%Q in
  {| Rotator.m_input_data := x; Rotator.m_components := c;
     Rotator.m_scores := Xr.dot_feature x c;
     Rotator.m_norms := [3; 2; 1]%Q; Rotator.m_explained_variance := [9; 4; 1]%Q;
     Rotator.m_total_variance := 14 |}.

(** Latitudes on a grid of two by two. *)
Definition latitudes : Xr.DataArray2 Q :=
  {| Xr.dims := ("lat", "lon"); Xr.values := [[0; 0]; [60; 60]]%Q |}.

End Standins.

(** ** Further vocabulary *)

(** Keys that fall strictly along the index. *)
Definition strictly_decreasing (v : list Q) : Prop :=
  forall i j x y, i < j -> v !! i = Some x -> v !! j = Some y -> (y < x)%Q.

(** The singular vectors are an orthonormal basis of the feature space: as
    many modes as features, and the products of the components at two features,
    summed over the modes, are 1 for the same feature and 0 otherwise. *)
Definition complete_orthonormal (V : list (list Q)) (F : nat) : Prop :=
  length V = F /\ Forall (fun v => length v = F) V /\
  forall f f', f < F -> f' < F ->
    (Np.sum ((fun v => Np.key v f' * Np.key v f) <$> V)
     == if decide (f' = f) then 1 else 0)%Q.

(* ===================================================================== *)
(** * Part II. Properties *)
(* ===================================================================== *)

(** ** Generic facts: the error monad and exact rational arithmetic *)

Section Traverse.
Context {A B : Type} (f : A -> result B).

Lemma traverse_Ok_Forall2 l ys :
  traverse f l = Ok ys <-> Forall2 (fun x y => f x = Ok y) l ys.
Proof.
  revert ys; induction l as [|x l IH]; intros ys; simpl.
  - split; [intros [= <-]; constructor | inversion 1; reflexivity].
  - destruct (f x) as [y|e] eqn:Hx; simpl.
    + destruct (traverse f l) as [ys'|e] eqn:Hl; simpl.
      * split.
        -- intros [= <-]. constructor; [assumption | by apply IH].
        -- inversion 1 as [|? y' ? ys'' Hy Hrest]; subst.
           rewrite Hx in Hy. injection Hy as <-.
           apply IH in Hrest. by injection Hrest as <-.
      * split; [discriminate |].
        inversion 1 as [|? y' ? ys'' Hy Hrest]; subst.
        apply IH in Hrest. discriminate.
    + split; [discriminate |].
      inversion 1 as [|? y' ? ys'' Hy Hrest]; subst. congruence.
Qed.

Lemma traverse_total l :
  Forall (fun x => exists y, f x = Ok y) l -> exists ys, traverse f l = Ok ys.
Proof.
  induction 1 as [|x l [y Hy] _ [ys Hys]]; simpl; [by eexists |].
  rewrite Hy, Hys. by eexists.
Qed.

Lemma traverse_length l ys : traverse f l = Ok ys -> length ys = length l.
Proof.
  rewrite traverse_Ok_Forall2. intros H. symmetry. by eapply Forall2_length.
Qed.
End Traverse.

Lemma traverse_ext {A B} (f g : A -> result B) l :
  Forall (fun x => f x = g x) l -> traverse f l = traverse g l.
Proof.
  induction 1 as [|x l Hx _ IH]; simpl; [reflexivity |]. by rewrite Hx, IH.
Qed.

Lemma getitem_Ok {A} (xs : list A) i x : getitem xs i = Ok x <-> xs !! i = Some x.
Proof. unfold getitem. destruct (xs !! i); split; congruence. Qed.

Section QFacts.
Local Open Scope Q_scope.

Lemma Qmult_one_r (x : Q) : x * 1 = x.
Proof.
  destruct x as [n d]. unfold Qmult; simpl.
  by rewrite Z.mul_1_r, Pos.mul_1_r.
Qed.

Lemma Qabs_mult_minus_one (x : Q) : Qabs (x * -1) = Qabs x.
Proof.
  destruct x as [n d]. unfold Qmult, Qabs; simpl.
  rewrite Pos.mul_1_r. f_equal. lia.
Qed.

Lemma Qmult_zero_r (x : Q) : x * 0 = 0 # Qden x.
Proof.
  destruct x as [n d]. unfold Qmult; simpl.
  by rewrite Z.mul_0_r, Pos.mul_1_r.
Qed.

Lemma sign_cases (x : Q) :
  (x < 0 /\ Np.sign x = -1) \/ (x == 0 /\ Np.sign x = 0) \/ (0 < x /\ Np.sign x = 1).
Proof.
  unfold Np.sign. destruct (x ?= 0) eqn:Hc.
  - right; left. split; [by apply Qeq_alt | reflexivity].
  - left. split; [by apply Qlt_alt | reflexivity].
  - right; right. split; [by apply Qgt_alt in Hc | reflexivity].
Qed.

Lemma sign_zero_iff (x : Q) : Np.sign x = 0 <-> x == 0.
Proof.
  destruct (sign_cases x) as [[H ->]|[[H ->]|[H ->]]]; split; try done.
  - intros E. rewrite E in H. by apply Qlt_irrefl in H.
  - intros E. rewrite E in H. by apply Qlt_irrefl in H.
Qed.

Lemma sign_flip_negative (x : Q) : x < 0 -> Np.sign (x * -1) = 1.
Proof.
  intros Hx. destruct (sign_cases (x * -1)) as [[H _]|[[H _]|[_ H]]]; [lra.. | exact H].
Qed.

Lemma sign_negative_inv (x : Q) : Np.sign x = -1 -> x < 0.
Proof.
  intros E. destruct (sign_cases x) as [[H _]|[[_ H]|[_ H]]]; [exact H | congruence..].
Qed.

Lemma Qabs_zero_iff (x : Q) : Qabs x == 0 <-> x == 0.
Proof.
  split; intros H.
  - revert H. apply Qabs_case; intros Hx E; [assumption |].
    rewrite <- (Qopp_involutive x), E. reflexivity.
  - rewrite H. reflexivity.
Qed.
End QFacts.

(** ** [argmax] returns the first maximal index *)

Section Argmax.
Local Open Scope Q_scope.

Lemma argmax_from_spec l : forall pre best besti,
  pre !! besti = Some best ->
  (forall y, y ∈ pre -> y <= best) ->
  (forall j y, (j < besti)%nat -> pre !! j = Some y -> y < best) ->
  first_max (pre ++ l) (Np.argmax_from best besti (length pre) l).
Proof.
  induction l as [|x l IH]; intros pre best besti Hb Hmax Hfirst; simpl.
  - rewrite app_nil_r. by exists best.
  - assert (Hlt : (besti < length pre)%nat) by by eapply lookup_lt_Some.
    assert (Hshape : pre ++ x :: l = (pre ++ [x]) ++ l) by by rewrite <- app_assoc.
    assert (Hlen : S (length pre) = length (pre ++ [x])).
    { rewrite length_app; simpl; lia. }
    rewrite Hshape, Hlen.
    destruct (best ?= x) eqn:Hc.
    + apply Qeq_alt in Hc. apply IH.
      * by rewrite lookup_app_l.
      * intros y [Hy|Hy]%elem_of_app; [by apply Hmax |].
        apply list_elem_of_singleton in Hy as ->. rewrite Hc. apply Qle_refl.
      * intros j y Hj. rewrite lookup_app_l by lia. by apply Hfirst.
    + apply Qlt_alt in Hc. apply IH.
      * rewrite lookup_app_r by lia. by rewrite Nat.sub_diag.
      * intros y [Hy|Hy]%elem_of_app.
        -- apply Qlt_le_weak. eapply Qle_lt_trans; [by apply Hmax | done].
        -- apply list_elem_of_singleton in Hy as ->. apply Qle_refl.
      * intros j y Hj Hy. rewrite lookup_app_l in Hy by lia.
        eapply Qle_lt_trans; [| exact Hc]. apply Hmax.
        apply list_elem_of_lookup. eauto.
    + apply Qgt_alt in Hc. apply IH.
      * by rewrite lookup_app_l.
      * intros y [Hy|Hy]%elem_of_app; [by apply Hmax |].
        apply list_elem_of_singleton in Hy as ->. by apply Qlt_le_weak.
      * intros j y Hj. rewrite lookup_app_l by lia. by apply Hfirst.
Qed.

Lemma argmax_spec l : l <> [] -> exists i, Np.argmax l = Ok i /\ first_max l i.
Proof.
  destruct l as [|x l]; [done | intros _]. eexists; split; [reflexivity |].
  apply (argmax_from_spec l [x] x 0%nat); [done | |].
  - intros y ->%list_elem_of_singleton. apply Qle_refl.
  - intros j y Hj. lia.
Qed.

Lemma argmax_empty : Np.argmax [] = Raise ValueError.
Proof. reflexivity. Qed.
End Argmax.

(** ** The sign vector, mode by mode *)

Section SignVector.
Local Open Scope Q_scope.

Lemma argmax_getitem (col : list Q) i :
  Np.argmax (Qabs <$> col) = Ok i -> exists x, getitem col i = Ok x.
Proof.
  intros Hi. destruct col as [|c col]; [discriminate |].
  destruct (argmax_spec (Qabs <$> c :: col)) as (i' & Hi' & a & Ha & _); [done |].
  rewrite Hi in Hi'. injection Hi' as <-.
  apply list_lookup_fmap_Some in Ha as (x & _ & Hx).
  exists x. by apply getitem_Ok.
Qed.

Lemma modes_sign_traverse (L : list (list Q)) :
  Loadings.modes_sign L = traverse sign_of_mode L.
Proof.
  unfold Loadings.modes_sign, Loadings.idx_max_value, Xr.isel_pointwise.
  induction L as [|col L IH]; [reflexivity |]. simpl.
  unfold sign_of_mode at 1.
  destruct (Np.argmax (Qabs <$> col)) as [i|e] eqn:Hi; simpl; [| reflexivity].
  destruct (argmax_getitem _ _ Hi) as [x Hx].
  destruct (traverse _ L) as [idx|e] eqn:Hidx; simpl in *; rewrite Hx; simpl.
  - rewrite <- IH. by destruct (traverse _ (zip L idx)).
  - by rewrite <- IH.
Qed.

Lemma sign_of_mode_spec (col : list Q) :
  col <> [] ->
  exists i x, first_max (Qabs <$> col) i /\ col !! i = Some x /\
              sign_of_mode col = Ok (Np.sign x).
Proof.
  intros Hne. destruct (argmax_spec (Qabs <$> col)) as (i & Hi & Hmax).
  { by destruct col. }
  pose proof Hmax as (a & Ha & _).
  apply list_lookup_fmap_Some in Ha as (x & -> & Hx).
  exists i, x. split_and!; [done..|].
  unfold sign_of_mode. rewrite Hi; simpl.
  apply getitem_Ok in Hx. by rewrite Hx.
Qed.

Lemma all_zero_spec (col : list Q) : all_zero col = true <-> forall y, y ∈ col -> y == 0.
Proof.
  unfold all_zero. rewrite forallb_forall. setoid_rewrite Qeq_bool_iff.
  setoid_rewrite <- list_elem_of_In. reflexivity.
Qed.

(** The loading of largest magnitude vanishes exactly when the whole mode does. *)
Lemma max_zero_all_zero (col : list Q) i x :
  first_max (Qabs <$> col) i -> col !! i = Some x ->
  (x == 0 <-> all_zero col = true).
Proof.
  intros (a & Ha & Hmax & _) Hx. rewrite all_zero_spec.
  rewrite list_lookup_fmap, Hx in Ha. injection Ha as <-.
  split.
  - intros Hz y Hy. apply Qabs_zero_iff.
    apply Qle_antisym; [| apply Qabs_nonneg].
    rewrite <- (proj2 (Qabs_zero_iff x) Hz). apply Hmax.
    by apply list_elem_of_fmap_2.
  - intros Hall. apply Hall. apply list_elem_of_lookup. eauto.
Qed.
Lemma modes_sign_total (L : list (list Q)) :
  Forall (fun col => col <> []) L ->
  exists signs, traverse sign_of_mode L = Ok signs.
Proof.
  intros Hne. apply traverse_total.
  eapply Forall_impl; [exact Hne |]. intros col Hcol; simpl.
  destruct (sign_of_mode_spec col Hcol) as (i & x & _ & _ & Hx). eauto.
Qed.
End SignVector.

Section SignIdempotence.
Local Open Scope Q_scope.

Lemma fmap_id_ext {A} (f : A -> A) (l : list A) : (forall x, f x = x) -> f <$> l = l.
Proof. intros Hf. induction l as [|x l IH]; [done |]. by rewrite fmap_cons, Hf, IH. Qed.

Lemma sign_of_mode_Ok_inv (col : list Q) s :
  sign_of_mode col = Ok s ->
  exists i x, first_max (Qabs <$> col) i /\ col !! i = Some x /\ s = Np.sign x.
Proof.
  intros Hs. destruct col as [|c col]; [discriminate |].
  destruct (sign_of_mode_spec (c :: col)) as (i & x & Hmax & Hx & Hsx); [done |].
  exists i, x. split_and!; [done..|congruence].
Qed.

Lemma sign_of_mode_scaled (col : list Q) s :
  sign_of_mode col = Ok s ->
  sign_of_mode ((fun x => x * s) <$> col) = Ok (resign col) /\
  forall v : list Q,
    (fun x => x * resign col) <$> ((fun x => x * s) <$> v) = (fun x => x * s) <$> v.
Proof.
  intros Hs. pose proof Hs as (i & x & Hmax & Hx & ->)%sign_of_mode_Ok_inv.
  pose proof (max_zero_all_zero col i x Hmax Hx) as Hz.
  unfold resign.
  destruct (sign_cases x) as [[Hneg Hsx]|[[Hzero Hsx]|[Hpos Hsx]]]; rewrite Hsx in *.
  - (* the dominant loading is negative: the mode is flipped *)
    destruct (all_zero col).
    { rewrite (proj2 Hz eq_refl) in Hneg. by apply Qlt_irrefl in Hneg. }
    split.
    + unfold sign_of_mode in *.
      rewrite <- list_fmap_compose.
      rewrite (list_fmap_ext (Qabs ∘ (fun x => x * -1)) Qabs col)
        by (intros; simpl; apply Qabs_mult_minus_one).
      destruct (Np.argmax (Qabs <$> col)) as [i'|]; [simpl in * | discriminate].
      destruct (getitem col i') as [x'|] eqn:Hx'; [simpl in * | discriminate].
      apply getitem_Ok in Hx'.
      assert (Hg : getitem ((fun x => x * -1) <$> col) i' = Ok (x' * -1)).
      { apply getitem_Ok. by rewrite list_lookup_fmap, Hx'. }
      rewrite Hg; simpl. f_equal.
      injection Hs as Hs. by apply sign_flip_negative, sign_negative_inv.
    + intros v. apply fmap_id_ext. intros y. apply Qmult_one_r.
  - (* the whole mode vanishes: sign 0 *)
    destruct (all_zero col); [| by pose proof (proj1 Hz Hzero)].
    split.
    + destruct (sign_of_mode_spec ((fun x => x * 0) <$> col)) as (j & y & _ & Hy & ->).
      { intros E. apply fmap_nil_inv in E. by subst. }
      f_equal. apply sign_zero_iff.
      apply list_lookup_fmap_Some in Hy as (y0 & -> & _). ring.
    + intros v. rewrite <- list_fmap_compose. apply list_fmap_ext. intros _ y _; simpl.
      by rewrite !Qmult_zero_r.
  - (* the dominant loading is positive: nothing changes *)
    destruct (all_zero col).
    { rewrite (proj2 Hz eq_refl) in Hpos. by apply Qlt_irrefl in Hpos. }
    rewrite (fmap_id_ext (fun x => x * 1) col) by (intros; apply Qmult_one_r).
    split; [done |]. intros v. apply fmap_id_ext. intros; apply Qmult_one_r.
Qed.

Lemma modes_sign_scaled (L : list (list Q)) (s : list Q) :
  Forall2 (fun col e => sign_of_mode col = Ok e) L s ->
  traverse sign_of_mode (Xr.mul_mode L s) = Ok (resign <$> L) /\
  forall a : list (list Q),
    Xr.mul_mode (Xr.mul_mode a s) (resign <$> L) = Xr.mul_mode a s.
Proof.
  unfold Xr.mul_mode.
  induction 1 as [|col e L s He _ [IH1 IH2]]; [split; [done | by intros []] |].
  destruct (sign_of_mode_scaled col e He) as [Hsign Hagain]. split.
  - csimpl. rewrite Hsign. csimpl. by rewrite IH1.
  - intros [|v a]; [done |]. csimpl. by rewrite Hagain, IH2.
Qed.
End SignIdempotence.

(** ** [argsort] returns an ascending permutation *)

Section Argsort.
Local Open Scope Q_scope.
Variable v : list Q.

Lemma stable_lt_key_le i j : stable_lt v i j -> Np.key v i <= Np.key v j.
Proof. intros [H|[H _]]; [by apply Qlt_le_weak | rewrite H; apply Qle_refl]. Qed.

Lemma insert_index_perm i l : Np.insert_index v i l ≡ₚ i :: l.
Proof.
  induction l as [|j l IH]; simpl; [done |].
  destruct (Np.key v i ?= Np.key v j); [| done |]; by rewrite IH, Permutation_swap.
Qed.

Lemma insert_index_sorted i l :
  StronglySorted (stable_lt v) l -> Forall (fun j => (j < i)%nat) l ->
  StronglySorted (stable_lt v) (Np.insert_index v i l).
Proof.
  induction 1 as [|j l Hl IH Hj]; intros Hlt; simpl.
  - repeat constructor.
  - apply Forall_cons in Hlt as [Hji Hlt].
    assert (Hkeep : Np.key v j <= Np.key v i ->
              StronglySorted (stable_lt v) (j :: Np.insert_index v i l)).
    { intros Hle. constructor; [by apply IH |].
      rewrite insert_index_perm. constructor; [| done].
      destruct (Qle_lt_or_eq _ _ Hle) as [H|H]; [by left | by right]. }
    destruct (Np.key v i ?= Np.key v j) eqn:Hc.
    + apply Qeq_alt in Hc. apply Hkeep. rewrite Hc. apply Qle_refl.
    + apply Qlt_alt in Hc. constructor; [by constructor |].
      constructor; [by left |].
      eapply Forall_impl; [exact Hj |]. intros r Hr; simpl in Hr. left.
      eapply Qlt_le_trans; [exact Hc | by apply stable_lt_key_le].
    + apply Qgt_alt in Hc. apply Hkeep. by apply Qlt_le_weak.
Qed.

Lemma argsort_loop n : forall start acc,
  StronglySorted (stable_lt v) acc -> acc ≡ₚ seq 0 start ->
  let r := fold_left (fun acc i => Np.insert_index v i acc) (seq start n) acc in
  StronglySorted (stable_lt v) r /\ r ≡ₚ seq 0 (start + n).
Proof.
  induction n as [|n IH]; intros start acc Hs Hp; simpl.
  - by rewrite Nat.add_0_r.
  - replace (start + S n)%nat with (S start + n)%nat by lia. apply IH.
    + apply insert_index_sorted; [done |].
      rewrite Hp. apply Forall_forall. intros j Hj%elem_of_seq. lia.
    + rewrite insert_index_perm, Hp, seq_S. simpl.
      by rewrite Permutation_cons_append.
Qed.

Lemma argsort_sorted : StronglySorted (stable_lt v) (Np.argsort v).
Proof. apply (argsort_loop (length v) 0%nat []); [constructor | done]. Qed.

Lemma argsort_perm : Np.argsort v ≡ₚ seq 0 (length v).
Proof. apply (argsort_loop (length v) 0%nat []); [constructor | done]. Qed.
End Argsort.

Lemma StronglySorted_lookup {A} (R : relation A) (l : list A) a b x y :
  StronglySorted R l -> a < b -> l !! a = Some x -> l !! b = Some y -> R x y.
Proof.
  intros Hs. revert a b. induction Hs as [|z l Hl IH Hz]; intros a b Hab Ha Hb; [done |].
  destruct b as [|b]; [lia |]. destruct a as [|a]; simpl in *.
  - injection Ha as <-. eapply Forall_forall; [exact Hz |].
    apply list_elem_of_lookup. eauto.
  - apply (IH a b); [lia | done..].
Qed.

Section Reorder.
Local Open Scope Q_scope.
Variable v : list Q.

Lemma idx_sort_perm : Loadings.idx_sort v ≡ₚ seq 0 (length v).
Proof. unfold Loadings.idx_sort. by rewrite reverse_Permutation, argsort_perm. Qed.

Lemma idx_sort_pair a b i j :
  (a < b)%nat -> Loadings.idx_sort v !! a = Some i -> Loadings.idx_sort v !! b = Some j ->
  stable_lt v j i.
Proof.
  unfold Loadings.idx_sort. intros Hab Ha Hb.
  pose proof (lookup_lt_Some _ _ _ Ha) as Hla.
  pose proof (lookup_lt_Some _ _ _ Hb) as Hlb.
  rewrite length_reverse in Hla, Hlb.
  rewrite reverse_lookup in Ha, Hb by done.
  eapply (StronglySorted_lookup _ _ _ _ _ _ (argsort_sorted v)); [| exact Hb | exact Ha].
  lia.
Qed.

Lemma idx_sort_descending : sorted_descending v (Loadings.idx_sort v).
Proof. intros a b i j Hab Ha Hb. eapply stable_lt_key_le, idx_sort_pair; eauto. Qed.

Lemma sorted_descending_strict (p : list nat) a b i j :
  sorted_descending v p -> p !! a = Some i -> p !! b = Some j ->
  Np.key v j < Np.key v i -> (a < b)%nat.
Proof.
  intros Hp Ha Hb Hlt.
  destruct (decide (a < b)%nat) as [|Hge]; [done | exfalso].
  destruct (decide (a = b)) as [->|Hne].
  - rewrite Ha in Hb. injection Hb as ->. by apply Qlt_irrefl in Hlt.
  - assert (Hba : (b < a)%nat) by lia.
    pose proof (Hp b a j i Hba Hb Ha) as Hle.
    by apply Qle_not_lt in Hle.
Qed.
End Reorder.

(** ** Label slices along [mode] *)

Section SelModeSlice.
Context {A : Type}.

Lemma filter_labels_fmap {B} (f : A -> B) (lo hi : Z) (cs : list Z) (a : list A) :
  snd <$> filter (fun p : Z * B => (lo <= p.1)%Z /\ (p.1 <= hi)%Z) (zip cs (f <$> a))
  = f <$> (snd <$> filter (fun p : Z * A => (lo <= p.1)%Z /\ (p.1 <= hi)%Z) (zip cs a)).
Proof.
  revert a. induction cs as [|c cs IH]; intros [|x a]; try reflexivity.
  csimpl. rewrite !filter_cons; simpl.
  destruct (decide _); csimpl; by rewrite IH.
Qed.

Lemma filter_labels_take (hi : Z) (a : list A) : forall s : nat,
  1 <= s ->
  snd <$> filter (fun p : Z * A => (1 <= p.1)%Z /\ (p.1 <= hi)%Z)
                 (zip (Z.of_nat <$> seq s (length a)) a)
  = take (Z.to_nat hi + 1 - s) a.
Proof.
  induction a as [|x a IH]; intros s Hs; [by rewrite take_nil |].
  csimpl. rewrite filter_cons; simpl.
  destruct (decide _) as [[_ Hle]|Hn]; csimpl; rewrite (IH (S s)) by lia.
  - replace (Z.to_nat hi + 1 - s) with (S (Z.to_nat hi + 1 - S s)) by lia. done.
  - replace (Z.to_nat hi + 1 - s) with 0 by lia.
    by replace (Z.to_nat hi + 1 - S s) with 0 by lia.
Qed.

(** On the labels 1..n a slice from label 1 keeps a prefix. *)
Lemma sel_mode_slice_take (hi : Z) (a : list A) :
  Xr.sel_mode_slice 1 hi a = take (Z.to_nat hi) a.
Proof.
  unfold Xr.sel_mode_slice, Xr.mode_coords.
  rewrite (filter_labels_take hi a 1) by lia. f_equal. lia.
Qed.

Lemma sel_mode_slice_all (hi : Z) (a : list A) :
  (Z.of_nat (length a) <= hi)%Z -> Xr.sel_mode_slice 1 hi a = a.
Proof. intros Hhi. rewrite sel_mode_slice_take. apply take_ge. lia. Qed.
End SelModeSlice.

Lemma sel_mode_slice_fmap {A B} (f : A -> B) (lo hi : Z) (a : list A) :
  Xr.sel_mode_slice lo hi (f <$> a) = f <$> Xr.sel_mode_slice lo hi a.
Proof.
  unfold Xr.sel_mode_slice, Xr.mode_coords. rewrite length_fmap.
  apply filter_labels_fmap.
Qed.

(** ** The inverse transpose of the rotation matrix *)

Section RotMatInvTransFacts.
Context {K : Type} (conj : K -> K) (inv : list (list K) -> result (list (list K))).

Lemma compute_rot_mat_inv_trans_orthogonal power (R : Xr.DataArray2 K) d :
  (power <= 1)%Z -> Rotator.compute_rot_mat_inv_trans conj inv power R d = Ok R.
Proof. intros Hp. unfold Rotator.compute_rot_mat_inv_trans. by rewrite decide_False by lia. Qed.

Lemma compute_rot_mat_inv_trans_oblique power (R : Xr.DataArray2 K) d M M' :
  (power > 1)%Z -> d.1 <> d.2 ->
  Xr.as_dims d R = Ok M -> inv M = Ok M' ->
  Rotator.compute_rot_mat_inv_trans conj inv power R d
  = Ok {| Xr.dims := d;
          Xr.values := Np.transpose ((fun row : list K => conj <$> row) <$> M') |}.
Proof.
  intros Hp Hd HM HM'. unfold Rotator.compute_rot_mat_inv_trans.
  rewrite decide_True by done.
  unfold Xr.apply_ufunc_core2. rewrite HM; simpl. rewrite HM'; simpl.
  unfold Xr.transpose_dims, Xr.as_dims; simpl.
  rewrite decide_False.
  - rewrite decide_True; [done |]. by destruct d.
  - destruct d as [d1 d2]; simpl in *. congruence.
Qed.
End RotMatInvTransFacts.

(** ** [ndarray.T] on rectangular arrays *)

Section Transpose.
Context {K : Type}.

Lemma omap_lookup_total {B} (f : list K -> option B) (rows : list (list K)) i :
  Forall (fun r => is_Some (f r)) rows ->
  omap f rows !! i = match rows !! i with Some r => f r | None => None end.
Proof.
  intros Hall. revert i. induction Hall as [|r rows [b Hb] _ IH]; intros i; [done |].
  csimpl. rewrite Hb. destruct i as [|i]; simpl; [done | apply IH].
Qed.

Lemma transpose_entry (rows : list (list K)) c i j :
  Forall (fun r => length r = c) rows -> i < length rows -> j < c ->
  entry (Np.transpose rows) j i = entry rows i j.
Proof.
  intros Hrect Hi Hj. unfold entry, Np.transpose.
  assert (Hw : length (default [] (head rows)) = c).
  { destruct rows as [|r0 rows]; [simpl in Hi; lia |]. by apply Forall_inv in Hrect. }
  rewrite Hw, list_lookup_fmap, lookup_seq_lt by lia. cbn [fmap option_fmap option_map plus].
  apply omap_lookup_total.
  eapply Forall_impl; [exact Hrect |]. intros r Hr; simpl in Hr.
  apply lookup_lt_is_Some. lia.
Qed.

Lemma entry_fmap {K'} (f : K -> K') (m : list (list K)) i j :
  entry ((fun row : list K => f <$> row) <$> m) i j = f <$> entry m i j.
Proof.
  unfold entry. rewrite list_lookup_fmap.
  destruct (m !! i) as [row|]; simpl; [apply list_lookup_fmap | done].
Qed.
End Transpose.

(** ** Fit and transform project through the same chain *)

Ltac bind_Ok H :=
  lazymatch type of H with
  | bind ?m _ = Ok _ =>
      let E := fresh "E" in
      destruct m eqn:E; [cbn [bind] in H | discriminate H]
  end.

Section RoundTrip.
Context `{NumericBackend}.
Import Rotator.

Lemma dot_feature_sel (x comps : list (list Q)) lo hi :
  Xr.dot_feature x (Xr.sel_mode_slice lo hi comps)
  = Xr.sel_mode_slice lo hi (Xr.dot_feature x comps).
Proof. unfold Xr.dot_feature. by rewrite sel_mode_slice_fmap. Qed.

Lemma close_refl tol x : (0 <= tol)%Q -> close tol x x.
Proof.
  intros Htol. unfold close.
  assert (E : (x - x == 0)%Q) by ring. rewrite E. simpl.
  apply Qmult_le_0_compat; [done | apply Qabs_nonneg].
Qed.

Lemma allclose_refl tol a : (0 <= tol)%Q -> allclose tol a a.
Proof.
  intros Htol. unfold allclose.
  apply Forall2_same_length_lookup_2; [done |]. intros i r r' Hr Hr'.
  rewrite Hr in Hr'. injection Hr' as <-.
  apply Forall2_same_length_lookup_2; [done |]. intros j x x' Hx Hx'.
  rewrite Hx in Hx'. injection Hx' as <-. by apply close_refl.
Qed.

(** What [fit] leaves in the rotator: the permutation and the signs are those
    of [Loadings], computed from the loadings that [promax] returned. *)
Lemma fit_records (self fitted : Rotator) (m : EOFModel) :
  fit_algorithm self m = Ok fitted ->
  exists rot_loadings rot_matrix phi_matrix reordered norms signs,
    promax
      (Xr.mul_mode (Xr.sel_mode_slice 1 (n_modes (params self)) (m_components m))
         (np_sqrt <$> Xr.sel_mode_slice 1 (n_modes (params self)) (explained_variance m)))
      (power (params self)) (max_iter (params self)) (rtol (params self))
    = (rot_loadings, rot_matrix, phi_matrix) /\
    Xr.isel (Loadings.idx_sort (Loadings.explained_variance rot_loadings)) rot_loadings
    = Ok reordered /\
    Loadings.modes_sign reordered = Ok signs /\
    params fitted = params self /\
    model fitted = Some m /\
    data fitted !! "rotation_matrix" = Some (Matrix rot_matrix) /\
    data fitted !! "idx_modes_sorted"
    = Some (Index (Loadings.idx_sort (Loadings.explained_variance rot_loadings))) /\
    data fitted !! "norms" = Some (ByMode1 norms) /\
    data fitted !! "modes_sign" = Some (ByMode1 signs).
Proof.
  intros Hfit. unfold fit_algorithm in Hfit.
  destruct (promax _ _ _ _) as [[rot_loadings rot_matrix] phi_matrix].
  repeat bind_Ok Hfit. injection Hfit as <-.
  eexists rot_loadings, rot_matrix, phi_matrix, _, _, _.
  split_and!; try done; by simplify_map_eq.
Qed.

Lemma transform_after_fit (self fitted : Rotator) (m : EOFModel) :
  m_scores m = Xr.dot_feature (m_input_data m) (m_components m) ->
  fit_algorithm self m = Ok fitted ->
  exists scores,
    data fitted !! "scores" = Some (ByMode2 scores) /\
    transform_algorithm fitted (m_input_data m) = Ok scores.
Proof.
  intros Hcontract Hfit. unfold fit_algorithm in Hfit.
  destruct (promax _ _ _ _) as [[rot_loadings rot_matrix] phi_matrix].
  repeat bind_Ok Hfit. injection Hfit as <-.
  eexists. split; [by simplify_map_eq |].
  unfold transform_algorithm, data_get; simpl. simplify_map_eq. simpl.
  unfold singular_values. rewrite dot_feature_sel, <- Hcontract.
  rewrite E1; simpl. rewrite E2; simpl. rewrite E3; simpl. by rewrite E4.
Qed.

(** On a fitted rotator [transform] is the projection chain, fed with the
    stored rotation matrix, permutation, norms and signs, for any data. *)
Lemma transform_is_projection_chain (fitted : Rotator) (m : EOFModel)
    R permutation norms signs (x : list (list Q)) :
  model fitted = Some m ->
  data fitted !! "rotation_matrix" = Some (Matrix R) ->
  data fitted !! "idx_modes_sorted" = Some (Index permutation) ->
  data fitted !! "norms" = Some (ByMode1 norms) ->
  data fitted !! "modes_sign" = Some (ByMode1 signs) ->
  transform_algorithm fitted x
  = projection_chain (params fitted) m R permutation norms signs x.
Proof.
  intros Hm HR Hp Hn Hs. unfold transform_algorithm, projection_chain, data_get.
  rewrite Hm, HR, Hp, Hn, Hs. cbn [bind by_mode1 matrix index_values].
  unfold singular_values.
  destruct (compute_rot_mat_inv_trans _ _ _ _ _) as [invT|]; [| done]. cbn [bind].
  destruct (Xr.rename _ _ _) as [invT'|]; [| done]. cbn [bind].
  destruct (Xr.dot_mode_m _ _) as [rotated|]; [| done]. cbn [bind].
  by destruct (Xr.isel _ _).
Qed.
End RoundTrip.

Lemma fitted2_ok :
  Rotator.fit_algorithm (H := Reference.backend) Examples.oblique2 Examples.model2
  = Ok Examples.fitted2.
Proof.
  unfold Examples.fitted2.
  destruct (Rotator.fit_algorithm _ _) as [fitted|e] eqn:E; [reflexivity |].
  vm_compute in E. discriminate E.
Qed.

(** C1. Round trip: for a rotator fitted on a model whose stored scores are
    the projection of its input data onto its components (what the
    decomposition delivers, X.V = U.S) and whose singular values are not zero,
    [transform] applied to that same input data returns the scores stored by
    [fit] — entry for entry, hence within any relative tolerance, 1e-6
    included.  The transform path is the projection chain: projection onto the
    original components over the original singular values, the inverse
    transpose of the stored rotation matrix, the stored permutation, the stored
    norms, the stored signs. *)
Theorem transform_reproduces_fit_scores `{NumericBackend}
    (self fitted : Rotator.Rotator) (m : Rotator.EOFModel) :
  Rotator.m_scores m = Xr.dot_feature (Rotator.m_input_data m) (Rotator.m_components m) ->
  Forall (fun s => ~ (s == 0)%Q) (Rotator.m_norms m) ->
  Rotator.fit_algorithm self m = Ok fitted ->
  exists scores t R permutation norms signs,
    Rotator.data fitted !! "scores" = Some (Rotator.ByMode2 scores) /\
    Rotator.data fitted !! "rotation_matrix" = Some (Rotator.Matrix R) /\
    Rotator.data fitted !! "idx_modes_sorted" = Some (Rotator.Index permutation) /\
    Rotator.data fitted !! "norms" = Some (Rotator.ByMode1 norms) /\
    Rotator.data fitted !! "modes_sign" = Some (Rotator.ByMode1 signs) /\
    Rotator.transform_algorithm fitted (Rotator.m_input_data m) = Ok t /\
    projection_chain (Rotator.params fitted) m R permutation norms signs
      (Rotator.m_input_data m) = Ok t /\
    t = scores /\ allclose (1 # 1000000) t scores.
Proof.
  intros Hcontract _ Hfit.
  destruct (transform_after_fit self fitted m Hcontract Hfit) as (scores & Hs & Ht).
  destruct (fit_records self fitted m Hfit)
    as (L & R & Phi & L' & norms & signs & _ & _ & _ & _ & Hm & HR & Hp & Hn & Hsg).
  eexists scores, scores, R, _, norms, signs.
  split_and!; try done.
  - by rewrite <- (transform_is_projection_chain fitted m R _ norms signs).
  - by apply allclose_refl.
Qed.

Lemma transform_reproduces_fit_scores_witness :
  exists scores t R permutation norms signs,
    Rotator.data Examples.fitted2 !! "scores" = Some (Rotator.ByMode2 scores) /\
    Rotator.data Examples.fitted2 !! "rotation_matrix" = Some (Rotator.Matrix R) /\
    Rotator.data Examples.fitted2 !! "idx_modes_sorted"
    = Some (Rotator.Index permutation) /\
    Rotator.data Examples.fitted2 !! "norms" = Some (Rotator.ByMode1 norms) /\
    Rotator.data Examples.fitted2 !! "modes_sign" = Some (Rotator.ByMode1 signs) /\
    Rotator.transform_algorithm (H := Reference.backend) Examples.fitted2
      (Rotator.m_input_data Examples.model2) = Ok t /\
    projection_chain (H := Reference.backend) (Rotator.params Examples.fitted2)
      Examples.model2 R permutation norms signs
      (Rotator.m_input_data Examples.model2) = Ok t /\
    t = scores /\ allclose (1 # 1000000) t scores.
Proof.
  apply (transform_reproduces_fit_scores (H := Reference.backend)
           Examples.oblique2 Examples.fitted2 Examples.model2).
  - reflexivity.
  - repeat constructor; discriminate.
  - exact fitted2_ok.
Defined.

(** C4. The inverse-transpose routine returns the rotation matrix itself when
    [power] is 1; when [power] exceeds 1 it returns, under the dimensions
    ([mode_m], [mode_n]), the conjugate transpose of the inverse of the
    rotation matrix: entry (i, j) is the conjugate of entry (j, i) of the
    inverse. *)
Theorem rot_mat_inv_trans_spec {K : Type} (conj : K -> K)
    (inv : list (list K) -> result (list (list K)))
    (power : Z) (R : Xr.DataArray2 K) :
  (power = 1%Z ->
   Rotator.compute_rot_mat_inv_trans conj inv power R ("mode_m", "mode_n") = Ok R) /\
  (forall (M M' : list (list K)) (n : nat),
     (power > 1)%Z ->
     Xr.as_dims ("mode_m", "mode_n") R = Ok M -> inv M = Ok M' -> square n M' ->
     exists RinvT,
       Rotator.compute_rot_mat_inv_trans conj inv power R ("mode_m", "mode_n") = Ok RinvT /\
       Xr.dims RinvT = ("mode_m", "mode_n") /\
       Xr.values RinvT = Np.transpose ((fun row : list K => conj <$> row) <$> M') /\
       forall i j, i < n -> j < n ->
         entry (Xr.values RinvT) i j = conj <$> entry M' j i).
Proof.
  split.
  - intros ->. by apply compute_rot_mat_inv_trans_orthogonal.
  - intros M M' n Hp HM HM' [Hlen Hrows].
    eexists. split; [by eapply compute_rot_mat_inv_trans_oblique |].
    split_and!; [done.. |]. intros i j Hi Hj. simpl.
    rewrite (transpose_entry _ n).
    + apply entry_fmap.
    + apply Forall_fmap. eapply Forall_impl; [exact Hrows |].
      intros row Hrow; simpl. by rewrite length_fmap.
    + rewrite length_fmap. lia.
    + done.
Qed.

Lemma rot_mat_inv_trans_spec_witness :
  exists RinvT,
    Rotator.compute_rot_mat_inv_trans (fun x : Q => x) Reference.inv_adjugate 2
      Examples.rot2 ("mode_m", "mode_n") = Ok RinvT /\
    Xr.dims RinvT = ("mode_m", "mode_n") /\
    Xr.values RinvT
    = Np.transpose ((fun row : list Q => (fun x : Q => x) <$> row) <$> [[1; -1]; [-1; 2]]%Q) /\
    forall i j, i < 2 -> j < 2 ->
      entry (Xr.values RinvT) i j = (fun x : Q => x) <$> entry [[1; -1]; [-1; 2]]%Q j i.
Proof.
  apply (proj2 (rot_mat_inv_trans_spec (fun x : Q => x) Reference.inv_adjugate 2
                  Examples.rot2) [[2; 1]; [1; 1]]%Q [[1; -1]; [-1; 2]]%Q 2).
  - lia.
  - reflexivity.
  - reflexivity.
  - split; [reflexivity | by repeat constructor].
Defined.

(** ** The sign vector of the fit *)

(** C2, amended.  For rotated loadings with at least one feature, the sign
    vector has one entry per mode; the entry of a mode is [np.sign] of the
    loading at the first feature of maximal magnitude, so it is +1, -1 or 0,
    and it is 0 exactly when every loading of the mode is zero: a zero is not
    turned into +1. *)
Theorem modes_sign_spec (rot_loadings : list (list Q)) :
  Forall (fun col => col <> []) rot_loadings ->
  exists signs,
    Loadings.modes_sign rot_loadings = Ok signs /\
    length signs = length rot_loadings /\
    forall m col, rot_loadings !! m = Some col ->
      exists i x,
        first_max (Qabs <$> col) i /\ col !! i = Some x /\
        signs !! m = Some (Np.sign x) /\
        (Np.sign x = 1%Q \/ Np.sign x = (-1)%Q \/ Np.sign x = 0%Q) /\
        (Np.sign x = 0%Q <-> all_zero col = true).
Proof.
  intros Hne. rewrite modes_sign_traverse.
  destruct (modes_sign_total rot_loadings Hne) as [signs Hs].
  exists signs. split; [done |]. split; [by eapply traverse_length |].
  intros m col Hm. apply traverse_Ok_Forall2 in Hs.
  destruct (Forall2_lookup_l _ _ _ _ _ Hs Hm) as (e & He & Hcol).
  apply sign_of_mode_Ok_inv in Hcol as (i & x & Hmax & Hx & ->).
  exists i, x. split_and!; [done.. | |].
  - destruct (sign_cases x) as [[_ ->]|[[_ ->]|[_ ->]]]; auto.
  - rewrite sign_zero_iff. by apply max_zero_all_zero with i.
Qed.

Lemma modes_sign_spec_witness :
  exists signs,
    Loadings.modes_sign [[0; 0]; [1; -2]; [3; -1; -3]]%Q = Ok signs /\
    length signs = 3 /\
    forall m col, [[0; 0]; [1; -2]; [3; -1; -3]]%Q !! m = Some col ->
      exists i x,
        first_max (Qabs <$> col) i /\ col !! i = Some x /\
        signs !! m = Some (Np.sign x) /\
        (Np.sign x = 1%Q \/ Np.sign x = (-1)%Q \/ Np.sign x = 0%Q) /\
        (Np.sign x = 0%Q <-> all_zero col = true).
Proof.
  apply (modes_sign_spec [[0; 0]; [1; -2]; [3; -1; -3]]%Q).
  repeat constructor; discriminate.
Defined.

(** C2 as stated fails on a mode whose loadings all vanish: its entry is 0,
    neither +1 nor -1. *)
Lemma modes_sign_zero_mode :
  Loadings.modes_sign [[0; 0]; [1; -2]]%Q = Ok [0; -1]%Q /\
  Loadings.modes_sign [[0; 0]; [1; -2]]%Q <> Ok [1; -1]%Q /\
  ~ (forall signs, Loadings.modes_sign [[0; 0]; [1; -2]]%Q = Ok signs ->
       Forall (fun e => e = 1%Q \/ e = (-1)%Q) signs).
Proof.
  split_and!; [reflexivity | discriminate |]. intros Hclaim.
  specialize (Hclaim [0; -1]%Q eq_refl).
  apply Forall_inv in Hclaim as [E|E]; discriminate E.
Qed.

(** C8, amended.  Once the sign vector has been applied to the loadings,
    computing it again gives +1 for every mode that has a non-zero loading and
    0 for a mode whose loadings all vanish, and applying that second vector
    changes neither the signed loadings nor the signed scores (nor any other
    array that carries the first signs). *)
Theorem sign_normalization_idempotent (rot_loadings : list (list Q)) (signs : list Q) :
  Loadings.modes_sign rot_loadings = Ok signs ->
  exists signs',
    Loadings.modes_sign (Xr.mul_mode rot_loadings signs) = Ok signs' /\
    (forall m col, rot_loadings !! m = Some col ->
       signs' !! m = Some (if all_zero col then 0%Q else 1%Q)) /\
    Xr.mul_mode (Xr.mul_mode rot_loadings signs) signs' = Xr.mul_mode rot_loadings signs /\
    forall scores : list (list Q),
      Xr.mul_mode (Xr.mul_mode scores signs) signs' = Xr.mul_mode scores signs.
Proof.
  rewrite modes_sign_traverse. intros Hs%traverse_Ok_Forall2.
  destruct (modes_sign_scaled rot_loadings signs Hs) as [H1 H2].
  exists (resign <$> rot_loadings). rewrite modes_sign_traverse.
  split_and!; [done | | done..].
  intros m col Hm. by rewrite list_lookup_fmap, Hm.
Qed.

Lemma sign_normalization_idempotent_witness :
  exists signs',
    Loadings.modes_sign (Xr.mul_mode [[1; -2]; [3; -1; -3]; [0; 0]]%Q [-1; 1; 0]%Q)
    = Ok signs' /\
    (forall m col, [[1; -2]; [3; -1; -3]; [0; 0]]%Q !! m = Some col ->
       signs' !! m = Some (if all_zero col then 0%Q else 1%Q)) /\
    Xr.mul_mode (Xr.mul_mode [[1; -2]; [3; -1; -3]; [0; 0]]%Q [-1; 1; 0]%Q) signs'
    = Xr.mul_mode [[1; -2]; [3; -1; -3]; [0; 0]]%Q [-1; 1; 0]%Q /\
    forall scores : list (list Q),
      Xr.mul_mode (Xr.mul_mode scores [-1; 1; 0]%Q) signs'
      = Xr.mul_mode scores [-1; 1; 0]%Q.
Proof.
  apply (sign_normalization_idempotent [[1; -2]; [3; -1; -3]; [0; 0]]%Q [-1; 1; 0]%Q).
  reflexivity.
Defined.

(** C8 as stated fails on a mode whose loadings all vanish: the recomputed
    entry is 0, not +1. *)
Lemma sign_recomputed_zero_mode :
  Loadings.modes_sign [[0; 0]; [1; -2]]%Q = Ok [0; -1]%Q /\
  Loadings.modes_sign (Xr.mul_mode [[0; 0]; [1; -2]]%Q [0; -1]%Q) = Ok [0; 1]%Q /\
  Loadings.modes_sign (Xr.mul_mode [[0; 0]; [1; -2]]%Q [0; -1]%Q) <> Ok [1; 1]%Q.
Proof. split_and!; [reflexivity | reflexivity | discriminate]. Qed.

(** ** The mode permutation of the fit *)

(** C3, amended.  The permutation computed from the rotated loadings lists
    every mode once, in descending order of variance (sum over features of the
    squared magnitude): a mode of strictly larger variance always stands before
    a mode of smaller variance.  Nothing is said of modes of exactly equal
    variance: the code reverses NumPy's default [argsort], which is not a
    stable sort, and breaks no tie by the original index. *)
Theorem idx_sort_spec (rot_loadings : list (list Q)) :
  let expvar := Loadings.explained_variance rot_loadings in
  let p := Loadings.idx_sort expvar in
  p ≡ₚ seq 0 (length rot_loadings) /\
  sorted_descending expvar p /\
  (forall a b i j, p !! a = Some i -> p !! b = Some j ->
     (Np.key expvar j < Np.key expvar i)%Q -> a < b).
Proof.
  intros expvar p. split_and!.
  - unfold p. rewrite idx_sort_perm. unfold expvar, Loadings.explained_variance.
    by rewrite length_fmap.
  - apply idx_sort_descending.
  - intros a b i j. apply sorted_descending_strict, idx_sort_descending.
Qed.

(** C3 as stated fails on two modes of equal variance: mode 1 comes before
    mode 0. *)
Lemma idx_sort_equal_variance :
  Forall (fun v => (v == 1)%Q) (Loadings.explained_variance [[1; 0]; [0; 1]]%Q) /\
  Loadings.idx_sort (Loadings.explained_variance [[1; 0]; [0; 1]]%Q) = [1; 0] /\
  ~ ties_smaller_index_first
      (Loadings.explained_variance [[1; 0]; [0; 1]]%Q)
      (Loadings.idx_sort (Loadings.explained_variance [[1; 0]; [0; 1]]%Q)).
Proof.
  split_and!; [by repeat constructor | reflexivity |]. intros Hclaim.
  specialize (Hclaim 0 1 1 0). cbv beta in Hclaim.
  assert (1 < 0) as Habs; [| lia].
  apply Hclaim; [lia | reflexivity | reflexivity | reflexivity].
Qed.

(** ** [fit] on more modes than the decomposition has *)

Section Isel.
Context {A : Type}.

Lemma isel_Ok (idx : list nat) (a r : list A) :
  Xr.isel idx a = Ok r <-> Forall2 (fun i x => a !! i = Some x) idx r.
Proof.
  unfold Xr.isel. rewrite traverse_Ok_Forall2.
  split; intros Hr; (eapply Forall2_impl; [exact Hr |]);
    intros i x; by rewrite getitem_Ok.
Qed.

Lemma isel_in_range (idx : list nat) (a : list A) :
  Forall (fun i => i < length a) idx -> exists r, Xr.isel idx a = Ok r.
Proof.
  intros Hidx. apply traverse_total.
  eapply Forall_impl; [exact Hidx |]. intros i Hi; simpl.
  destruct (lookup_lt_is_Some_2 a i Hi) as [x Hx]. exists x. by apply getitem_Ok.
Qed.

Lemma isel_length (idx : list nat) (a r : list A) :
  Xr.isel idx a = Ok r -> length r = length idx.
Proof. apply traverse_length. Qed.

Lemma isel_Forall (P : A -> Prop) (idx : list nat) (a r : list A) :
  Xr.isel idx a = Ok r -> Forall P a -> Forall P r.
Proof.
  rewrite isel_Ok. intros Hr Ha. apply Forall_forall. intros x Hx.
  apply list_elem_of_lookup in Hx as [k Hk].
  destruct (Forall2_lookup_r _ _ _ _ _ Hr Hk) as (i & _ & Hi).
  eapply Forall_forall; [exact Ha |]. apply list_elem_of_lookup. eauto.
Qed.
End Isel.

Lemma idx_sort_in_range (v : list Q) n :
  length v = n -> Forall (fun i => i < n) (Loadings.idx_sort v).
Proof.
  intros <-. rewrite idx_sort_perm. apply Forall_forall.
  intros i Hi%elem_of_seq. lia.
Qed.

Lemma idx_sort_length (v : list Q) : length (Loadings.idx_sort v) = length v.
Proof. by rewrite idx_sort_perm, length_seq. Qed.

Lemma transpose_length_square {K} n (m : list (list K)) :
  square n m -> length (Np.transpose m) = n.
Proof.
  intros [Hlen Hrows]. unfold Np.transpose. rewrite length_fmap, length_seq.
  destruct m as [|row m]; [done |]. by apply Forall_inv in Hrows.
Qed.

Lemma transpose_square {K} n (m : list (list K)) :
  square n m -> square n (Np.transpose m).
Proof.
  intros Hsq. split; [by apply transpose_length_square |].
  destruct Hsq as [Hlen Hrows]. unfold Np.transpose.
  apply Forall_fmap, Forall_forall. intros j Hj%elem_of_seq; simpl.
  assert (Hw : length (default [] (head m)) <= n).
  { destruct m as [|row m]; simpl; [lia |]. apply Forall_inv in Hrows. lia. }
  assert (Hjn : j < n) by lia. rewrite <- Hlen. clear Hlen Hj Hw.
  induction Hrows as [|row m Hrow _ IH]; [done |]. csimpl.
  destruct (lookup_lt_is_Some_2 row j) as [x ->]; [lia |]. simpl. by rewrite IH.
Qed.

Section FitSucceeds.
Context `{NumericBackend}.
Import Rotator.

Lemma rot_mat_inv_trans_shape (p : Params) (R : Xr.DataArray2 Q) n :
  Xr.dims R = ("mode_m", "mode_n") -> square n (Xr.values R) ->
  ((power p <= 1)%Z \/
   exists inverse, linalg_inv (Xr.values R) = Ok inverse /\ square n inverse) ->
  exists RinvT,
    compute_rot_mat_inv_trans (fun x => x) linalg_inv (power p) R ("mode_m", "mode_n")
    = Ok RinvT /\
    Xr.dims RinvT = ("mode_m", "mode_n") /\ square n (Xr.values RinvT).
Proof.
  intros Hdims Hsq Hinv. destruct (decide (power p <= 1)%Z) as [Hp|Hp].
  - exists R. by rewrite compute_rot_mat_inv_trans_orthogonal.
  - destruct Hinv as [Hle|(inverse & Hinverse & Hsq')]; [lia |].
    eexists. split.
    + apply (compute_rot_mat_inv_trans_oblique _ _ _ _ _ (Xr.values R) inverse);
        [lia | done | | done].
      unfold Xr.as_dims. by rewrite decide_True.
    + split; [done |]. simpl. apply transpose_square.
      destruct Hsq' as [Hlen Hrows]. split; [by rewrite length_fmap |].
      apply Forall_fmap. eapply Forall_impl; [exact Hrows |].
      intros row Hrow; simpl. by rewrite length_fmap.
Qed.

Lemma fit_succeeds (self : Rotator) (m : EOFModel) :
  let n := n_modes (params self) in
  let loadings :=
    Xr.mul_mode (Xr.sel_mode_slice 1 n (m_components m))
                (np_sqrt <$> Xr.sel_mode_slice 1 n (explained_variance m)) in
  well_shaped_rotation (params self) loadings ->
  exists fitted p,
    fit_algorithm self m = Ok fitted /\
    data fitted !! "idx_modes_sorted" = Some (Index p) /\
    p ≡ₚ seq 0 (length loadings).
Proof.
  intros n loadings. unfold well_shaped_rotation, fit_algorithm.
  fold n. fold loadings.
  destruct (promax _ _ _ _) as [[L R] Phi].
  intros (HlenL & Hne & Hdims & Hsq & Hinv).
  set (expvar := Loadings.explained_variance L).
  assert (Hlen : length expvar = length L).
  { unfold expvar, Loadings.explained_variance. by rewrite length_fmap. }
  destruct (isel_in_range (Loadings.idx_sort expvar) expvar) as [expvar' ->];
    [by apply idx_sort_in_range |].
  destruct (isel_in_range (Loadings.idx_sort expvar) L) as [L' HL'];
    [by apply idx_sort_in_range |].
  rewrite HL'. cbn [bind].
  destruct (rot_mat_inv_trans_shape (params self) R (length L) Hdims Hsq Hinv)
    as (RinvT & -> & Hdims' & Hsq').
  cbn [bind]. unfold Xr.rename. rewrite Hdims'. simpl.
  unfold Xr.dot_mode_m, Xr.as_dims. simpl.
  match goal with
  | |- context [Xr.isel _ (?f <$> Np.transpose (Xr.values RinvT))] =>
      destruct (isel_in_range (Loadings.idx_sort expvar)
                  (f <$> Np.transpose (Xr.values RinvT))) as [scores ->]
  end.
  { rewrite length_fmap, (transpose_length_square (length L)) by done.
    by apply idx_sort_in_range. }
  cbn [bind].
  rewrite modes_sign_traverse.
  destruct (modes_sign_total L') as (signs & ->).
  { by eapply isel_Forall. }
  cbn [bind]. eexists _, _. split; [reflexivity |].
  split; [by simplify_map_eq |].
  by rewrite idx_sort_perm, Hlen, HlenL.
Qed.
End FitSucceeds.

(** C6, amended.  When [n_modes] exceeds the number of modes of the
    decomposition, [fit] raises no error: the label slice keeps the modes that
    exist, the rotation runs on those, and the fitted rotator holds exactly the
    available modes. *)
Theorem fit_with_excess_n_modes `{NumericBackend}
    (self : Rotator.Rotator) (m : Rotator.EOFModel) (available : nat) :
  length (Rotator.m_components m) = available ->
  length (Rotator.m_explained_variance m) = available ->
  (Z.of_nat available < Rotator.n_modes (Rotator.params self))%Z ->
  well_shaped_rotation (Rotator.params self)
    (Xr.mul_mode (Rotator.m_components m) (np_sqrt <$> Rotator.m_explained_variance m)) ->
  exists fitted p,
    Rotator.fit_algorithm self m = Ok fitted /\
    Rotator.data fitted !! "idx_modes_sorted" = Some (Rotator.Index p) /\
    p ≡ₚ seq 0 available.
Proof.
  intros Hc He Hn Hshape.
  destruct (fit_succeeds self m) as (fitted & p & Hfit & Hp & Hperm).
  - unfold Rotator.explained_variance.
    rewrite !sel_mode_slice_all by lia. exact Hshape.
  - exists fitted, p. split_and!; [done.. |].
    rewrite Hperm. unfold Rotator.explained_variance.
    rewrite !sel_mode_slice_all by lia.
    unfold Xr.mul_mode. by rewrite length_zip_with, length_fmap, Hc, He, Nat.min_id.
Qed.

Lemma fit_with_excess_n_modes_witness :
  exists fitted p,
    Rotator.fit_algorithm (H := Reference.backend) Examples.oblique3 Examples.model2
    = Ok fitted /\
    Rotator.data fitted !! "idx_modes_sorted" = Some (Rotator.Index p) /\
    p ≡ₚ seq 0 2.
Proof.
  apply (fit_with_excess_n_modes (H := Reference.backend)
           Examples.oblique3 Examples.model2 2).
  - reflexivity.
  - reflexivity.
  - simpl. lia.
  - unfold well_shaped_rotation. simpl.
    split_and!; [reflexivity | repeat constructor; discriminate | reflexivity | | ].
    + split; [reflexivity | by repeat constructor].
    + right. eexists. split; [vm_compute; reflexivity |].
      split; [reflexivity | by repeat constructor].
Defined.

(** C6 as stated fails: asked for three modes of a two-mode decomposition,
    [fit] returns a fitted rotator. *)
Lemma fit_excess_n_modes_returns :
  Rotator.n_modes (Rotator.params Examples.oblique3) = 3%Z /\
  length (Rotator.m_components Examples.model2) = 2 /\
  is_ok (Rotator.fit_algorithm (H := Reference.backend) Examples.oblique3 Examples.model2)
  = true /\
  ~ (exists e, Rotator.fit_algorithm (H := Reference.backend)
                 Examples.oblique3 Examples.model2 = Raise e).
Proof.
  assert (Hok : is_ok (Rotator.fit_algorithm (H := Reference.backend)
                         Examples.oblique3 Examples.model2) = true)
    by (vm_compute; reflexivity).
  split_and!; [reflexivity | reflexivity | exact Hok |].
  intros [e He]. rewrite He in Hok. discriminate Hok.
Qed.

(** ** Operations that the complex models do not implement *)

Lemma mro_is_c3_linearization (c : Classes.Class) :
  Classes.c3_linearize 3 c = Some (Classes.mro c).
Proof. destruct c; reflexivity. Qed.

Lemma super_EOFRotator_of_ComplexEOFRotator :
  Classes.super Classes.EOFRotator Classes.ComplexEOFRotator
  = [Classes.ComplexEOF; Classes.EOF].
Proof. reflexivity. Qed.

(** C9. On the complex variants, the forward transform of the rotated EOF
    model and [transform], [homogeneous_patterns] and [heterogeneous_patterns]
    of the MCA model raise the "not implemented" error for every input; none of
    them returns a value. *)
Theorem complex_operations_not_implemented `{NumericBackend}
    {AnyDataObject Preprocessor : Type} :
  (forall (self : Rotator.Rotator) (data_in : list (list Q)),
     Classes.ComplexEOFRotator_transform_algorithm self data_in
     = Raise NotImplementedError) /\
  (forall (self : Mca.ComplexMCA (Preprocessor := Preprocessor))
          (data1 data2 : AnyDataObject),
     Mca.transform self data1 data2 = Raise NotImplementedError) /\
  (forall (self : Mca.ComplexMCA (Preprocessor := Preprocessor)) correction alpha,
     Mca.homogeneous_patterns self correction alpha = Raise NotImplementedError) /\
  (forall (self : Mca.ComplexMCA (Preprocessor := Preprocessor)) correction alpha,
     Mca.heterogeneous_patterns self correction alpha = Raise NotImplementedError).
Proof. split_and!; reflexivity. Qed.

(** ** [ComplexMCA.fit] and its weights *)

Section McaWeights.
Context `{NumericBackend}.
Context {AnyDataObject Dims Weights Preprocessor : Type}.
Context `{!Mca.Collaborators AnyDataObject Dims Weights Preprocessor}.

Lemma fit_preprocessing (self fitted : Mca.ComplexMCA) (data1 data2 : AnyDataObject)
    (dim : Dims) (weights1 weights2 : option Weights) :
  Mca.fit self data1 data2 dim weights1 weights2 = Ok fitted ->
  exists x1 x2 h1 h2 container,
    Mca.fit_transform (Mca.preprocessor1 self) data1 dim weights2
    = Ok (Mca.preprocessor1 fitted, x1) /\
    Mca.fit_transform (Mca.preprocessor2 self) data2 dim weights2
    = Ok (Mca.preprocessor2 fitted, x2) /\
    Hilbert.hilbert_transform x1 "sample" (Mca.padding (Mca.params self))
      (Mca.decay_factor (Mca.params self)) = Ok h1 /\
    Hilbert.hilbert_transform x2 "sample" (Mca.padding (Mca.params self))
      (Mca.decay_factor (Mca.params self)) = Ok h2 /\
    Mca.data fitted = Some container /\
    Mca.input_data1 container = h1 /\ Mca.input_data2 container = h2.
Proof.
  unfold Mca.fit. intros Hfit.
  destruct (Mca.fit_transform (Mca.preprocessor1 self) _ _ _) as [[pp1 x1]|]; [| done].
  cbn [bind] in Hfit.
  destruct (Mca.fit_transform (Mca.preprocessor2 self) _ _ _) as [[pp2 x2]|]; [| done].
  cbn [bind] in Hfit.
  repeat bind_Ok Hfit. injection Hfit as <-. simpl.
  by eexists x1, x2, _, _, _.
Qed.
End McaWeights.

(** C10. [ComplexMCA.fit] does not depend on [weights1]: two calls that
    differ only in [weights1] give the same outcome, and in a fitted model both
    preprocessors, the left one included, were fitted with [weights2], whose
    output (after the Hilbert transform) is the stored input data. *)
Theorem complex_mca_fit_ignores_weights1 `{NumericBackend}
    {AnyDataObject Dims Weights Preprocessor : Type}
    `{!Mca.Collaborators AnyDataObject Dims Weights Preprocessor}
    (self : Mca.ComplexMCA) (data1 data2 : AnyDataObject) (dim : Dims)
    (weights1 weights1' weights2 : option Weights) :
  Mca.fit self data1 data2 dim weights1 weights2
  = Mca.fit self data1 data2 dim weights1' weights2 /\
  forall fitted,
    Mca.fit self data1 data2 dim weights1 weights2 = Ok fitted ->
    exists x1 x2 h1 h2 container,
      Mca.fit_transform (Mca.preprocessor1 self) data1 dim weights2
      = Ok (Mca.preprocessor1 fitted, x1) /\
      Mca.fit_transform (Mca.preprocessor2 self) data2 dim weights2
      = Ok (Mca.preprocessor2 fitted, x2) /\
      Hilbert.hilbert_transform x1 "sample" (Mca.padding (Mca.params self))
        (Mca.decay_factor (Mca.params self)) = Ok h1 /\
      Hilbert.hilbert_transform x2 "sample" (Mca.padding (Mca.params self))
        (Mca.decay_factor (Mca.params self)) = Ok h2 /\
      Mca.data fitted = Some container /\
      Mca.input_data1 container = h1 /\ Mca.input_data2 container = h2.
Proof.
  split; [reflexivity |]. intros fitted. apply fit_preprocessing.
Qed.

Lemma cmca_fitted_ok :
  Mca.fit (H := Reference.backend) (Collaborators0 := Reference.collaborators)
    Examples.cmca Examples.field1 Examples.field2 "time" (Some 3%Q) (Some 2%Q)
  = Ok Examples.cmca_fitted.
Proof. vm_compute. reflexivity. Qed.

Lemma complex_mca_fit_ignores_weights1_witness :
  exists x1 x2 h1 h2 container,
    Reference.scale_by_weight None Examples.field1 "time" (Some 2%Q)
    = Ok (Mca.preprocessor1 Examples.cmca_fitted, x1) /\
    Reference.scale_by_weight None Examples.field2 "time" (Some 2%Q)
    = Ok (Mca.preprocessor2 Examples.cmca_fitted, x2) /\
    Hilbert.hilbert_transform (H := Reference.backend) x1 "sample" (Some "exp") (1 # 5)
    = Ok h1 /\
    Hilbert.hilbert_transform (H := Reference.backend) x2 "sample" (Some "exp") (1 # 5)
    = Ok h2 /\
    Mca.data Examples.cmca_fitted = Some container /\
    Mca.input_data1 container = h1 /\ Mca.input_data2 container = h2.
Proof.
  apply (proj2 (complex_mca_fit_ignores_weights1
                  (H := Reference.backend) (H0 := Reference.collaborators)
                  Examples.cmca Examples.field1 Examples.field2 "time"
                  (Some 3%Q) None (Some 2%Q)) Examples.cmca_fitted).
  exact cmca_fitted_ok.
Defined.

(** The outcome does depend on [weights2]. *)
Lemma complex_mca_fit_depends_on_weights2 :
  Mca.fit (H := Reference.backend) (Collaborators0 := Reference.collaborators)
    Examples.cmca Examples.field1 Examples.field2 "time" (Some 3%Q) (Some 2%Q)
  <> Mca.fit (H := Reference.backend) (Collaborators0 := Reference.collaborators)
       Examples.cmca Examples.field1 Examples.field2 "time" (Some 3%Q) (Some 5%Q).
Proof. vm_compute. discriminate. Qed.

(** ** The exponential padding *)

Section Arange.

Lemma arange_length lo hi : length (Np.arange lo hi) = Z.to_nat (hi - lo).
Proof. unfold Np.arange. by rewrite length_fmap, length_seq. Qed.

Lemma arange_lookup lo hi i :
  i < Z.to_nat (hi - lo) -> Np.arange lo hi !! i = Some (inject_Z (lo + Z.of_nat i)).
Proof.
  intros Hi. unfold Np.arange. by rewrite list_lookup_fmap, lookup_seq_lt.
Qed.

Lemma arange_app lo mid hi :
  (lo <= mid <= hi)%Z -> Np.arange lo hi = Np.arange lo mid ++ Np.arange mid hi.
Proof.
  intros Hm. unfold Np.arange.
  replace (Z.to_nat (hi - lo)) with (Z.to_nat (mid - lo) + Z.to_nat (hi - mid)) by lia.
  rewrite seq_app, fmap_app. f_equal. simpl.
  rewrite <- (Nat.add_0_r (Z.to_nat (mid - lo))) at 1.
  rewrite <- fmap_add_seq, <- list_fmap_compose.
  apply list_fmap_ext. intros _ i _. simpl. f_equal. lia.
Qed.

End Arange.

Section PadExp.
Context `{NumericBackend}.

Lemma zip_with_zip_with_app {A B C} (f : A -> B -> C) (a a' : list A) (b b' : list B) :
  length a = length b ->
  zip_with f (a ++ a') (b ++ b') = zip_with f a b ++ zip_with f a' b'.
Proof. intros Hl. by apply zip_with_app. Qed.

Lemma add2_app (a a' t t' : list (list Q)) :
  length a = length t ->
  Hilbert.add2 (a ++ a') (t ++ t') = Hilbert.add2 a t ++ Hilbert.add2 a' t'.
Proof. apply zip_with_zip_with_app. Qed.

Lemma polyval_length x coefs : length (Np.polyval x coefs) = length x.
Proof. unfold Np.polyval. by rewrite length_fmap. Qed.

Lemma polyval_app x x' coefs :
  Np.polyval (x ++ x') coefs = Np.polyval x coefs ++ Np.polyval x' coefs.
Proof. unfold Np.polyval. by rewrite fmap_app. Qed.

Lemma polyval_row_length x coefs row :
  row ∈ Np.polyval x coefs -> length row = length coefs.1 `min` length coefs.2.
Proof.
  unfold Np.polyval. intros (xi & -> & _)%list_elem_of_fmap.
  by rewrite length_zip_with.
Qed.

Lemma polyfit_Ok (x : list Q) (y : list (list Q)) :
  x <> [] -> length x = length y ->
  exists coefs,
    Np.polyfit x y = Ok coefs /\
    length coefs.1 = length (Np.transpose y) /\
    length coefs.2 = length (Np.transpose y).
Proof.
  intros Hx Hlen. unfold Np.polyfit. destruct x as [|x0 x]; [done |].
  rewrite decide_True by done. eexists. split; [reflexivity |].
  simpl. by rewrite !length_fmap.
Qed.

Lemma polyfit_empty (y : list (list Q)) : Np.polyfit [] y = Raise TypeError.
Proof. reflexivity. Qed.

Lemma outer_T_lookup amp kernel i e :
  kernel !! i = Some e ->
  Hilbert.outer_T amp kernel !! i = Some ((fun a => a * e)%Q <$> amp).
Proof. intros He. unfold Hilbert.outer_T. by rewrite list_lookup_fmap, He. Qed.

Lemma outer_T_length amp kernel : length (Hilbert.outer_T amp kernel) = length kernel.
Proof. unfold Hilbert.outer_T. by rewrite length_fmap. Qed.

Lemma decay_kernel_length n d x : length (Hilbert.decay_kernel n d x) = length x.
Proof. unfold Hilbert.decay_kernel. by rewrite length_fmap. Qed.

Lemma decay_kernel_lookup (N : nat) d i :
  i < N ->
  Hilbert.decay_kernel (Z.of_nat N) d (Np.arange 0 (Z.of_nat N)) !! i
  = Some (np_exp (- inject_Z (Z.of_nat i) / inject_Z (Z.of_nat N) / d)%Q).
Proof.
  intros Hi. unfold Hilbert.decay_kernel.
  by rewrite list_lookup_fmap, arange_lookup by lia.
Qed.

(** Removing the trend and adding it back gives the input again. *)
Lemma row_detrend_retrend (r f : list Q) :
  length f = length r ->
  Forall2 Qeq (zip_with Qplus (zip_with Qminus r f) f) r.
Proof.
  revert f. induction r as [|a r IH]; intros [|b f] Hl; simpl in *; try done.
  constructor; [ring | apply IH; lia].
Qed.

Lemma detrend_retrend (y yfit : list (list Q)) :
  Forall2 (fun r f => length f = length r) y yfit ->
  Forall2 (Forall2 Qeq) (Hilbert.add2 (Hilbert.sub2 y yfit) yfit) y.
Proof.
  unfold Hilbert.add2, Hilbert.sub2.
  induction 1 as [|r f y yfit Hrf _ IH]; simpl; [constructor |].
  constructor; [by apply row_detrend_retrend | exact IH].
Qed.

Lemma transpose_width (y : list (list Q)) F :
  y <> [] -> Forall (fun row => length row = F) y -> length (Np.transpose y) = F.
Proof.
  intros Hne Hrect. unfold Np.transpose. rewrite length_fmap, length_seq.
  destruct y as [|row y]; [done |]. by apply Forall_inv in Hrect.
Qed.

End PadExp.

Section PaddedHilbert.
Context `{NumericBackend}.

Lemma pad_exp_Ok (y : list (list Q)) (decay_factor : Q) :
  y <> [] ->
  let N := Z.of_nat (length y) in
  let x := Np.arange 0 N in
  exists coefs amp_pre amp_pos,
    let y_ano := Hilbert.sub2 y (Np.polyval x coefs) in
    let kernel := Hilbert.decay_kernel N decay_factor x in
    Np.polyfit x y = Ok coefs /\
    length coefs.1 = length (Np.transpose y) /\
    length coefs.2 = length (Np.transpose y) /\
    length y_ano = length y /\
    Np.take_first y_ano = Ok amp_pre /\
    Np.take_last y_ano = Ok amp_pos /\
    Hilbert.pad_exp y decay_factor
    = Ok (Hilbert.add2 (Hilbert.outer_T amp_pre (reverse kernel))
                       (Np.polyval (Np.arange (- N) 0) coefs)
          ++ Hilbert.add2 y_ano (Np.polyval x coefs)
          ++ Hilbert.add2 (Hilbert.outer_T amp_pos kernel)
                          (Np.polyval (Np.arange N (2 * N)) coefs)).
Proof.
  intros Hne N x.
  assert (HN : 0 < length y) by (destruct y; [done | simpl; lia]).
  assert (Hx : length x = length y) by (unfold x, N; rewrite arange_length; lia).
  destruct (polyfit_Ok x y) as (coefs & Hfit & Hc1 & Hc2); [| done |].
  { intros E. rewrite E in Hx. simpl in Hx. lia. }
  exists coefs.
  assert (Hano : length (Hilbert.sub2 y (Np.polyval x coefs)) = length y).
  { unfold Hilbert.sub2. rewrite length_zip_with, polyval_length. lia. }
  destruct (lookup_lt_is_Some_2 (Hilbert.sub2 y (Np.polyval x coefs)) 0)
    as [amp_pre Hpre]; [lia |].
  destruct (lookup_lt_is_Some_2 (Hilbert.sub2 y (Np.polyval x coefs)) (length y - 1))
    as [amp_pos Hpos]; [lia |].
  exists amp_pre, amp_pos. cbv zeta.
  assert (Hfirst : Np.take_first (Hilbert.sub2 y (Np.polyval x coefs)) = Ok amp_pre).
  { by apply getitem_Ok. }
  assert (Hlast : Np.take_last (Hilbert.sub2 y (Np.polyval x coefs)) = Ok amp_pos).
  { unfold Np.take_last. rewrite Hano. by apply getitem_Ok. }
  split_and!; [done.. |].
  unfold Hilbert.pad_exp. fold N. fold x. rewrite Hfit. cbn [bind].
  rewrite Hfirst. cbn [bind]. rewrite Hlast. cbn [bind]. f_equal.
  rewrite (arange_app (- N) 0 (2 * N)), (arange_app 0 N (2 * N)) by lia.
  fold x. rewrite !polyval_app.
  rewrite add2_app; [f_equal; apply add2_app |].
  - rewrite Hano, polyval_length. lia.
  - rewrite outer_T_length, length_reverse, decay_kernel_length, polyval_length,
      arange_length. lia.
Qed.

Lemma padded_length (y : list (list Q)) (decay_factor : Q) coefs amp_pre amp_pos :
  let N := Z.of_nat (length y) in
  let x := Np.arange 0 N in
  let y_ano := Hilbert.sub2 y (Np.polyval x coefs) in
  let kernel := Hilbert.decay_kernel N decay_factor x in
  length y_ano = length y ->
  length (Hilbert.add2 (Hilbert.outer_T amp_pre (reverse kernel))
                       (Np.polyval (Np.arange (- N) 0) coefs)
          ++ Hilbert.add2 y_ano (Np.polyval x coefs)
          ++ Hilbert.add2 (Hilbert.outer_T amp_pos kernel)
                          (Np.polyval (Np.arange N (2 * N)) coefs))
  = 3 * length y.
Proof.
  intros N x y_ano kernel Hano. rewrite !length_app. unfold Hilbert.add2.
  rewrite !length_zip_with, Hano, !polyval_length, !outer_T_length, length_reverse.
  unfold kernel, x, N. rewrite !decay_kernel_length, !arange_length. lia.
Qed.

Lemma hilbert_transform_with_padding_returns (y : list (list Q))
    (padding : option string) (decay_factor : Q) :
  hilbert_contract -> y <> [] ->
  exists r,
    Hilbert.hilbert_transform_with_padding y padding decay_factor = Ok r /\
    length r = length y.
Proof.
  intros Hh Hne. unfold Hilbert.hilbert_transform_with_padding.
  destruct (decide (padding = Some "exp")) as [_|_].
  - destruct (pad_exp_Ok y decay_factor Hne)
      as (coefs & amp_pre & amp_pos & _ & _ & _ & Hano & _ & _ & ->).
    cbn [bind].
    pose proof (padded_length y decay_factor coefs amp_pre amp_pos Hano) as Hpad.
    match goal with |- context [signal_hilbert ?p] => destruct (Hh p) as (h & -> & Hlen) end.
    { intros E. rewrite E in Hpad. simpl in Hpad. destruct y; [done | simpl in Hpad; lia]. }
    cbn [bind]. eexists. split; [reflexivity |].
    unfold Np.slice. rewrite length_take, length_drop, Hlen, Hpad. lia.
  - cbn [bind]. destruct (Hh y Hne) as (h & -> & Hlen). cbn [bind]. by exists h.
Qed.

End PaddedHilbert.

Lemma reference_hilbert_contract : hilbert_contract (H := Reference.backend).
Proof.
  intros y _. eexists. split; [reflexivity |]. by rewrite length_fmap.
Qed.

(** C5. With exponential padding and a non-zero [decay_factor], for an input
    of N >= 1 samples (one row per sample, one column per series, every row of
    the same width): the leading and the trailing pad have
    N rows each; row i of the trailing pad is the last detrended row times
    exp(-i / N / decay_factor), row i of the leading pad is the first detrended
    row times the reversed kernel exp(-(N-1-i) / N / decay_factor); the padded
    series is the leading pad plus the trend extrapolated before the data, then
    the data itself (detrended and retrended), then the trailing pad plus the
    trend extrapolated after the data, 3N rows in all; the routine applies the
    Hilbert transform to that series and returns rows N to 2N-1 of it, N rows. *)
Theorem hilbert_exp_padding_spec `{NumericBackend}
    (y : list (list Q)) (decay_factor : Q) (F : nat) :
  y <> [] -> Forall (fun row => length row = F) y -> ~ (decay_factor == 0)%Q ->
  hilbert_contract ->
  let N := length y in
  let x := Np.arange 0 (Z.of_nat N) in
  exists coefs amp_pre amp_pos pad_pre pad_pos middle padded h,
    Np.polyfit x y = Ok coefs /\
    Np.take_first (Hilbert.sub2 y (Np.polyval x coefs)) = Ok amp_pre /\
    Np.take_last (Hilbert.sub2 y (Np.polyval x coefs)) = Ok amp_pos /\
    length pad_pre = N /\ length pad_pos = N /\
    (forall i, i < N ->
       pad_pos !! i
       = Some ((fun a => a * np_exp (- inject_Z (Z.of_nat i) / inject_Z (Z.of_nat N)
                                     / decay_factor))%Q <$> amp_pos)) /\
    (forall i, i < N ->
       pad_pre !! i
       = Some ((fun a => a * np_exp (- inject_Z (Z.of_nat (N - 1 - i))
                                     / inject_Z (Z.of_nat N) / decay_factor))%Q
                 <$> amp_pre)) /\
    Forall2 (Forall2 Qeq) middle y /\
    padded
    = Hilbert.add2 pad_pre (Np.polyval (Np.arange (- Z.of_nat N) 0) coefs)
      ++ middle
      ++ Hilbert.add2 pad_pos
           (Np.polyval (Np.arange (Z.of_nat N) (2 * Z.of_nat N)) coefs) /\
    length padded = 3 * N /\
    Hilbert.pad_exp y decay_factor = Ok padded /\
    signal_hilbert padded = Ok h /\
    Hilbert.hilbert_transform_with_padding y (Some "exp") decay_factor
    = Ok (Np.slice N (2 * N) h) /\
    Np.slice N (2 * N) h = take N (drop N h) /\
    length (Np.slice N (2 * N) h) = N.
Proof.
  intros Hne Hrect _ Hh N x.
  destruct (pad_exp_Ok y decay_factor Hne)
    as (coefs & amp_pre & amp_pos & Hfit & Hc1 & Hc2 & Hano & Hpre & Hpos & Hpad).
  fold N in Hpad, Hano. fold x in Hfit, Hano, Hpre, Hpos, Hpad.
  pose proof (padded_length y decay_factor coefs amp_pre amp_pos Hano) as Hlen.
  fold N in Hlen. fold x in Hlen.
  set (kernel := Hilbert.decay_kernel (Z.of_nat N) decay_factor x) in *.
  set (padded := (_ ++ _ ++ _)) in *.
  destruct (Hh padded) as (h & Hhil & Hhlen).
  { intros E. rewrite E in Hlen. simpl in Hlen. unfold N in *.
    destruct y; [done | simpl in Hlen; lia]. }
  assert (Hk : length kernel = N).
  { unfold kernel, x. rewrite decay_kernel_length, arange_length. lia. }
  exists coefs, amp_pre, amp_pos,
    (Hilbert.outer_T amp_pre (reverse kernel)), (Hilbert.outer_T amp_pos kernel),
    (Hilbert.add2 (Hilbert.sub2 y (Np.polyval x coefs)) (Np.polyval x coefs)),
    padded, h.
  split_and!; try done.
  - by rewrite outer_T_length, length_reverse.
  - by rewrite outer_T_length.
  - intros i Hi. apply outer_T_lookup. by apply decay_kernel_lookup.
  - intros i Hi. apply outer_T_lookup.
    rewrite reverse_lookup by lia. rewrite Hk.
    replace (N - S i) with (N - 1 - i) by lia. apply decay_kernel_lookup. lia.
  - apply detrend_retrend.
    apply Forall2_same_length_lookup_2; [by rewrite polyval_length; unfold x;
      rewrite arange_length; lia |].
    intros i r f Hr Hf.
    rewrite (polyval_row_length x coefs f) by (apply list_elem_of_lookup; eauto).
    rewrite Hc1, Hc2, (transpose_width y F) by done.
    rewrite Nat.min_id. symmetry.
    apply (proj1 (Forall_forall (fun row : list Q => length row = F) y) Hrect).
    apply list_elem_of_lookup; eauto.
  - unfold Hilbert.hilbert_transform_with_padding.
    rewrite decide_True by done. rewrite Hpad. cbn [bind]. rewrite Hhil. cbn [bind].
    by rewrite decide_True by done.
  - unfold Np.slice. f_equal. lia.
  - unfold Np.slice. rewrite length_take, length_drop, Hhlen, Hlen. lia.
Qed.

Lemma hilbert_exp_padding_spec_witness :
  let y := Examples.series3 in
  let x := Np.arange 0 3 in
  exists coefs amp_pre amp_pos pad_pre pad_pos middle padded h,
    Np.polyfit x y = Ok coefs /\
    Np.take_first (Hilbert.sub2 y (Np.polyval x coefs)) = Ok amp_pre /\
    Np.take_last (Hilbert.sub2 y (Np.polyval x coefs)) = Ok amp_pos /\
    length pad_pre = 3 /\ length pad_pos = 3 /\
    (forall i, i < 3 ->
       pad_pos !! i
       = Some ((fun a => a * Reference.exp_cubic (- inject_Z (Z.of_nat i) / inject_Z 3
                                                  / (1 # 5)))%Q <$> amp_pos)) /\
    (forall i, i < 3 ->
       pad_pre !! i
       = Some ((fun a => a * Reference.exp_cubic (- inject_Z (Z.of_nat (3 - 1 - i))
                                                  / inject_Z 3 / (1 # 5)))%Q
                 <$> amp_pre)) /\
    Forall2 (Forall2 Qeq) middle y /\
    padded
    = Hilbert.add2 pad_pre (Np.polyval (Np.arange (- 3) 0) coefs)
      ++ middle
      ++ Hilbert.add2 pad_pos (Np.polyval (Np.arange 3 (2 * 3)) coefs) /\
    length padded = 3 * 3 /\
    Hilbert.pad_exp (H := Reference.backend) y (1 # 5) = Ok padded /\
    Reference.hilbert_real padded = Ok h /\
    Hilbert.hilbert_transform_with_padding (H := Reference.backend) y (Some "exp") (1 # 5)
    = Ok (Np.slice 3 (2 * 3) h) /\
    Np.slice 3 (2 * 3) h = take 3 (drop 3 h) /\
    length (Np.slice 3 (2 * 3) h) = 3.
Proof.
  apply (hilbert_exp_padding_spec (H := Reference.backend) Examples.series3 (1 # 5) 1).
  - discriminate.
  - by repeat constructor.
  - discriminate.
  - exact reference_hilbert_contract.
Defined.

Lemma hilbert_transform_returns `{NumericBackend} (data : Xr.DataArray2 Q)
    (dim : string) (padding : option string) (decay_factor : Q) :
  hilbert_contract ->
  Xr.dims data = ("sample", "feature") -> Np.transpose (Xr.values data) <> [] ->
  exists r,
    Hilbert.hilbert_transform data dim padding decay_factor = Ok r /\
    Xr.dims r = ("feature", "sample") /\
    length (Xr.values r) = length (Np.transpose (Xr.values data)).
Proof.
  intros Hh Hdims Hne.
  unfold Hilbert.hilbert_transform, Xr.apply_ufunc_core1, Xr.as_dims.
  rewrite Hdims. simpl.
  destruct (hilbert_transform_with_padding_returns
              (Np.transpose (Xr.values data)) padding decay_factor Hh Hne)
    as (r & -> & Hlen).
  simpl. by eexists.
Qed.

(** C7, amended.  On a two-dimensional array, one row per sample, the
    analytic-signal routine validates nothing itself.  With at least one sample
    it returns a result of the same length, for every padding and every
    [decay_factor], zero and negative ones included.  It fails on an array of
    no sample, and only there, inside the library: with exponential padding in
    the linear fit, with its [TypeError]; with another padding in
    [scipy.signal.hilbert], with the error that it raises on an empty input
    (a [ValueError]).  The labelled wrapper [hilbert_transform] returns
    whenever the array it hands over is not empty.  (At [decay_factor] = 0
    NumPy's kernel holds infinities and NaN, which the rational arrays do not
    represent; the statement is about the outcome, not the entries.  A
    one-dimensional array is not covered.) *)
Theorem analytic_signal_without_validation `{NumericBackend}
    (y : list (list Q)) (padding : option string) (decay_factor : Q) :
  hilbert_contract ->
  (y <> [] ->
   exists r,
     Hilbert.hilbert_transform_with_padding y padding decay_factor = Ok r /\
     length r = length y) /\
  Hilbert.hilbert_transform_with_padding [] (Some "exp") decay_factor = Raise TypeError /\
  (forall e, signal_hilbert [] = Raise e ->
     (padding <> Some "exp" ->
      Hilbert.hilbert_transform_with_padding [] padding decay_factor = Raise e) /\
     (is_ok (Hilbert.hilbert_transform_with_padding y padding decay_factor) = true
      <-> y <> [])) /\
  (forall (data : Xr.DataArray2 Q) (dim : string),
     Xr.dims data = ("sample", "feature") -> Np.transpose (Xr.values data) <> [] ->
     exists r, Hilbert.hilbert_transform data dim padding decay_factor = Ok r).
Proof.
  intros Hh.
  assert (Hempty : forall e, signal_hilbert [] = Raise e -> padding <> Some "exp" ->
            Hilbert.hilbert_transform_with_padding [] padding decay_factor = Raise e).
  { intros e He Hp. unfold Hilbert.hilbert_transform_with_padding.
    rewrite decide_False by done. cbn [bind]. by rewrite He. }
  split_and!.
  - by apply hilbert_transform_with_padding_returns.
  - reflexivity.
  - intros e He. split; [by apply Hempty |]. split.
    + intros Hok ->. destruct (decide (padding = Some "exp")) as [->|Hp].
      * discriminate Hok.
      * by rewrite (Hempty e He Hp) in Hok.
    + intros Hne.
      by destruct (hilbert_transform_with_padding_returns y padding decay_factor Hh Hne)
        as (r & -> & _).
  - intros data dim Hdims Hne.
    destruct (hilbert_transform_returns data dim padding decay_factor Hh Hdims Hne)
      as (r & Hr & _). by exists r.
Qed.

Lemma checking_hilbert_contract : hilbert_contract (H := Standins.checking_backend).
Proof.
  intros [|row y] Hne; [done |]. eexists. split; [reflexivity |].
  by rewrite length_fmap.
Qed.

Lemma analytic_signal_without_validation_witness :
  (exists r,
     Hilbert.hilbert_transform_with_padding (H := Standins.checking_backend)
       [[5]]%Q (Some "exp") (- 1 # 5) = Ok r /\
     length r = 1) /\
  Hilbert.hilbert_transform_with_padding (H := Standins.checking_backend)
    [] None (1 # 5) = Raise ValueError.
Proof.
  split.
  - apply (proj1 (analytic_signal_without_validation (H := Standins.checking_backend)
                    [[5]]%Q (Some "exp") (- 1 # 5) checking_hilbert_contract)).
    discriminate.
  - apply (proj2 (proj2 (analytic_signal_without_validation
                           (H := Standins.checking_backend)
                           [[5]]%Q None (1 # 5) checking_hilbert_contract))).
    + reflexivity.
    + discriminate.
Defined.

(** C7 as stated fails: a single sample, and a negative or zero
    [decay_factor], are accepted and a result comes back. *)
Lemma analytic_signal_accepts_invalid_input :
  Hilbert.hilbert_transform_with_padding (H := Reference.backend)
    [[5]]%Q (Some "exp") (1 # 5) = Ok [[(5, 0)]]%Q /\
  is_ok (Hilbert.hilbert_transform_with_padding (H := Reference.backend)
           Examples.series3 (Some "exp") (- 1 # 5)) = true /\
  is_ok (Hilbert.hilbert_transform_with_padding (H := Reference.backend)
           Examples.series3 (Some "exp") 0) = true.
Proof. split_and!; vm_compute; reflexivity. Qed.

(* ===================================================================== *)
(** * Part III. Further properties of the code *)
(* ===================================================================== *)

(** ** Sample and feature dimensions *)

Lemma filter_sample_dims (dims sample_dims : list string) :
  filter (fun d => ~ (d ∉ sample_dims)) dims = filter (fun d => d ∈ sample_dims) dims.
Proof.
  apply list_filter_iff. intros d. split; [| tauto].
  intros Hnn. by destruct (decide (d ∈ sample_dims)).
Qed.

(** X1.  [_get_feature_dims] splits the dimensions of an xarray object: the
    feature dimensions are the dimensions that are not sample dimensions, in the
    order of the object; together with the sample dimensions the object has they
    are all its dimensions. A sample dimension the object lacks is no error, it
    is passed over. *)
Theorem feature_dims_partition (data : Dimensions.Object) (dims sample_dims : list string) :
  Dimensions.dims_of data = Ok dims ->
  exists feature_dims,
    Dimensions.get_feature_dims data sample_dims = Ok feature_dims /\
    sublist feature_dims dims /\
    (forall d, d ∈ feature_dims <-> d ∈ dims /\ d ∉ sample_dims) /\
    feature_dims ++ filter (fun d => d ∈ sample_dims) dims ≡ₚ dims.
Proof.
  intros Hd. unfold Dimensions.get_feature_dims. rewrite Hd. cbn [bind].
  eexists. split; [reflexivity |]. split_and!.
  - apply sublist_filter.
  - intros d. rewrite list_elem_of_filter. tauto.
  - rewrite <- filter_sample_dims. apply filter_app_complement.
Qed.

Lemma feature_dims_partition_witness :
  exists feature_dims,
    Dimensions.get_feature_dims (Dimensions.DataArray ["time"; "lat"; "lon"]) ["time"; "run"]
    = Ok feature_dims /\
    sublist feature_dims ["time"; "lat"; "lon"] /\
    (forall d, d ∈ feature_dims <-> d ∈ ["time"; "lat"; "lon"] /\ d ∉ ["time"; "run"]) /\
    feature_dims ++ filter (fun d => d ∈ ["time"; "run"]) ["time"; "lat"; "lon"]
    ≡ₚ ["time"; "lat"; "lon"].
Proof.
  apply (feature_dims_partition (Dimensions.DataArray ["time"; "lat"; "lon"])).
  reflexivity.
Defined.

Lemma traverse_Raise_all {A B} (f : A -> result B) (l : list A) (e : exn) x :
  x ∈ l -> f x = Raise e -> (forall y e', f y = Raise e' -> e' = e) ->
  traverse f l = Raise e.
Proof.
  intros Hx Hfx Hall. induction l as [|y l IH]; [by apply elem_of_nil in Hx |].
  simpl. destruct (f y) as [b|e'] eqn:Hy; simpl.
  - apply elem_of_cons in Hx as [->|Hx]; [congruence |].
    by rewrite (IH Hx).
  - f_equal. by apply (Hall y).
Qed.

Section GetDims.
Context {SampleDims : Type} (ensure_tuple : SampleDims -> result (list string)).

(** X2.  [get_dims] on a Python list: when every item is an xarray object the
    answer has one tuple of feature dimensions per item, none of which holds a
    sample dimension; an item of another type gets past the type check of
    [get_dims] and fails with [AttributeError], not with the [TypeError] that an
    argument of a wrong type gets. *)
Theorem get_dims_of_list (items : list Dimensions.Object) (given : SampleDims)
    (sample_dims : list string) :
  ensure_tuple given = Ok sample_dims ->
  (Forall (fun x => x <> Dimensions.Other) items ->
   exists feature_dims,
     Dimensions.get_dims ensure_tuple (Dimensions.DataList items) given
     = Ok (sample_dims, Dimensions.Many feature_dims) /\
     Forall2 (fun x fd => Dimensions.get_feature_dims x sample_dims = Ok fd) items feature_dims /\
     Forall (fun fd => forall d, d ∈ fd -> d ∉ sample_dims) feature_dims) /\
  (Dimensions.Other ∈ items ->
   Dimensions.get_dims ensure_tuple (Dimensions.DataList items) given = Raise AttributeError) /\
  Dimensions.get_dims ensure_tuple (Dimensions.Single Dimensions.Other) given = Raise TypeError.
Proof.
  intros Hs. split_and!; [| | reflexivity].
  - intros Hall. unfold Dimensions.get_dims. rewrite Hs. cbn [bind].
    destruct (traverse_total (fun da => Dimensions.get_feature_dims da sample_dims) items)
      as [fds Hfds].
    { eapply Forall_impl; [exact Hall |]. intros [d|d|] Hx; [by eexists.. | done]. }
    rewrite Hfds. cbn [bind]. exists fds. split; [done |].
    apply traverse_Ok_Forall2 in Hfds. split; [done |].
    apply Forall_forall. intros fd Hfd.
    apply list_elem_of_lookup in Hfd as [i Hi].
    destruct (Forall2_lookup_r _ _ _ _ _ Hfds Hi) as (x & _ & Hx).
    unfold Dimensions.get_feature_dims in Hx. destruct (Dimensions.dims_of x); [| done].
    injection Hx as <-. intros d Hd%list_elem_of_filter. tauto.
  - intros Hin. unfold Dimensions.get_dims. rewrite Hs. cbn [bind].
    rewrite (traverse_Raise_all _ items AttributeError Dimensions.Other); [done.. |].
    intros [d|d|] e'; cbv [Dimensions.get_feature_dims Dimensions.dims_of bind]; intros [=]; done.
Qed.

End GetDims.

Lemma get_dims_of_list_witness :
  exists feature_dims,
    Dimensions.get_dims (fun names : list string => Ok names)
      (Dimensions.DataList
         [Dimensions.DataArray ["time"; "lat"]; Dimensions.Dataset ["lon"; "time"]])
      ["time"]
    = Ok (["time"], Dimensions.Many feature_dims) /\
    Forall2 (fun x fd => Dimensions.get_feature_dims x ["time"] = Ok fd)
      [Dimensions.DataArray ["time"; "lat"]; Dimensions.Dataset ["lon"; "time"]] feature_dims /\
    Forall (fun fd => forall d, d ∈ fd -> d ∉ ["time"]) feature_dims.
Proof.
  apply (proj1 (get_dims_of_list (fun names : list string => Ok names)
                  [Dimensions.DataArray ["time"; "lat"]; Dimensions.Dataset ["lon"; "time"]]
                  ["time"] ["time"] eq_refl)).
  repeat constructor; discriminate.
Defined.

(** ** The labelled Hilbert transform *)

Section HilbertWrapper.
Context `{NumericBackend}.

(** X3.  [hilbert_transform] never looks at its argument [dim]: the core
    dimension is the one named [sample], and an array that has no dimension of
    that name is refused with [ValueError], whatever [dim] says. *)
Theorem hilbert_transform_ignores_dim (data : Xr.DataArray2 Q) (dim dim' : string)
    (padding : option string) (decay_factor : Q) :
  Hilbert.hilbert_transform data dim padding decay_factor
  = Hilbert.hilbert_transform data dim' padding decay_factor /\
  ((Xr.dims data).1 <> "sample" -> (Xr.dims data).2 <> "sample" ->
   Hilbert.hilbert_transform data dim padding decay_factor = Raise ValueError).
Proof.
  split; [reflexivity |]. intros H1 H2.
  unfold Hilbert.hilbert_transform, Xr.apply_ufunc_core1, Xr.as_dims.
  destruct data as [[d1 d2] v]; simpl in *.
  rewrite (decide_False (P := d1 = "sample")) by done.
  rewrite decide_False by congruence. rewrite decide_False by congruence. done.
Qed.

(** X4.  A padding other than ['exp'] (none, or a name the routine does not
    know) is not refused: the routine then is [scipy.signal.hilbert] on the
    input as it is, and [decay_factor] plays no part. *)
Theorem padding_other_than_exp (y : list (list Q)) (padding : option string)
    (decay_factor decay_factor' : Q) :
  padding <> Some "exp" ->
  Hilbert.hilbert_transform_with_padding y padding decay_factor = signal_hilbert y /\
  Hilbert.hilbert_transform_with_padding y padding decay_factor
  = Hilbert.hilbert_transform_with_padding y padding decay_factor'.
Proof.
  intros Hp. unfold Hilbert.hilbert_transform_with_padding.
  destruct (decide (padding = Some "exp")) as [E|_]; [done |]. cbn [bind].
  split; [by destruct (signal_hilbert y) | reflexivity].
Qed.

(** X5.  The wrapper declares [sample] as the only core dimension, so the
    routine receives the array with [sample] as its last axis: for data of S
    samples and F features it works on F rows of S entries. Its [n_samples] is
    F, the exponential pads are F rows before and F rows after,
    [scipy.signal.hilbert] is run along the features, and the result is labelled
    (feature, sample). *)
Theorem hilbert_transform_runs_along_features (data : Xr.DataArray2 Q) (dim : string)
    (decay_factor : Q) (S F : nat) :
  hilbert_contract ->
  Xr.dims data = ("sample", "feature") ->
  length (Xr.values data) = S ->
  Forall (fun row => length row = F) (Xr.values data) ->
  0 < S -> 0 < F ->
  exists padded h,
    length (Np.transpose (Xr.values data)) = F /\
    Forall (fun row => length row = S) (Np.transpose (Xr.values data)) /\
    Hilbert.pad_exp (Np.transpose (Xr.values data)) decay_factor = Ok padded /\
    length padded = 3 * F /\
    signal_hilbert padded = Ok h /\
    Hilbert.hilbert_transform data dim (Some "exp") decay_factor
    = Ok {| Xr.dims := ("feature", "sample"); Xr.values := Np.slice F (2 * F) h |}.
Proof.
  intros Hh Hdims HS Hrect HposS HposF.
  set (y := Np.transpose (Xr.values data)).
  assert (Hne : Xr.values data <> []) by (intros E; rewrite E in HS; simpl in HS; lia).
  assert (HF : length y = F) by (by apply transpose_width).
  assert (Hy : y <> []) by (intros E; rewrite E in HF; simpl in HF; lia).
  destruct (pad_exp_Ok y decay_factor Hy)
    as (coefs & amp_pre & amp_pos & _ & _ & _ & Hano & _ & _ & Hpad).
  pose proof (padded_length y decay_factor coefs amp_pre amp_pos Hano) as Hlen.
  match type of Hpad with _ = Ok ?p => set (padded := p) in * end.
  destruct (Hh padded) as (h & Hhil & _).
  { intros E. rewrite E in Hlen. simpl in Hlen. lia. }
  exists padded, h. split_and!; try done.
  - unfold y, Np.transpose. apply Forall_fmap, Forall_forall.
    intros j Hj%elem_of_seq; simpl.
    assert (Hw : length (default [] (head (Xr.values data))) = F).
    { destruct (Xr.values data) as [|r rows]; [done |]. by apply Forall_inv in Hrect. }
    rewrite Hw in Hj. rewrite <- HS. clear -Hrect Hj.
    induction Hrect as [|row rows Hrow _ IH]; [done |]. csimpl.
    destruct (lookup_lt_is_Some_2 row j) as [x ->]; [lia |]. simpl. by rewrite IH.
  - by rewrite Hlen, HF.
  - unfold Hilbert.hilbert_transform, Xr.apply_ufunc_core1, Xr.as_dims.
    rewrite Hdims. simpl. fold y.
    unfold Hilbert.hilbert_transform_with_padding.
    rewrite decide_True by done. rewrite Hpad. cbn [bind]. rewrite Hhil. cbn [bind].
    rewrite decide_True by done. by rewrite HF.
Qed.

End HilbertWrapper.

Lemma padding_other_than_exp_witness :
  Hilbert.hilbert_transform_with_padding (H := Reference.backend)
    Examples.series3 (Some "linear") (1 # 5)
  = Reference.hilbert_real Examples.series3 /\
  Hilbert.hilbert_transform_with_padding (H := Reference.backend)
    Examples.series3 (Some "linear") (1 # 5)
  = Hilbert.hilbert_transform_with_padding (H := Reference.backend)
      Examples.series3 (Some "linear") (1 # 2).
Proof.
  apply (padding_other_than_exp (H := Reference.backend)
           Examples.series3 (Some "linear") (1 # 5) (1 # 2)).
  discriminate.
Defined.

Lemma hilbert_transform_runs_along_features_witness :
  exists padded h,
    length (Np.transpose (Xr.values Examples.field1)) = 2 /\
    Forall (fun row => length row = 2) (Np.transpose (Xr.values Examples.field1)) /\
    Hilbert.pad_exp (H := Reference.backend)
      (Np.transpose (Xr.values Examples.field1)) (1 # 5) = Ok padded /\
    length padded = 3 * 2 /\
    Reference.hilbert_real padded = Ok h /\
    Hilbert.hilbert_transform (H := Reference.backend) Examples.field1 "time"
      (Some "exp") (1 # 5)
    = Ok {| Xr.dims := ("feature", "sample"); Xr.values := Np.slice 2 (2 * 2) h |}.
Proof.
  apply (hilbert_transform_runs_along_features (H := Reference.backend)
           Examples.field1 "time" (1 # 5) 2 2).
  - exact reference_hilbert_contract.
  - reflexivity.
  - reflexivity.
  - by repeat constructor.
  - lia.
  - lia.
Defined.

(** ** What [fit] leaves in the rotator *)

Section FitFacts.
Context `{NumericBackend}.
Import Rotator.

Lemma take_min_length {A} (n : nat) (a : list A) :
  take (n `min` length a) a = take n a.
Proof.
  destruct (decide (n <= length a)) as [Hle|Hgt].
  - by rewrite Nat.min_l.
  - rewrite Nat.min_r by lia. by rewrite !take_ge by lia.
Qed.

(** X6.  [fit] rotates the leading modes of the decomposition, as many as
    [n_modes] asks for and the decomposition has: the label slice
    [sel(mode=slice(1, n_modes))] keeps the first min(n_modes, available) modes
    of the components and of the explained variance, and the fitted rotator
    holds that many modes.  The statement is for at least two such modes, the
    rotation engine refusing fewer, and for a well-shaped answer of the engine
    on their loadings. *)
Theorem fit_keeps_leading_modes (self : Rotator.Rotator) (m : Rotator.EOFModel)
    (available : nat) :
  length (Rotator.m_components m) = available ->
  length (Rotator.m_explained_variance m) = available ->
  let n_modes := Rotator.n_modes (Rotator.params self) in
  let kept := Z.to_nat n_modes `min` available in
  2 <= kept ->
  well_shaped_rotation (Rotator.params self)
    (Xr.mul_mode (take kept (Rotator.m_components m))
                 (np_sqrt <$> take kept (Rotator.m_explained_variance m))) ->
  Xr.sel_mode_slice 1 n_modes (Rotator.m_components m)
  = take kept (Rotator.m_components m) /\
  Xr.sel_mode_slice 1 n_modes (Rotator.explained_variance m)
  = take kept (Rotator.m_explained_variance m) /\
  exists fitted p,
    Methods.fit self m = Ok fitted /\
    Rotator.data fitted !! "idx_modes_sorted" = Some (Rotator.Index p) /\
    p ≡ₚ seq 0 kept.
Proof.
  intros Hc He n kept _ Hshape.
  assert (Hsel : forall a : list (list Q), length a = available ->
            Xr.sel_mode_slice 1 n a = take kept a).
  { intros a Ha. rewrite sel_mode_slice_take. unfold kept.
    by rewrite <- Ha, take_min_length. }
  assert (Hsel' : Xr.sel_mode_slice 1 n (m_explained_variance m)
                  = take kept (m_explained_variance m)).
  { rewrite sel_mode_slice_take. unfold kept. by rewrite <- He, take_min_length. }
  split; [by apply Hsel |]. split; [exact Hsel' |].
  destruct (fit_succeeds self m) as (fitted & p & Hfit & Hp & Hperm).
  - unfold explained_variance. fold n. by rewrite Hsel, Hsel'.
  - exists fitted, p. split_and!; [done.. |].
    rewrite Hperm. unfold explained_variance. fold n. rewrite Hsel, Hsel' by done.
    unfold Xr.mul_mode.
    rewrite length_zip_with, length_fmap, !length_take, Hc, He.
    by replace ((kept `min` available) `min` (kept `min` available)) with kept
      by (unfold kept; lia).
Qed.

Lemma explained_variance_nonneg (L : list (list Q)) x :
  x ∈ Loadings.explained_variance L -> (0 <= x)%Q.
Proof.
  unfold Loadings.explained_variance.
  intros (col & -> & _)%list_elem_of_fmap.
  induction col as [|y col IH]; csimpl; [done |].
  apply Qle_trans with (0 + 0)%Q; [done |].
  apply Qplus_le_compat; [| exact IH].
  simpl.
  apply Qmult_le_0_compat; apply Qabs_nonneg.
Qed.

(** X7.  After [fit] the stored explained variance is in descending order along
    [mode]: it is the per-mode variance of the rotated loadings taken in the
    order of the stored permutation, non-negative, and the stored norms are
    computed from it, [(expvar * (n_samples - 1)) ** 0.5]. *)
Theorem fitted_explained_variance_descending (self fitted : Rotator.Rotator)
    (m : Rotator.EOFModel) :
  Methods.fit self m = Ok fitted ->
  exists expvar p,
    Rotator.data fitted !! "explained_variance" = Some (Rotator.ByMode1 expvar) /\
    Rotator.data fitted !! "idx_modes_sorted" = Some (Rotator.Index p) /\
    length expvar = length p /\
    (forall a b x y, a < b -> expvar !! a = Some x -> expvar !! b = Some y -> (y <= x)%Q) /\
    (forall x, x ∈ expvar -> (0 <= x)%Q) /\
    Rotator.data fitted !! "norms"
    = Some (Rotator.ByMode1
              ((fun e => np_power_half
                           (e * inject_Z (Z.of_nat (length (Rotator.m_input_data m)) - 1)))
                 <$> expvar)).
Proof.
  intros Hfit. unfold Methods.fit, fit_algorithm in Hfit.
  destruct (promax _ _ _ _) as [[L R] Phi].
  repeat bind_Ok Hfit. injection Hfit as <-.
  set (v := Loadings.explained_variance L) in *.
  match goal with
  | Hsel : Xr.isel (Loadings.idx_sort v) v = Ok ?expvar |- _ =>
      exists expvar, (Loadings.idx_sort v); rename Hsel into E
  end.
  simpl. split_and!; try by simplify_map_eq.
  - by apply isel_length in E.
  - intros i j x y Hij Hx Hy. apply isel_Ok in E.
    destruct (Forall2_lookup_r _ _ _ _ _ E Hx) as (pi & Hpi & Hvx).
    destruct (Forall2_lookup_r _ _ _ _ _ E Hy) as (pj & Hpj & Hvy).
    pose proof (idx_sort_descending v i j pi pj Hij Hpi Hpj) as Hle.
    unfold Np.key in Hle. by rewrite Hvx, Hvy in Hle.
  - intros x Hx. apply list_elem_of_lookup in Hx as [i Hi]. apply isel_Ok in E.
    destruct (Forall2_lookup_r _ _ _ _ _ E Hi) as (pi & _ & Hvx).
    apply (explained_variance_nonneg L). apply list_elem_of_lookup. eauto.
Qed.

(** X8.  An oblique rotation ([power] > 1) needs the inverse of the rotation
    matrix: when [np.linalg.inv] refuses the matrix that [promax] returned,
    [fit] raises that very error and no rotator is fitted. *)
Theorem fit_singular_rotation (self : Rotator.Rotator) (m : Rotator.EOFModel)
    (L : list (list Q)) (R Phi : Xr.DataArray2 Q) (e : exn) :
  let p := Rotator.params self in
  let n := Rotator.n_modes p in
  promax (Xr.mul_mode (Xr.sel_mode_slice 1 n (Rotator.m_components m))
                      (np_sqrt <$> Xr.sel_mode_slice 1 n (Rotator.explained_variance m)))
         (Rotator.power p) (Rotator.max_iter p) (Rotator.rtol p)
  = (L, R, Phi) ->
  (Rotator.power p > 1)%Z ->
  Xr.dims R = ("mode_m", "mode_n") ->
  linalg_inv (Xr.values R) = Raise e ->
  Methods.fit self m = Raise e.
Proof.
  intros p n Hpromax Hpower Hdims Hinv. unfold Methods.fit, fit_algorithm.
  fold p. fold n.
  rewrite Hpromax.
  set (v := Loadings.explained_variance L).
  assert (Hlen : length v = length L).
  { unfold v, Loadings.explained_variance. by rewrite length_fmap. }
  destruct (isel_in_range (Loadings.idx_sort v) v) as [v' ->];
    [by apply idx_sort_in_range |].
  destruct (isel_in_range (Loadings.idx_sort v) L) as [L' ->];
    [by apply idx_sort_in_range |].
  cbn [bind]. unfold compute_rot_mat_inv_trans.
  rewrite decide_True by done.
  unfold Xr.apply_ufunc_core2, Xr.as_dims. rewrite Hdims.
  rewrite decide_True by done. cbn [bind]. by rewrite Hinv.
Qed.

End FitFacts.

Lemma fit_keeps_leading_modes_witness :
  Xr.sel_mode_slice 1 2 (Rotator.m_components Standins.model3)
  = take 2 (Rotator.m_components Standins.model3) /\
  Xr.sel_mode_slice 1 2 (Rotator.explained_variance Standins.model3)
  = take 2 (Rotator.m_explained_variance Standins.model3) /\
  exists fitted p,
    Methods.fit (H := Reference.backend) Examples.oblique2 Standins.model3
    = Ok fitted /\
    Rotator.data fitted !! "idx_modes_sorted" = Some (Rotator.Index p) /\
    p ≡ₚ seq 0 2.
Proof.
  apply (fit_keeps_leading_modes (H := Reference.backend)
           Examples.oblique2 Standins.model3 3).
  - reflexivity.
  - reflexivity.
  - simpl. lia.
  - unfold well_shaped_rotation. simpl.
    split_and!; [reflexivity | repeat constructor; discriminate | reflexivity | | ].
    + split; [reflexivity | by repeat constructor].
    + right. eexists. split; [vm_compute; reflexivity |].
      split; [reflexivity | by repeat constructor].
Defined.

Lemma fitted_explained_variance_descending_witness :
  exists expvar p,
    Rotator.data Examples.fitted2 !! "explained_variance"
    = Some (Rotator.ByMode1 expvar) /\
    Rotator.data Examples.fitted2 !! "idx_modes_sorted" = Some (Rotator.Index p) /\
    length expvar = length p /\
    (forall a b x y, a < b -> expvar !! a = Some x -> expvar !! b = Some y -> (y <= x)%Q) /\
    (forall x, x ∈ expvar -> (0 <= x)%Q) /\
    Rotator.data Examples.fitted2 !! "norms"
    = Some (Rotator.ByMode1
              ((fun e => Reference.sqrt_floor
                           (e * inject_Z (Z.of_nat
                                  (length (Rotator.m_input_data Examples.model2)) - 1)))
                 <$> expvar)).
Proof.
  apply (fitted_explained_variance_descending (H := Reference.backend)
           Examples.oblique2 Examples.fitted2 Examples.model2).
  exact fitted2_ok.
Defined.

Lemma fit_singular_rotation_witness :
  Methods.fit (H := Standins.singular_backend) Examples.oblique2 Examples.model2
  = Raise LinAlgError.
Proof.
  eapply (fit_singular_rotation (H := Standins.singular_backend)
            Examples.oblique2 Examples.model2).
  - reflexivity.
  - simpl. lia.
  - reflexivity.
  - vm_compute. reflexivity.
Defined.

(** ** Methods found through the MRO *)

(** X9.  [fit_transform] is not available on either rotator: [EOFRotator]
    defines it to raise the "not implemented" error, and [ComplexEOFRotator],
    which does not define it, finds that definition first along its MRO,
    whatever [EOF] and [ComplexEOF] define. *)
Theorem rotators_have_no_fit_transform
    (in_EOF in_ComplexEOF : option Methods.fit_transform_method)
    (self : Rotator.Rotator) (model : Rotator.EOFModel) :
  Methods.call_fit_transform in_EOF in_ComplexEOF Classes.EOFRotator self model
  = Raise NotImplementedError /\
  Methods.call_fit_transform in_EOF in_ComplexEOF Classes.ComplexEOFRotator self model
  = Raise NotImplementedError.
Proof. split; reflexivity. Qed.

(** ** [transform] works sample by sample *)

Section TransformBySample.
Context `{NumericBackend}.
Import Rotator.

Lemma div_mode_dot_feature (d comps : list (list Q)) (sv : list Q) :
  Xr.div_mode (Xr.dot_feature d comps) sv
  = (fun cs : list Q * Q =>
       (fun row => (Np.sum (zip_with Qmult row cs.1) / cs.2)%Q) <$> d) <$> zip comps sv.
Proof.
  unfold Xr.div_mode, Xr.dot_feature. revert sv.
  induction comps as [|c comps IH]; intros [|s sv]; csimpl; try done.
  rewrite IH. f_equal. by rewrite <- list_fmap_compose.
Qed.

Lemma omap_lookup_by_row {A B C} (f : C -> A -> B) (G : list C) (d : list A) j x :
  d !! j = Some x ->
  omap (fun r : list B => r !! j) ((fun c => f c <$> d) <$> G) = (fun c => f c x) <$> G.
Proof.
  intros Hx. induction G as [|c G IH]; csimpl; [done |].
  by rewrite list_lookup_fmap, Hx, IH.
Qed.

Lemma transpose_by_row {A B C} (f : C -> A -> B) (c0 : C) (G : list C) (d : list A) :
  Np.transpose ((fun c => f c <$> d) <$> (c0 :: G))
  = (fun x => (fun c => f c x) <$> (c0 :: G)) <$> d.
Proof.
  unfold Np.transpose. rewrite (fmap_cons (fun c => f c <$> d)).
  cbn [head default id]. rewrite length_fmap.
  apply list_eq. intros j. rewrite !list_lookup_fmap.
  destruct (d !! j) as [x|] eqn:Hx.
  - rewrite lookup_seq_lt by (by eapply lookup_lt_Some). cbn [fmap option_fmap option_map].
    f_equal. by apply (omap_lookup_by_row f (c0 :: G)).
  - apply lookup_ge_None in Hx. by rewrite lookup_seq_ge by lia.
Qed.

(** The unrotated, normalised scores by sample. *)
Lemma by_sample_app (comps : list (list Q)) (sv : list Q) (d1 d2 : list (list Q)) :
  Np.transpose (Xr.div_mode (Xr.dot_feature (d1 ++ d2) comps) sv)
  = Np.transpose (Xr.div_mode (Xr.dot_feature d1 comps) sv)
    ++ Np.transpose (Xr.div_mode (Xr.dot_feature d2 comps) sv).
Proof.
  rewrite !div_mode_dot_feature. destruct (zip comps sv) as [|c0 G]; [done |].
  rewrite !(transpose_by_row
              (fun (cs : list Q * Q) row => (Np.sum (zip_with Qmult row cs.1) / cs.2)%Q)).
  apply fmap_app.
Qed.

Lemma fmap_rows_app {A B C} (f : C -> A -> B) (T : list C) (l1 l2 : list A) :
  (fun c => f c <$> (l1 ++ l2)) <$> T
  = zip_with app ((fun c => f c <$> l1) <$> T) ((fun c => f c <$> l2) <$> T).
Proof. induction T as [|c T IH]; csimpl; [done |]. by rewrite fmap_app, IH. Qed.

Lemma isel_zip_with_app {A} (idx : list nat) (a b ra rb : list (list A)) :
  Xr.isel idx a = Ok ra -> Xr.isel idx b = Ok rb ->
  Xr.isel idx (zip_with app a b) = Ok (zip_with app ra rb).
Proof.
  rewrite !isel_Ok. revert ra rb.
  induction idx as [|i idx IH]; intros ra rb Ha Hb.
  - apply Forall2_nil_inv_l in Ha as ->. constructor.
  - apply Forall2_cons_inv_l in Ha as (x & ra' & Hx & Ha & ->).
    apply Forall2_cons_inv_l in Hb as (y & rb' & Hy & Hb & ->).
    simpl. constructor; [| by apply IH].
    by rewrite lookup_zip_with, Hx, Hy.
Qed.

Lemma mul_mode_zip_with_app (a b : list (list Q)) (v : list Q) :
  Xr.mul_mode (zip_with app a b) v
  = zip_with app (Xr.mul_mode a v) (Xr.mul_mode b v).
Proof.
  unfold Xr.mul_mode. revert b v.
  induction a as [|x a IH]; intros [|y b] [|s v]; csimpl; try done.
  by rewrite fmap_app, IH.
Qed.

(** X10.  [transform] treats every sample on its own: the scores of two batches
    of samples put one after the other are the scores of the first batch
    followed, mode by mode, by the scores of the second. *)
Theorem transform_of_concatenated_samples (self : Rotator.Rotator)
    (data1 data2 scores1 scores2 : list (list Q)) :
  Rotator.transform_algorithm self data1 = Ok scores1 ->
  Rotator.transform_algorithm self data2 = Ok scores2 ->
  Rotator.transform_algorithm self (data1 ++ data2) = Ok (zip_with app scores1 scores2).
Proof.
  unfold transform_algorithm. intros H1 H2.
  destruct (match model self with Some m => Ok m | None => Raise AttributeError end)
    as [m|]; [| done]. cbn [bind] in *.
  destruct (let* v := data_get (data self) "norms" in by_mode1 v)
    as [pseudo_norms|]; [| done]. cbn [bind] in *.
  destruct (let* v := data_get (data self) "rotation_matrix" in matrix v)
    as [R|]; [| done]. cbn [bind] in *.
  destruct (compute_rot_mat_inv_trans _ _ _ _ _) as [RinvT|]; [| done]. cbn [bind] in *.
  destruct (Xr.rename _ _ _) as [RinvT'|]; [| done]. cbn [bind] in *.
  unfold Xr.dot_mode_m in *.
  destruct (Xr.as_dims _ RinvT') as [mat|]; [| done]. cbn [bind] in *.
  destruct (let* v := data_get (data self) "idx_modes_sorted" in index_values v)
    as [idx|]; [| done]. cbn [bind] in *.
  bind_Ok H1. bind_Ok H2.
  destruct (let* v := data_get (data self) "modes_sign" in by_mode1 v)
    as [signs|]; [| done]. cbn [bind] in *.
  injection H1 as <-. injection H2 as <-.
  rewrite by_sample_app, fmap_rows_app.
  rewrite (isel_zip_with_app _ _ _ _ _ E E0). cbn [bind].
  by rewrite !mul_mode_zip_with_app.
Qed.

End TransformBySample.

Lemma transform_of_concatenated_samples_witness :
  exists scores1 scores2,
    Rotator.transform_algorithm (H := Reference.backend) Examples.fitted2
      ([[1; 2]] ++ [[3; -4]; [0; 1]])%Q
    = Ok (zip_with app scores1 scores2).
Proof.
  eexists _, _.
  apply (transform_of_concatenated_samples (H := Reference.backend) Examples.fitted2
           [[1; 2]]%Q [[3; -4]; [0; 1]]%Q).
  - vm_compute. reflexivity.
  - vm_compute. reflexivity.
Defined.

(** ** Total variance *)

Section SumFacts.
Local Open Scope Q_scope.

Lemma sum_nonneg (l : list Q) : Forall (fun x => 0 <= x) l -> 0 <= Np.sum l.
Proof.
  induction 1 as [|x l Hx _ IH]; simpl; [done |].
  apply Qle_trans with (0 + 0); [done | by apply Qplus_le_compat].
Qed.

Lemma sum_zero (l : list Q) : Forall (fun x => x == 0) l -> Np.sum l == 0.
Proof.
  induction 1 as [|x l Hx _ IH]; simpl; [done |]. rewrite Hx, IH. ring.
Qed.

Lemma sum_zero_inv (l : list Q) :
  Forall (fun x => 0 <= x) l -> Np.sum l == 0 -> Forall (fun x => x == 0) l.
Proof.
  induction 1 as [|x l Hx Hl IH]; simpl; intros Hs; [constructor |].
  pose proof (sum_nonneg l Hl) as Hnn.
  assert (Hx0 : x == 0) by lra.
  constructor; [done |]. apply IH. lra.
Qed.

Lemma square_zero (x : Q) : x * x == 0 -> x == 0.
Proof.
  intros Hx. destruct (Qmult_integral _ _ Hx); done.
Qed.

Lemma square_nonneg (x : Q) : 0 <= x * x.
Proof.
  destruct (Qlt_le_dec x 0) as [Hneg|Hpos].
  - assert (E : x * x == (- x) * (- x)) by ring. rewrite E.
    apply Qmult_le_0_compat; lra.
  - by apply Qmult_le_0_compat.
Qed.

End SumFacts.

Section TransposeFacts.
Context {K : Type}.

(** Every entry of a column of [rows.T] is an entry of a row. *)
Lemma transpose_Forall (P : K -> Prop) (rows : list (list K)) :
  Forall (Forall P) rows -> Forall (Forall P) (Np.transpose rows).
Proof.
  intros Hrows. unfold Np.transpose. apply Forall_fmap, Forall_forall.
  intros j _; simpl. clear -Hrows.
  induction Hrows as [|row rows Hrow _ IH]; csimpl; [constructor |].
  destruct (row !! j) as [x|] eqn:Hx; simpl; [| done].
  constructor; [| done].
  eapply Forall_forall; [exact Hrow |]. apply list_elem_of_lookup. eauto.
Qed.

Lemma transpose_rows_length (rows : list (list K)) (F : nat) :
  Forall (fun row => length row = F) rows ->
  Forall (fun col => length col = length rows) (Np.transpose rows).
Proof.
  intros Hrect. unfold Np.transpose. apply Forall_fmap, Forall_forall.
  intros j Hj%elem_of_seq; simpl.
  assert (Hw : length (default [] (head rows)) <= F).
  { destruct rows as [|r rows]; simpl; [lia |]. apply Forall_inv in Hrect. lia. }
  assert (HjF : j < F) by lia. clear Hj Hw.
  induction Hrect as [|row rows Hrow _ IH]; [done |]. csimpl.
  destruct (lookup_lt_is_Some_2 row j) as [x ->]; [lia |]. simpl. by rewrite IH.
Qed.

Lemma entry_eq (a b : list (list K)) (N F : nat) :
  length a = N -> length b = N ->
  Forall (fun row => length row = F) a -> Forall (fun row => length row = F) b ->
  (forall i j, i < N -> j < F -> entry a i j = entry b i j) -> a = b.
Proof.
  intros Ha Hb Hra Hrb Hentry. apply list_eq_same_length with N; [done.. |].
  intros i ra rb Hi Hia Hib.
  assert (Hla : length ra = F).
  { eapply (proj1 (Forall_forall _ _) Hra). apply list_elem_of_lookup. eauto. }
  assert (Hlb : length rb = F).
  { eapply (proj1 (Forall_forall _ _) Hrb). apply list_elem_of_lookup. eauto. }
  apply list_eq_same_length with F; [done.. |].
  intros j x y Hj Hx Hy. specialize (Hentry i j Hi Hj).
  unfold entry in Hentry. rewrite Hia, Hib in Hentry. congruence.
Qed.

(** Transposing twice gives the array again. *)
Lemma transpose_involutive (rows : list (list K)) (F : nat) :
  rows <> [] -> 0 < F -> Forall (fun row => length row = F) rows ->
  Np.transpose (Np.transpose rows) = rows.
Proof.
  intros Hne HF Hrect.
  assert (HN : 0 < length rows) by (destruct rows; [done | simpl; lia]).
  assert (HlenT : length (Np.transpose rows) = F).
  { unfold Np.transpose. rewrite length_fmap, length_seq.
    destruct rows as [|r rows]; [done |]. by apply Forall_inv in Hrect. }
  pose proof (transpose_rows_length rows F Hrect) as HrowsT.
  assert (HneT : Np.transpose rows <> []).
  { intros E. rewrite E in HlenT. simpl in HlenT. lia. }
  assert (HlenTT : length (Np.transpose (Np.transpose rows)) = length rows).
  { unfold Np.transpose at 1. rewrite length_fmap, length_seq.
    destruct (Np.transpose rows) as [|c cols]; [done |]. by apply Forall_inv in HrowsT. }
  apply (entry_eq _ _ (length rows) F); try done.
  - rewrite <- HlenT. by apply (transpose_rows_length _ (length rows)).
  - intros i j Hi Hj.
    rewrite (transpose_entry (Np.transpose rows) (length rows)) by (done || lia).
    by rewrite (transpose_entry rows F).
Qed.

End TransposeFacts.

Section TotalVariance.
Local Open Scope Q_scope.

Lemma squares_nonneg (arr : list (list Q)) :
  Forall (Forall (fun x => 0 <= x))
    ((fun row : list Q => (fun x => x * x) <$> row) <$> arr).
Proof.
  apply Forall_fmap, Forall_forall. intros row _; simpl.
  apply Forall_fmap, Forall_forall. intros x _; simpl. apply square_nonneg.
Qed.

(** X11.  The total variance is the sum over the features of the sum of squares
    over the samples, divided by the number of samples less one; the data are
    not centred first. So, for at least two samples, it is never negative, and
    it is zero for the all-zero array only: a field that is constant and not
    zero has a positive total variance. *)
Theorem total_variance_zero_iff (arr : list (list Q)) (F : nat) :
  (2 <= length arr)%nat ->
  Forall (fun row => length row = F) arr ->
  0 <= Stats.np_total_variance arr /\
  (Stats.np_total_variance arr == 0 <->
   Forall (Forall (fun x => x == 0)) arr).
Proof.
  intros HN Hrect. unfold Stats.np_total_variance, Stats.sum_axis0.
  set (sq := (fun row : list Q => (fun x => x * x) <$> row) <$> arr).
  set (k := inject_Z (Z.of_nat (length arr) - 1)).
  assert (Hk : 0 < k).
  { unfold k. change 0 with (inject_Z 0). rewrite <- Zlt_Qlt. lia. }
  assert (Hcols : Forall (Forall (fun x => 0 <= x)) (Np.transpose sq))
    by apply transpose_Forall, squares_nonneg.
  assert (Hsums : Forall (fun s => 0 <= s) (Np.sum <$> Np.transpose sq)).
  { apply Forall_fmap. eapply Forall_impl; [exact Hcols |]. apply sum_nonneg. }
  assert (HC : Forall (fun c => 0 <= c) ((fun s => s / k) <$> (Np.sum <$> Np.transpose sq))).
  { apply Forall_fmap. eapply Forall_impl; [exact Hsums |]. intros s Hs; simpl in *.
    apply Qle_shift_div_l; [done | by rewrite Qmult_0_l]. }
  split; [by apply sum_nonneg |]. split.
  - intros Hzero. apply sum_zero_inv in Hzero; [| done].
    apply Forall_forall. intros row Hrow. apply Forall_forall. intros x Hx.
    apply list_elem_of_lookup in Hrow as [i Hi].
    apply list_elem_of_lookup in Hx as [j Hj].
    assert (Hrow_len : length row = F).
    { eapply (proj1 (Forall_forall _ _) Hrect). apply list_elem_of_lookup. eauto. }
    assert (HjF : (j < F)%nat) by (rewrite <- Hrow_len; by eapply lookup_lt_Some).
    assert (Hsq : entry sq i j = Some (x * x)).
    { unfold sq. rewrite entry_fmap. unfold entry. by rewrite Hi, Hj. }
    rewrite <- (transpose_entry sq F) in Hsq.
    2:{ unfold sq. apply Forall_fmap. eapply Forall_impl; [exact Hrect |].
        intros r Hr; simpl. by rewrite length_fmap. }
    2:{ unfold sq. rewrite length_fmap. by eapply lookup_lt_Some. }
    2:{ done. }
    unfold entry in Hsq. destruct (Np.transpose sq !! j) as [col|] eqn:Hcol; [| done].
    apply square_zero.
    assert (Hcol0 : Np.sum col == 0).
    { assert (Hc : Np.sum col / k == 0).
      { eapply (proj1 (Forall_forall _ _) Hzero).
        apply list_elem_of_lookup. exists j.
        by rewrite !list_lookup_fmap, Hcol. }
      apply (Qmult_inj_r _ _ (/ k)); [| by rewrite Qmult_0_l].
      intros E. apply (Qlt_irrefl 0). rewrite <- E at 2. by apply Qinv_lt_0_compat. }
    apply sum_zero_inv in Hcol0.
    + eapply (proj1 (Forall_forall _ _) Hcol0). apply list_elem_of_lookup. eauto.
    + eapply (proj1 (Forall_forall _ _) Hcols). apply list_elem_of_lookup. eauto.
  - intros Hall. apply sum_zero. apply Forall_fmap, Forall_fmap.
    assert (Hsq0 : Forall (Forall (fun x => x == 0)) sq).
    { unfold sq. apply Forall_fmap. eapply Forall_impl; [exact Hall |].
      intros row Hrow; simpl. apply Forall_fmap. eapply Forall_impl; [exact Hrow |].
      intros x Hx; simpl. rewrite Hx. ring. }
    apply transpose_Forall in Hsq0.
    eapply Forall_impl; [exact Hsq0 |]. intros col Hcol; simpl.
    rewrite (sum_zero col Hcol). unfold Qdiv. ring.
Qed.

(** X12.  [total_variance] reads the array by the names of its dimensions:
    stored sample by sample or feature by feature, the kernel gets it as
    (sample, feature) and the result is the same; an array that lacks one of the
    two names is refused with [ValueError]. *)
Theorem total_variance_any_layout (arr : list (list Q)) (F : nat) :
  arr <> [] -> (0 < F)%nat -> Forall (fun row => length row = F) arr ->
  Stats.total_variance {| Xr.dims := ("sample", "feature"); Xr.values := arr |}
  = Ok (Stats.np_total_variance arr) /\
  Stats.total_variance {| Xr.dims := ("feature", "sample"); Xr.values := Np.transpose arr |}
  = Ok (Stats.np_total_variance arr) /\
  (forall d : string * string, d <> ("sample", "feature") -> d <> ("feature", "sample") ->
     Stats.total_variance {| Xr.dims := d; Xr.values := arr |} = Raise ValueError).
Proof.
  intros Hne HF Hrect. unfold Stats.total_variance, Xr.as_dims. simpl. split_and!.
  - done.
  - by rewrite (transpose_involutive arr F).
  - intros d Hd1 Hd2. by rewrite !decide_False.
Qed.

End TotalVariance.

Lemma total_variance_zero_iff_witness :
  (0 <= Stats.np_total_variance [[1; 2]; [3; 5]])%Q /\
  ((Stats.np_total_variance [[1; 2]; [3; 5]] == 0)%Q <->
   Forall (Forall (fun x => (x == 0)%Q)) [[1; 2]; [3; 5]]%Q).
Proof.
  apply (total_variance_zero_iff [[1; 2]; [3; 5]]%Q 2).
  - simpl. lia.
  - by repeat constructor.
Defined.

Lemma total_variance_any_layout_witness :
  Stats.total_variance Examples.field1
  = Ok (Stats.np_total_variance (Xr.values Examples.field1)) /\
  Stats.total_variance
    {| Xr.dims := ("feature", "sample");
       Xr.values := Np.transpose (Xr.values Examples.field1) |}
  = Ok (Stats.np_total_variance (Xr.values Examples.field1)) /\
  (forall d : string * string, d <> ("sample", "feature") -> d <> ("feature", "sample") ->
     Stats.total_variance {| Xr.dims := d; Xr.values := Xr.values Examples.field1 |}
     = Raise ValueError).
Proof.
  apply (total_variance_any_layout (Xr.values Examples.field1) 2).
  - discriminate.
  - lia.
  - by repeat constructor.
Defined.

(** ** Latitude weights *)

Section LatitudeWeights.
Context `{NumericBackend} `{Trigonometry}.
Local Open Scope Q_scope.

Lemma clip_range (lo hi x : Q) : lo <= hi -> lo <= Stats.clip lo hi x <= hi.
Proof.
  intros Hlh. unfold Stats.clip.
  destruct (Qle_bool lo x) eqn:E1.
  - apply Qle_bool_iff in E1. destruct (Qle_bool x hi) eqn:E2.
    + apply Qle_bool_iff in E2. done.
    + split; [done | apply Qle_refl].
  - destruct (Qle_bool lo hi) eqn:E2.
    + split; [apply Qle_refl | done].
    + split; [done | apply Qle_refl].
Qed.

(** X13.  The latitude weights keep the labels and the shape of the latitudes
    and lie between 0 and 1, both included: whatever [np.sqrt(np.cos(...))]
    gives is clipped. (Beyond the poles the cosine is negative and NumPy's
    square root is NaN, which stays NaN under [clip]; the statement is for
    latitudes whose cosine is not negative.) *)
Theorem sqrt_cos_lat_weights_range (data : Xr.DataArray2 Q) :
  Forall (Forall (fun lat => 0 <= np_cos (np_deg2rad lat))) (Xr.values data) ->
  Xr.dims (Stats.sqrt_cos_lat_weights data) = Xr.dims data /\
  Forall2 (Forall2 (fun lat w => w = Stats.clip 0 1 (np_sqrt (np_cos (np_deg2rad lat)))
                                 /\ 0 <= w <= 1))
    (Xr.values data) (Xr.values (Stats.sqrt_cos_lat_weights data)).
Proof.
  intros _. split; [reflexivity |]. simpl. unfold Stats.np_sqrt_cos_lat_weights.
  apply Forall2_fmap_r, Forall_Forall2_diag, Forall_forall. intros row _.
  apply Forall2_fmap_r, Forall_Forall2_diag, Forall_forall. intros lat _.
  split; [reflexivity | by apply clip_range].
Qed.

End LatitudeWeights.

Lemma sqrt_cos_lat_weights_range_witness :
  Xr.dims (Stats.sqrt_cos_lat_weights (H := Reference.backend)
             (H0 := Standins.trigonometry) Standins.latitudes)
  = ("lat", "lon") /\
  Forall2 (Forall2 (fun lat w =>
             w = Stats.clip 0 1
                   (Reference.sqrt_floor
                      (np_cos (Trigonometry := Standins.trigonometry)
                         (np_deg2rad (Trigonometry := Standins.trigonometry) lat)))
             /\ (0 <= w <= 1)%Q))
    (Xr.values Standins.latitudes)
    (Xr.values (Stats.sqrt_cos_lat_weights (H := Reference.backend)
                  (H0 := Standins.trigonometry) Standins.latitudes)).
Proof.
  apply (sqrt_cos_lat_weights_range (H := Reference.backend)
           (H0 := Standins.trigonometry) Standins.latitudes).
  repeat constructor; vm_compute; discriminate.
Defined.

(** ** Maximum covariance analysis *)

Section McaFacts.
Context `{NumericBackend}.
Context {AnyDataObject Dims Weights Preprocessor ScoresObject : Type}.
Context `{!RealMca.Collaborators AnyDataObject Dims Weights Preprocessor ScoresObject}.
Import RealMca.

(** X14.  In [MCA.fit] each field has its own preprocessing: the fitted left
    preprocessor and the stored left input data are those of
    [preprocessor1.fit_transform(data1, dim, weights1)]; the right field and its
    weights have no part in them. (So two fits that differ in the right field
    only agree on the left preprocessing.) *)
Theorem mca_fit_left_preprocessing (self fitted fitted' : RealMca.MCA)
    (data1 data2 data2' : AnyDataObject) (dim : Dims)
    (weights1 weights2 weights2' : option Weights) :
  RealMca.fit self data1 data2 dim weights1 weights2 = Ok fitted ->
  RealMca.fit self data1 data2' dim weights1 weights2' = Ok fitted' ->
  exists x1 c c',
    RealMca.fit_transform (RealMca.preprocessor1 self) data1 dim weights1
    = Ok (RealMca.preprocessor1 fitted, x1) /\
    RealMca.data fitted = Some c /\ RealMca.data fitted' = Some c' /\
    RealMca.input_data1 c = x1 /\ RealMca.input_data1 c' = x1 /\
    RealMca.preprocessor1 fitted' = RealMca.preprocessor1 fitted.
Proof.
  unfold fit. intros Hfit Hfit'.
  destruct (fit_transform (preprocessor1 self) _ _ _) as [[pp1 x1]|]; [| done].
  cbn [bind] in *.
  destruct (fit_transform (preprocessor2 self) data2 _ _) as [[pp2 x2]|]; [| done].
  destruct (fit_transform (preprocessor2 self) data2' _ _) as [[pp2' x2']|]; [| done].
  cbn [bind] in *.
  repeat bind_Ok Hfit. repeat bind_Ok Hfit'.
  injection Hfit as <-. injection Hfit' as <-. simpl.
  by eexists x1, _, _.
Qed.

(** X15.  The keyword arguments of [transform] that count are [data1] and
    [data2], each on its own: the result is the list of the left scores (if
    [data1] was given) followed by the right scores (if [data2] was given), each
    computed as if the other had not been given. Other keywords are ignored, and
    without [data1] and [data2] the answer is the empty list, on a model that
    has not been fitted too. *)
Theorem mca_transform_by_side (self : RealMca.MCA) (kwargs : gmap string AnyDataObject) :
  let only (key : string) : gmap string AnyDataObject :=
    match kwargs !! key with Some x => {[ key := x ]} | None => ∅ end in
  RealMca.transform self kwargs
  = (let* scores_left := RealMca.transform self (only "data1") in
     let* scores_right := RealMca.transform self (only "data2") in
     Ok (scores_left ++ scores_right)) /\
  (kwargs !! "data1" = None -> kwargs !! "data2" = None ->
   RealMca.transform self kwargs = Ok []).
Proof.
  intros only. split.
  - unfold transform, only.
    destruct (kwargs !! "data1") as [d1|], (kwargs !! "data2") as [d2|];
      simplify_map_eq; cbn [bind].
    + destruct (preprocessor_transform (preprocessor1 self) d1); [| done]. cbn [bind].
      destruct (container self); [| done]. cbn [bind].
      destruct (project _ _ _); [| done]. cbn [bind].
      destruct (inverse_transform_scores (preprocessor1 self) _); [| done]. cbn [bind].
      destruct (preprocessor_transform (preprocessor2 self) d2); [| done]. cbn [bind].
      destruct (project _ _ _); [| done]. cbn [bind].
      by destruct (inverse_transform_scores (preprocessor2 self) _).
    + destruct (preprocessor_transform (preprocessor1 self) d1); [| done]. cbn [bind].
      destruct (container self); [| done]. cbn [bind].
      destruct (project _ _ _); [| done]. cbn [bind].
      by destruct (inverse_transform_scores (preprocessor1 self) _).
    + destruct (preprocessor_transform (preprocessor2 self) d2); [| done]. cbn [bind].
      destruct (container self); [| done]. cbn [bind].
      destruct (project _ _ _); [| done]. cbn [bind].
      by destruct (inverse_transform_scores (preprocessor2 self) _).
    + done.
  - intros H1 H2. unfold transform. by rewrite H1, H2.
Qed.

(** X16.  [transform] on the fields the model was fitted on gives the scores
    that [scores()] returns, left then right, provided each fitted preprocessor
    transforms its training field into the array that [fit_transform] returned. *)
Theorem mca_transform_reproduces_scores (self fitted : RealMca.MCA)
    (data1 data2 : AnyDataObject) (dim : Dims) (weights1 weights2 : option Weights) :
  (forall pp x,
     RealMca.fit_transform (RealMca.preprocessor1 self) data1 dim weights1 = Ok (pp, x) ->
     RealMca.preprocessor_transform pp data1 = Ok x) ->
  (forall pp x,
     RealMca.fit_transform (RealMca.preprocessor2 self) data2 dim weights2 = Ok (pp, x) ->
     RealMca.preprocessor_transform pp data2 = Ok x) ->
  RealMca.fit self data1 data2 dim weights1 weights2 = Ok fitted ->
  RealMca.transform fitted (<["data1" := data1]> {["data2" := data2]})
  = (let* s := RealMca.scores fitted in Ok [s.1; s.2]).
Proof.
  intros Hpp1 Hpp2. unfold fit. intros Hfit.
  destruct (fit_transform (preprocessor1 self) _ _ _) as [[pp1 x1]|] eqn:E1; [| done].
  cbn [bind] in Hfit.
  destruct (fit_transform (preprocessor2 self) _ _ _) as [[pp2 x2]|] eqn:E2; [| done].
  cbn [bind] in Hfit.
  repeat bind_Ok Hfit. injection Hfit as <-.
  unfold transform, scores, container. simplify_map_eq. cbn [bind].
  rewrite (Hpp1 pp1 x1 eq_refl), (Hpp2 pp2 x2 eq_refl). cbn [bind].
  rewrite E0, E3. cbn [bind].
  destruct (inverse_transform_scores pp1 _); [| done]. cbn [bind].
  by destruct (inverse_transform_scores pp2 _).
Qed.

End McaFacts.

Lemma mca_fitted_ok :
  RealMca.fit (H := Reference.backend) (Collaborators0 := Standins.collaborators)
    Standins.mca Examples.field1 Examples.field2 "time" (Some 3%Q) (Some 2%Q)
  = Ok Standins.mca_fitted.
Proof. vm_compute. reflexivity. Qed.

Lemma mca_fit_left_preprocessing_witness :
  exists fitted' x1 c c',
    Reference.scale_by_weight None Examples.field1 "time" (Some 3%Q)
    = Ok (RealMca.preprocessor1 Standins.mca_fitted, x1) /\
    RealMca.data Standins.mca_fitted = Some c /\ RealMca.data fitted' = Some c' /\
    RealMca.input_data1 c = x1 /\ RealMca.input_data1 c' = x1 /\
    RealMca.preprocessor1 fitted' = RealMca.preprocessor1 Standins.mca_fitted.
Proof.
  eexists.
  apply (mca_fit_left_preprocessing (H := Reference.backend)
           (H0 := Standins.collaborators)
           Standins.mca Standins.mca_fitted _
           Examples.field1 Examples.field2 Examples.field1 "time"
           (Some 3%Q) (Some 2%Q) None).
  - exact mca_fitted_ok.
  - vm_compute. reflexivity.
Defined.

Lemma mca_transform_reproduces_scores_witness :
  RealMca.transform (Collaborators0 := Standins.collaborators)
    Standins.mca_fitted (<["data1" := Examples.field1]> {["data2" := Examples.field2]})
  = (let* s := RealMca.scores (Collaborators0 := Standins.collaborators)
                 Standins.mca_fitted in
     Ok [s.1; s.2]).
Proof.
  apply (mca_transform_reproduces_scores (H := Reference.backend)
           (H0 := Standins.collaborators)
           Standins.mca Standins.mca_fitted Examples.field1 Examples.field2 "time"
           (Some 3%Q) (Some 2%Q)).
  - intros pp x [= <- <-]. reflexivity.
  - intros pp x [= <- <-]. reflexivity.
  - exact mca_fitted_ok.
Defined.

(** ** The order of the modes of a cross decomposition *)

Section SortedModes.
Local Open Scope Q_scope.

Lemma StronglySorted_lookup_2 {A} (R : relation A) (l : list A) :
  (forall a b x y, (a < b)%nat -> l !! a = Some x -> l !! b = Some y -> R x y) ->
  StronglySorted R l.
Proof.
  induction l as [|z l IH]; intros Hl; constructor.
  - apply IH. intros a b x y Hab Ha Hb. by apply (Hl (S a) (S b)); [lia | |].
  - apply Forall_forall. intros y Hy. apply list_elem_of_lookup in Hy as [b Hb].
    by apply (Hl 0%nat (S b)); [lia | |].
Qed.

Lemma idx_sort_strictly_decreasing (v : list Q) :
  strictly_decreasing v -> Loadings.idx_sort v = seq 0 (length v).
Proof.
  intros Hdec.
  pose proof (idx_sort_in_range v (length v) eq_refl) as Hrange.
  assert (Hnodup : NoDup (Loadings.idx_sort v)).
  { rewrite idx_sort_perm. apply NoDup_seq. }
  apply (StronglySorted_unique_strong lt); [lia | | | apply idx_sort_perm].
  - apply StronglySorted_lookup_2. intros a b i j Hab Ha Hb.
    pose proof (idx_sort_pair v a b i j Hab Ha Hb) as Hpair.
    assert (Hi : (i < length v)%nat).
    { eapply (proj1 (Forall_forall _ _) Hrange). apply list_elem_of_lookup. eauto. }
    assert (Hj : (j < length v)%nat).
    { eapply (proj1 (Forall_forall _ _) Hrange). apply list_elem_of_lookup. eauto. }
    assert (Hne : i <> j).
    { intros ->. pose proof (NoDup_lookup _ _ _ _ Hnodup Ha Hb). lia. }
    destruct (decide (i < j)%nat) as [|Hge]; [done |].
    assert (Hji : (j < i)%nat) by lia.
    destruct (lookup_lt_is_Some_2 v i Hi) as [x Hx].
    destruct (lookup_lt_is_Some_2 v j Hj) as [y Hy].
    pose proof (Hdec j i y x Hji Hy Hx) as Hlt.
    unfold stable_lt, Np.key in Hpair. rewrite Hx, Hy in Hpair. simpl in Hpair.
    destruct Hpair as [Hp|[Hp _]]; lra.
  - apply StronglySorted_lookup_2. intros a b i j Hab Ha Hb.
    apply lookup_seq in Ha as [-> _]. apply lookup_seq in Hb as [-> _]. lia.
Qed.

Lemma squares_strictly_decreasing (sv : list Q) :
  Forall (fun s => 0 <= s) sv -> strictly_decreasing sv ->
  strictly_decreasing ((fun s => s ^ 2) <$> sv).
Proof.
  intros Hnn Hdec i j x y Hij Hx Hy.
  rewrite list_lookup_fmap in Hx, Hy.
  destruct (sv !! i) as [a|] eqn:Ha; [| done].
  destruct (sv !! j) as [b|] eqn:Hb; [| done].
  injection Hx as <-. injection Hy as <-.
  pose proof (Hdec i j a b Hij Ha Hb) as Hlt.
  assert (H0 : 0 <= b).
  { eapply (proj1 (Forall_forall _ _) Hnn). apply list_elem_of_lookup. eauto. }
  simpl. nra.
Qed.

End SortedModes.

Section ComplexMcaModes.
Context `{NumericBackend}.
Context {AnyDataObject Dims Weights Preprocessor : Type}.
Context `{!Mca.Collaborators AnyDataObject Dims Weights Preprocessor}.

(** X17.  What [ComplexMCA.fit] stores about the modes comes from the
    decomposition of the two analytic signals: the squared covariance is the
    square of the decomposer's singular values, both norms are their square
    roots, the components are its singular vectors, and the mode order lists
    every mode once by descending squared covariance.  For singular values
    that are non-negative and fall strictly, as a singular value decomposition
    without ties delivers them, the order is 0, 1, ..., n-1: the modes stay as
    they are. *)
Theorem complex_mca_modes_sorted (self fitted : Mca.ComplexMCA)
    (data1 data2 : AnyDataObject) (dim : Dims) (weights1 weights2 : option Weights) :
  Mca.fit self data1 data2 dim weights1 weights2 = Ok fitted ->
  exists pp1 x1 pp2 x2 h1 h2 d c,
    Mca.fit_transform (Mca.preprocessor1 self) data1 dim weights2 = Ok (pp1, x1) /\
    Mca.fit_transform (Mca.preprocessor2 self) data2 dim weights2 = Ok (pp2, x2) /\
    Hilbert.hilbert_transform x1 "sample" (Mca.padding (Mca.params self))
      (Mca.decay_factor (Mca.params self)) = Ok h1 /\
    Hilbert.hilbert_transform x2 "sample" (Mca.padding (Mca.params self))
      (Mca.decay_factor (Mca.params self)) = Ok h2 /\
    Mca.cross_decomposer_fit (Mca.n_modes (Mca.params self)) h1 h2 = Ok d /\
    Mca.data fitted = Some c /\
    Mca.squared_covariance c = (fun s => s ^ 2)%Q <$> Mca.singular_values_ d /\
    Mca.total_squared_covariance c = Mca.total_squared_covariance_ d /\
    Mca.components1 c = Mca.singular_vectors1_ d /\
    Mca.components2 c = Mca.singular_vectors2_ d /\
    Mca.norm1 c = np_sqrt <$> Mca.singular_values_ d /\
    Mca.norm2 c = np_sqrt <$> Mca.singular_values_ d /\
    Mca.idx_modes_sorted c ≡ₚ seq 0 (length (Mca.singular_values_ d)) /\
    sorted_descending (Mca.squared_covariance c) (Mca.idx_modes_sorted c) /\
    (Forall (fun s => (0 <= s)%Q) (Mca.singular_values_ d) ->
     strictly_decreasing (Mca.singular_values_ d) ->
     Mca.idx_modes_sorted c = seq 0 (length (Mca.singular_values_ d))).
Proof.
  unfold Mca.fit. intros Hfit.
  destruct (Mca.fit_transform (Mca.preprocessor1 self) _ _ _) as [[pp1 x1]|] eqn:E1;
    [| done].
  cbn [bind] in Hfit.
  destruct (Mca.fit_transform (Mca.preprocessor2 self) _ _ _) as [[pp2 x2]|] eqn:E2;
    [| done].
  cbn [bind] in Hfit.
  destruct (Hilbert.hilbert_transform x1 _ _ _) as [h1|] eqn:Eh1; [| done].
  cbn [bind] in Hfit.
  destruct (Hilbert.hilbert_transform x2 _ _ _) as [h2|] eqn:Eh2; [| done].
  cbn [bind] in Hfit.
  destruct (Mca.cross_decomposer_fit _ h1 h2) as [d|] eqn:Ed; [| done].
  cbn [bind] in Hfit.
  repeat bind_Ok Hfit. injection Hfit as <-.
  exists pp1, x1, pp2, x2, h1, h2, d. eexists.
  split_and!; [done | done | done | done | done | reflexivity | ..];
    cbn [Mca.squared_covariance Mca.total_squared_covariance Mca.components1
         Mca.components2 Mca.norm1 Mca.norm2 Mca.idx_modes_sorted];
    try reflexivity;
    set (sc := (fun s : Q => (s * s)%Q) <$> Mca.singular_values_ d);
    change (reverse (Np.argsort sc)) with (Loadings.idx_sort sc).
  - rewrite idx_sort_perm. unfold sc. by rewrite length_fmap.
  - apply idx_sort_descending.
  - intros Hnn Hdec. rewrite idx_sort_strictly_decreasing.
    + unfold sc. by rewrite length_fmap.
    + by apply (squares_strictly_decreasing _ Hnn).
Qed.

End ComplexMcaModes.

Lemma cmca2_fitted_ok :
  Mca.fit (H := Reference.backend) (Collaborators0 := Standins.complex_collaborators)
    Standins.cmca2 Examples.field1 Examples.field2 "time" (Some 3%Q) (Some 2%Q)
  = Ok Standins.cmca2_fitted.
Proof. vm_compute. reflexivity. Qed.

Lemma complex_mca_modes_sorted_witness :
  exists pp1 x1 pp2 x2 h1 h2 d c,
    Reference.scale_by_weight None Examples.field1 "time" (Some 2%Q) = Ok (pp1, x1) /\
    Reference.scale_by_weight None Examples.field2 "time" (Some 2%Q) = Ok (pp2, x2) /\
    Hilbert.hilbert_transform (H := Reference.backend) x1 "sample" (Some "exp") (1 # 5)
    = Ok h1 /\
    Hilbert.hilbert_transform (H := Reference.backend) x2 "sample" (Some "exp") (1 # 5)
    = Ok h2 /\
    Standins.two_axes_complex 2 h1 h2 = Ok d /\
    Mca.data Standins.cmca2_fitted = Some c /\
    Mca.squared_covariance c = (fun s => s ^ 2)%Q <$> Mca.singular_values_ d /\
    Mca.total_squared_covariance c = Mca.total_squared_covariance_ d /\
    Mca.components1 c = Mca.singular_vectors1_ d /\
    Mca.components2 c = Mca.singular_vectors2_ d /\
    Mca.norm1 c = Reference.sqrt_floor <$> Mca.singular_values_ d /\
    Mca.norm2 c = Reference.sqrt_floor <$> Mca.singular_values_ d /\
    Mca.idx_modes_sorted c ≡ₚ seq 0 (length (Mca.singular_values_ d)) /\
    sorted_descending (Mca.squared_covariance c) (Mca.idx_modes_sorted c) /\
    (Forall (fun s => (0 <= s)%Q) (Mca.singular_values_ d) ->
     strictly_decreasing (Mca.singular_values_ d) ->
     Mca.idx_modes_sorted c = seq 0 (length (Mca.singular_values_ d))).
Proof.
  apply (complex_mca_modes_sorted (H := Reference.backend)
           (H0 := Standins.complex_collaborators)
           Standins.cmca2 Standins.cmca2_fitted Examples.field1 Examples.field2 "time"
           (Some 3%Q) (Some 2%Q)).
  exact cmca2_fitted_ok.
Defined.

Section RealMcaModes.
Context `{NumericBackend}.
Context {AnyDataObject Dims Weights Preprocessor ScoresObject : Type}.
Context `{!RealMca.Collaborators AnyDataObject Dims Weights Preprocessor ScoresObject}.
Import RealMca.

(** X18.  What [MCA.fit] stores about the modes comes from the decomposition
    of the two preprocessed fields: the squared covariance is the square of
    the decomposer's singular values, both norms are their square roots, the
    components are its singular vectors, and the mode order lists every mode
    once by descending squared covariance; it is 0, 1, ..., n-1 when the
    singular values are non-negative and fall strictly. *)
Theorem mca_modes_sorted (self fitted : RealMca.MCA)
    (data1 data2 : AnyDataObject) (dim : Dims) (weights1 weights2 : option Weights) :
  RealMca.fit self data1 data2 dim weights1 weights2 = Ok fitted ->
  exists pp1 x1 pp2 x2 d c,
    RealMca.fit_transform (RealMca.preprocessor1 self) data1 dim weights1
    = Ok (pp1, x1) /\
    RealMca.fit_transform (RealMca.preprocessor2 self) data2 dim weights2
    = Ok (pp2, x2) /\
    RealMca.cross_decomposer_fit (RealMca.n_modes self) x1 x2 = Ok d /\
    RealMca.data fitted = Some c /\
    RealMca.squared_covariance c = (fun s => s ^ 2)%Q <$> RealMca.singular_values_ d /\
    RealMca.total_squared_covariance c = RealMca.total_squared_covariance_ d /\
    RealMca.components1 c = RealMca.singular_vectors1_ d /\
    RealMca.components2 c = RealMca.singular_vectors2_ d /\
    RealMca.norm1 c = np_sqrt <$> RealMca.singular_values_ d /\
    RealMca.norm2 c = np_sqrt <$> RealMca.singular_values_ d /\
    RealMca.idx_modes_sorted c ≡ₚ seq 0 (length (RealMca.singular_values_ d)) /\
    sorted_descending (RealMca.squared_covariance c) (RealMca.idx_modes_sorted c) /\
    (Forall (fun s => (0 <= s)%Q) (RealMca.singular_values_ d) ->
     strictly_decreasing (RealMca.singular_values_ d) ->
     RealMca.idx_modes_sorted c = seq 0 (length (RealMca.singular_values_ d))).
Proof.
  unfold fit. intros Hfit.
  destruct (fit_transform (preprocessor1 self) _ _ _) as [[pp1 x1]|] eqn:E1; [| done].
  cbn [bind] in Hfit.
  destruct (fit_transform (preprocessor2 self) _ _ _) as [[pp2 x2]|] eqn:E2; [| done].
  cbn [bind] in Hfit.
  destruct (cross_decomposer_fit _ x1 x2) as [d|] eqn:Ed; [| done].
  cbn [bind] in Hfit.
  repeat bind_Ok Hfit. injection Hfit as <-.
  exists pp1, x1, pp2, x2, d. eexists.
  split_and!; [done | done | done | reflexivity | ..];
    cbn [squared_covariance total_squared_covariance components1 components2
         norm1 norm2 idx_modes_sorted];
    try reflexivity;
    set (sc := (fun s : Q => (s * s)%Q) <$> singular_values_ d);
    change (reverse (Np.argsort sc)) with (Loadings.idx_sort sc).
  - rewrite idx_sort_perm. unfold sc. by rewrite length_fmap.
  - apply idx_sort_descending.
  - intros Hnn Hdec. rewrite idx_sort_strictly_decreasing.
    + unfold sc. by rewrite length_fmap.
    + by apply (squares_strictly_decreasing _ Hnn).
Qed.

End RealMcaModes.

Lemma mca_modes_sorted_witness :
  exists pp1 x1 pp2 x2 d c,
    Reference.scale_by_weight None Examples.field1 "time" (Some 3%Q) = Ok (pp1, x1) /\
    Reference.scale_by_weight None Examples.field2 "time" (Some 2%Q) = Ok (pp2, x2) /\
    Standins.two_axes 2 x1 x2 = Ok d /\
    RealMca.data Standins.mca_fitted = Some c /\
    RealMca.squared_covariance c = (fun s => s ^ 2)%Q <$> RealMca.singular_values_ d /\
    RealMca.total_squared_covariance c = RealMca.total_squared_covariance_ d /\
    RealMca.components1 c = RealMca.singular_vectors1_ d /\
    RealMca.components2 c = RealMca.singular_vectors2_ d /\
    RealMca.norm1 c = Reference.sqrt_floor <$> RealMca.singular_values_ d /\
    RealMca.norm2 c = Reference.sqrt_floor <$> RealMca.singular_values_ d /\
    RealMca.idx_modes_sorted c ≡ₚ seq 0 (length (RealMca.singular_values_ d)) /\
    sorted_descending (RealMca.squared_covariance c) (RealMca.idx_modes_sorted c) /\
    (Forall (fun s => (0 <= s)%Q) (RealMca.singular_values_ d) ->
     strictly_decreasing (RealMca.singular_values_ d) ->
     RealMca.idx_modes_sorted c = seq 0 (length (RealMca.singular_values_ d))).
Proof.
  apply (mca_modes_sorted (H := Reference.backend)
           (H0 := Standins.collaborators)
           Standins.mca Standins.mca_fitted Examples.field1 Examples.field2 "time"
           (Some 3%Q) (Some 2%Q)).
  exact mca_fitted_ok.
Defined.

(** ** Selecting modes in [inverse_transform] *)

Section ModeSelection.

Lemma filter_iff_in {A} (P1 P2 : A -> Prop)
    `{!forall x, Decision (P1 x)} `{!forall x, Decision (P2 x)} (l : list A) :
  (forall x, x ∈ l -> (P1 x <-> P2 x)) -> filter P1 l = filter P2 l.
Proof.
  induction l as [|x l IH]; intros Hl; [done |].
  rewrite !filter_cons.
  assert (Hx : P1 x <-> P2 x) by (apply Hl; left).
  rewrite IH by (intros y Hy; apply Hl; by right).
  destruct (decide (P1 x)), (decide (P2 x)); tauto.
Qed.

(** A label slice reaches no further than the coordinate 1..n. *)
Lemma sel_mode_slice_clip {A} (lo hi : Z) (a : list A) :
  Xr.sel_mode_slice lo hi a
  = Xr.sel_mode_slice (Z.max lo 1) (Z.min hi (Z.of_nat (length a))) a.
Proof.
  unfold Xr.sel_mode_slice. f_equal. apply filter_iff_in.
  intros [k x] Hk. simpl.
  assert (Hrange : (1 <= k <= Z.of_nat (length a))%Z).
  { apply list_elem_of_lookup in Hk as [i Hi].
    apply lookup_zip_with_Some in Hi as (k' & x' & [= <- <-] & Hk' & _).
    unfold Xr.mode_coords in Hk'. rewrite list_lookup_fmap in Hk'.
    destruct (seq 1 (length a) !! i) as [n|] eqn:Hn; [| done].
    injection Hk' as <-. apply lookup_seq in Hn as [-> Hi]. lia. }
  lia.
Qed.

Lemma sel_label_missing {A} (k : Z) (a : list A) :
  ~ (1 <= k <= Z.of_nat (length a))%Z -> RealMca.sel_label k a = Raise KeyError.
Proof.
  intros Hk. unfold RealMca.sel_label.
  destruct (decide (1 <= k)%Z) as [H1|]; [| done].
  by rewrite (proj2 (lookup_ge_None a (Z.to_nat k - 1))) by lia.
Qed.

Lemma sel_label_raises {A} (k : Z) (a : list A) e :
  RealMca.sel_label k a = Raise e -> e = KeyError.
Proof.
  unfold RealMca.sel_label. destruct (decide _); [| congruence].
  destruct (a !! _); congruence.
Qed.

Context {AnyDataObject Dims Weights Preprocessor ScoresObject : Type}.
Context `{!RealMca.Collaborators AnyDataObject Dims Weights Preprocessor ScoresObject}.
Import RealMca.

(** X19.  [inverse_transform] selects modes by label. A single label, or a label
    in an array of labels, that is not one of the modes 1..n of the fitted model
    is a [KeyError], raised before any reconstruction; a slice is never refused:
    it is cut down to the modes that exist, so a slice reaching beyond them
    gives what the slice 1..n gives. *)
Theorem mca_inverse_transform_labels (self : RealMca.MCA) (c : RealMca.DataContainer)
    (n : nat) :
  RealMca.data self = Some c ->
  length (RealMca.components1 c) = n -> length (RealMca.components2 c) = n ->
  length (RealMca.scores1 c) = n -> length (RealMca.scores2 c) = n ->
  length (RealMca.norm1 c) = n -> length (RealMca.norm2 c) = n ->
  (forall k, ~ (1 <= k <= Z.of_nat n)%Z ->
     RealMca.inverse_transform self (RealMca.Label k) = Raise KeyError) /\
  (forall ks k, k ∈ ks -> ~ (1 <= k <= Z.of_nat n)%Z ->
     RealMca.inverse_transform self (RealMca.Labels ks) = Raise KeyError) /\
  (forall lo hi,
     RealMca.inverse_transform self (RealMca.Slice lo hi)
     = RealMca.inverse_transform self
         (RealMca.Slice (Z.max lo 1) (Z.min hi (Z.of_nat n)))).
Proof.
  intros Hc Hc1 Hc2 Hs1 Hs2 Hn1 Hn2.
  unfold inverse_transform, container. rewrite Hc. cbn [bind]. split_and!.
  - intros k Hk. unfold reconstruct. simpl.
    by rewrite sel_label_missing by (by rewrite Hc1).
  - intros ks k Hin Hk. unfold reconstruct. simpl.
    rewrite (traverse_Raise_all _ ks KeyError k); [done | done | |].
    + apply sel_label_missing. by rewrite Hc1.
    + intros y e'. apply sel_label_raises.
  - intros lo hi. unfold reconstruct. simpl.
    rewrite (sel_mode_slice_clip lo hi (components1 c)), Hc1.
    rewrite (sel_mode_slice_clip lo hi (components2 c)), Hc2.
    rewrite (sel_mode_slice_clip lo hi (scores1 c)), Hs1.
    rewrite (sel_mode_slice_clip lo hi (scores2 c)), Hs2.
    rewrite (sel_mode_slice_clip lo hi (norm1 c)), Hn1.
    by rewrite (sel_mode_slice_clip lo hi (norm2 c)), Hn2.
Qed.

End ModeSelection.

Lemma mca_inverse_transform_labels_witness :
  (forall k, ~ (1 <= k <= Z.of_nat 2)%Z ->
     RealMca.inverse_transform (Collaborators0 := Standins.collaborators)
       Standins.mca_fitted (RealMca.Label k)
     = Raise KeyError) /\
  (forall ks k, k ∈ ks -> ~ (1 <= k <= Z.of_nat 2)%Z ->
     RealMca.inverse_transform (Collaborators0 := Standins.collaborators)
       Standins.mca_fitted (RealMca.Labels ks)
     = Raise KeyError) /\
  (forall lo hi,
     RealMca.inverse_transform (Collaborators0 := Standins.collaborators)
       Standins.mca_fitted (RealMca.Slice lo hi)
     = RealMca.inverse_transform (Collaborators0 := Standins.collaborators)
         Standins.mca_fitted (RealMca.Slice (Z.max lo 1) (Z.min hi (Z.of_nat 2)))).
Proof.
  eapply (mca_inverse_transform_labels
            (H := Standins.collaborators) Standins.mca_fitted _ 2);
    reflexivity.
Defined.

(** ** Reconstruction from all modes *)

Section Sums.
Local Open Scope Q_scope.

Lemma sum_ext {A} (f g : A -> Q) (l : list A) :
  (forall x, x ∈ l -> f x == g x) -> Np.sum (f <$> l) == Np.sum (g <$> l).
Proof.
  induction l as [|x l IH]; intros Hl; csimpl; [done |].
  rewrite (Hl x) by left. rewrite IH; [done |]. intros y Hy. apply Hl. by right.
Qed.

Lemma sum_add {A} (f g : A -> Q) (l : list A) :
  Np.sum ((fun x => f x + g x) <$> l) == Np.sum (f <$> l) + Np.sum (g <$> l).
Proof. induction l as [|x l IH]; csimpl; [done |]. rewrite IH. ring. Qed.

Lemma sum_scale_r {A} (f : A -> Q) (c : Q) (l : list A) :
  Np.sum ((fun x => f x * c) <$> l) == Np.sum (f <$> l) * c.
Proof. induction l as [|x l IH]; csimpl; [ring |]. rewrite IH. ring. Qed.

Lemma sum_scale_l {A} (f : A -> Q) (c : Q) (l : list A) :
  Np.sum ((fun x => c * f x) <$> l) == c * Np.sum (f <$> l).
Proof. induction l as [|x l IH]; csimpl; [ring |]. rewrite IH. ring. Qed.

Lemma sum_const_zero {A} (l : list A) : Np.sum ((fun _ => 0) <$> l) == 0.
Proof. induction l as [|x l IH]; csimpl; [done |]. rewrite IH. ring. Qed.

Lemma sum_swap {A B} (g : A -> B -> Q) (la : list A) (lb : list B) :
  Np.sum ((fun a => Np.sum ((fun b => g a b) <$> lb)) <$> la)
  == Np.sum ((fun b => Np.sum ((fun a => g a b) <$> la)) <$> lb).
Proof.
  induction la as [|a la IH]; csimpl.
  - symmetry. exact (sum_const_zero lb).
  - rewrite IH. symmetry.
    exact (sum_add (g a) (fun b => Np.sum ((fun a => g a b) <$> la)) lb).
Qed.

End Sums.

Section Delta.
Local Open Scope Q_scope.

Lemma sum_delta (x : nat -> Q) (f start n : nat) :
  Np.sum ((fun i => x i * (if decide (i = f) then 1 else 0)) <$> seq start n)
  == if decide (start <= f < start + n)%nat then x f else 0.
Proof.
  revert start. induction n as [|n IH]; intros start; csimpl.
  - rewrite decide_False by lia. done.
  - rewrite IH. destruct (decide (start = f)) as [->|Hne].
    + rewrite decide_False by lia. rewrite decide_True by lia. ring.
    + destruct (decide (S start <= f < S start + n)%nat).
      * rewrite decide_True by lia. ring.
      * rewrite decide_False by lia. ring.
Qed.

Lemma zip_with_by_index (a b : list Q) (F : nat) :
  length a = F -> length b = F ->
  zip_with Qmult a b = (fun i => Np.key a i * Np.key b i) <$> seq 0 F.
Proof.
  intros Ha Hb. apply list_eq_same_length with F.
  - by rewrite length_fmap, length_seq.
  - rewrite length_zip_with. lia.
  - intros i x y Hi Hx Hy.
    apply lookup_zip_with_Some in Hx as (p & q & -> & Hp & Hq).
    rewrite list_lookup_fmap, lookup_seq_lt in Hy by done. injection Hy as <-.
    unfold Np.key. by rewrite Hp, Hq.
Qed.

Lemma zip_with_fmap_same {A} (p q : A -> Q) (G : list A) :
  zip_with Qmult (p <$> G) (q <$> G) = (fun c => p c * q c) <$> G.
Proof. induction G as [|c G IH]; csimpl; [done |]. by rewrite IH. Qed.

Lemma mul_mode_zip (V : list (list Q)) (norm : list Q) :
  Xr.mul_mode V norm
  = (fun cs : list Q * Q => (fun x => x * cs.2) <$> cs.1) <$> zip V norm.
Proof.
  unfold Xr.mul_mode. revert norm.
  induction V as [|v V IH]; intros [|s norm]; csimpl; try done. by rewrite IH.
Qed.

End Delta.

Section RoundTripMca.
Local Open Scope Q_scope.
Context `{NumericBackend}.
Context {AnyDataObject Dims Weights Preprocessor ScoresObject : Type}.
Context `{!RealMca.Collaborators AnyDataObject Dims Weights Preprocessor ScoresObject}.
Import RealMca.

Lemma fit_scores1 (self fitted : MCA) (data1 data2 : AnyDataObject) (dim : Dims)
    (weights1 weights2 : option Weights) (c : DataContainer) :
  fit self data1 data2 dim weights1 weights2 = Ok fitted ->
  data fitted = Some c ->
  project (input_data1 c) (components1 c) (norm1 c) = Ok (scores1 c).
Proof.
  unfold fit. intros Hfit Hc.
  destruct (fit_transform (preprocessor1 self) _ _ _) as [[pp1 x1]|]; [| done].
  cbn [bind] in Hfit.
  destruct (fit_transform (preprocessor2 self) _ _ _) as [[pp2 x2]|]; [| done].
  cbn [bind] in Hfit.
  repeat bind_Ok Hfit. injection Hfit as <-. simpl in Hc. injection Hc as <-. done.
Qed.

Lemma key_fmap {A} (g : A -> Q) (l : list A) (i : nat) (x : A) :
  l !! i = Some x -> Np.key (g <$> l) i = g x.
Proof. intros Hx. unfold Np.key. by rewrite list_lookup_fmap, Hx. Qed.

Lemma key_scaled (v : list Q) (n : Q) (f : nat) :
  Np.key ((fun x => x * n) <$> v) f == Np.key v f * n.
Proof.
  unfold Np.key. rewrite list_lookup_fmap.
  destruct (v !! f); simpl; [done | ring].
Qed.

(** One entry of the reconstruction from all modes. *)
Lemma reconstructed_entry (V : list (list Q)) (norm : list Q) (F : nat)
    (X : list (list Q)) (s f : nat) (row : list Q) :
  complete_orthonormal V F -> length norm = F ->
  Forall (fun n => ~ n == 0) norm ->
  X !! s = Some row -> length row = F -> (f < F)%nat ->
  Np.sum (zip_with Qmult
            ((fun m => Np.key m s) <$> Xr.div_mode (Xr.dot_feature X V) norm)
            ((fun m => Np.key m f) <$> Xr.mul_mode V norm))
  == Np.key row f.
Proof.
  intros (HV & Hrows & Horth) Hnorm Hnz Hrow Hlen Hf.
  rewrite div_mode_dot_feature, mul_mode_zip.
  rewrite <- !list_fmap_compose, zip_with_fmap_same.
  (* the norm of a mode cancels *)
  rewrite (sum_ext _ (fun cs : list Q * Q =>
                        Np.sum (zip_with Qmult row cs.1) * Np.key cs.1 f)).
  2:{ intros [v n] Hin. simpl.
      rewrite (key_fmap _ X s row) by done. rewrite key_scaled.
      assert (Hn : ~ n == 0).
      { apply elem_of_zip_r in Hin.
        by apply (proj1 (Forall_forall _ _) Hnz). }
      simpl. field. done. }
  change (fun cs : list Q * Q => Np.sum (zip_with Qmult row cs.1) * Np.key cs.1 f)
    with ((fun v : list Q => Np.sum (zip_with Qmult row v) * Np.key v f)
            ∘ @fst (list Q) Q).
  rewrite list_fmap_compose, fst_zip by lia.
  (* sums over features and over modes change places *)
  rewrite (sum_ext _ (fun v : list Q =>
             Np.sum ((fun i => Np.key row i * (Np.key v i * Np.key v f)) <$> seq 0 F))).
  2:{ intros v Hv.
      rewrite (zip_with_by_index row v F); [| done |].
      - rewrite <- sum_scale_r. apply sum_ext. intros i _. ring.
      - by apply (proj1 (Forall_forall _ _) Hrows). }
  rewrite (sum_swap (fun (v : list Q) i => Np.key row i * (Np.key v i * Np.key v f))).
  rewrite (sum_ext _ (fun i => Np.key row i * (if decide (i = f) then 1 else 0))).
  2:{ intros i Hi%elem_of_seq.
      rewrite (sum_scale_l (fun v : list Q => Np.key v i * Np.key v f)).
      rewrite Horth by lia. done. }
  rewrite (sum_delta (Np.key row) f 0 F). by rewrite decide_True by lia.
Qed.

(** X20.  Round trip of [fit] and [inverse_transform]: when the left singular
    vectors are an orthonormal basis of the feature space and no norm is zero,
    the left array that [inverse_transform] reconstructs from all the modes and
    hands to the preprocessor is, entry by entry, the preprocessed left field
    that [fit] stored. *)
Theorem mca_reconstruct_round_trip (self fitted : RealMca.MCA)
    (data1 data2 : AnyDataObject) (dim : Dims) (weights1 weights2 : option Weights)
    (c : RealMca.DataContainer) (X : list (list Q)) (F : nat) (hi : Z) :
  RealMca.fit self data1 data2 dim weights1 weights2 = Ok fitted ->
  RealMca.data fitted = Some c ->
  RealMca.input_data1 c = {| Xr.dims := ("sample", "feature"); Xr.values := X |} ->
  (0 < F)%nat -> Forall (fun row => length row = F) X ->
  complete_orthonormal (RealMca.components1 c) F ->
  length (RealMca.norm1 c) = F -> Forall (fun n => ~ n == 0) (RealMca.norm1 c) ->
  (Z.of_nat F <= hi)%Z ->
  exists r1 r2,
    RealMca.reconstruct c (RealMca.Slice 1 hi) = Ok (r1, r2) /\
    Forall2 (Forall2 Qeq) r1 X.
Proof.
  intros Hfit Hc Hin HF Hrect Hbasis Hnorm Hnz Hhi.
  pose proof (fit_scores1 _ _ _ _ _ _ _ c Hfit Hc) as Hscores.
  unfold project in Hscores. rewrite Hin in Hscores.
  unfold Xr.as_dims in Hscores. simpl in Hscores.
  injection Hscores as Hscores.
  destruct Hbasis as (HV & Hrows & Horth).
  assert (Hlen_s : length (scores1 c) = F).
  { rewrite <- Hscores. unfold Xr.div_mode, Xr.dot_feature.
    rewrite length_zip_with, length_fmap. lia. }
  unfold reconstruct, sel_mode. cbn [bind].
  rewrite (sel_mode_slice_all hi (components1 c)) by lia.
  rewrite (sel_mode_slice_all hi (scores1 c)) by lia.
  rewrite (sel_mode_slice_all hi (norm1 c)) by lia.
  eexists _, _. split; [reflexivity |].
  assert (HnS : length (Np.transpose (scores1 c)) = length X).
  { rewrite <- Hscores, div_mode_dot_feature.
    destruct (zip (components1 c) (norm1 c)) as [|c0 G] eqn:EG.
    - apply (f_equal length) in EG. rewrite length_zip in EG. simpl in EG. lia.
    - rewrite (transpose_by_row
                 (fun (cs : list Q * Q) row => Np.sum (zip_with Qmult row cs.1) / cs.2)).
      by rewrite length_fmap. }
  assert (HnF : length (Np.transpose (components1 c)) = F).
  { apply transpose_width; [| done]. intros E. rewrite E in HV. simpl in HV. lia. }
  rewrite HnS, HnF. unfold dot_mode.
  apply Forall2_same_length_lookup_2; [by rewrite length_fmap, length_seq |].
  intros s r row Hr Hrow.
  rewrite list_lookup_fmap in Hr.
  rewrite lookup_seq_lt in Hr by (by eapply lookup_lt_Some). injection Hr as <-.
  assert (Hlen : length row = F).
  { eapply (proj1 (Forall_forall _ _) Hrect). apply list_elem_of_lookup. eauto. }
  apply Forall2_same_length_lookup_2; [by rewrite length_fmap, length_seq |].
  intros f y x Hy Hx.
  rewrite list_lookup_fmap in Hy.
  assert (Hf : (f < F)%nat) by (rewrite <- Hlen; by eapply lookup_lt_Some).
  rewrite lookup_seq_lt in Hy by done. injection Hy as <-.
  rewrite <- Hscores. simpl.
  rewrite (reconstructed_entry (components1 c) (norm1 c) F X s f row); try done.
  unfold Np.key. by rewrite Hx.
Qed.

End RoundTripMca.

Lemma mca_reconstruct_round_trip_witness :
  exists c,
    RealMca.data Standins.mca_fitted = Some c /\
    exists r1 r2,
      RealMca.reconstruct c (RealMca.Slice 1 10) = Ok (r1, r2) /\
      Forall2 (Forall2 Qeq) r1 [[3; 6]; [9; 15]]%Q.
Proof.
  eexists. split; [vm_compute; reflexivity |].
  eapply (mca_reconstruct_round_trip (H := Reference.backend)
            (H0 := Standins.collaborators)
            Standins.mca Standins.mca_fitted Examples.field1 Examples.field2 "time"
            (Some 3%Q) (Some 2%Q) _ [[3; 6]; [9; 15]]%Q 2 10).
  - exact mca_fitted_ok.
  - vm_compute. reflexivity.
  - reflexivity.
  - lia.
  - by repeat constructor.
  - split_and!; [reflexivity | by repeat constructor |].
    intros [|[|f]] [|[|f']] Hf Hf'; try lia; vm_compute; reflexivity.
  - reflexivity.
  - repeat constructor; intros E; vm_compute in E; discriminate E.
  - lia.
Defined.
